(** * Byte-Bistro transport protocols: frame codec, checksums, channel
      emulator, Go-Back-N and Selective-Repeat engines.

    A shallow embedding of the C sources and the properties of the
    specification checked against it.

    - [Checksum]: src/bb_checksum.c ([bb_fletcher32], [bb_crc32c_hw] and
      its availability probe, under the three builds its [#ifdef]s allow).
    - [Wire]: src/bb_wire.c, include/bb_wire.h ([bb_wire_pack],
      [bb_wire_parse], the packed 18-byte [bb_hdr_t]).
    - [Gbn]: src/bb_gbn.c.  [Timer]: include/bb_timer.h.  [Sr]: src/bb_sr.c.
    - [Channel]: src/bb_channel.c ([bb_channel_create], [bb_channel_send]
      and the helpers they call).

    Conventions.  A [uintN_t] is a [Z] in [0, 2^N) with the wrap-around of
    every arithmetic operation written out ([u32], [u64]); a byte buffer is
    a [list byte]; a [double] is a primitive binary64 [float].  Calls that
    leave the program (the monotonic clock, the datagram socket, and, for
    the engines, the channel below them) are answered by an explicit
    environment, and a world record counts how far it has been consumed.
    A loop of the source is a fixpoint over an amount of fuel that is shown
    never to be the reason it stops.  [free], the logging to stderr,
    [bb_proto_close] and [bb_channel_destroy] leave no trace in the model;
    what [bb_channel_recv] returns to an engine is a [chan_rx]. *)

From Stdlib Require Import ZArith List Lia Bool Floats.
From coqutil Require Import Byte Word.LittleEndianList.
Import ListNotations.
Local Open Scope Z_scope.

(** ** Fixed-width integers *)

Definition u8 (z : Z) : Z := z mod 2 ^ 8.
Definition u16 (z : Z) : Z := z mod 2 ^ 16.
Definition u32 (z : Z) : Z := z mod 2 ^ 32.
Definition u64 (z : Z) : Z := z mod 2 ^ 64.

(** [(int32_t)x] for a 32-bit pattern [x]. *)
Definition s32 (z : Z) : Z :=
  let w := u32 z in if w <? 2 ^ 31 then w else w - 2 ^ 32.

(** [static inline int32_t seq_cmp(uint32_t a, uint32_t b) { return (int32_t)(a - b); }]
    (the same helper in bb_gbn.c and bb_sr.c). *)
Definition seq_cmp (a b : Z) : Z := s32 (a - b).

(** ** src/bb_checksum.c *)

Module Checksum.

(** How the translation unit was built and what the CPU reports: the three
    facts the [#ifdef]s and the CPUID probe of bb_checksum.c depend on. *)
Record build := {
  x86_64 : bool;            (* __x86_64__ defined *)
  cpu_sse42 : bool;         (* CPUID.1:ECX bit 20 *)
  sse42_intrinsics : bool   (* __SSE4_2__ defined (-msse4.2) *)
}.

(** [(sum & 0xffff) + (sum >> 16)]; both summands are below 2^16 for a
    32-bit [sum], so the addition cannot wrap. *)
Definition fold16 (sum : Z) : Z := Z.land sum 0xffff + Z.shiftr sum 16.

(** The inner [do { sum1 += *data++; sum2 += sum1; } while (--tlen);]
    over the [tlen] bytes of one block. *)
Fixpoint fletcher_block (data : list byte) (sum1 sum2 : Z) : Z * Z :=
  match data with
  | [] => (sum1, sum2)
  | b :: rest =>
      let sum1 := u32 (sum1 + byte.unsigned b) in
      let sum2 := u32 (sum2 + sum1) in
      fletcher_block rest sum1 sum2
  end.

(** The outer [while (len)] loop: blocks of at most 360 bytes, one
    reduction after each block.  Every round consumes at least one byte, so
    [length data] rounds of fuel are never exhausted. *)
Fixpoint fletcher_loop (fuel : nat) (data : list byte) (sum1 sum2 : Z) : Z * Z :=
  match fuel with
  | O => (sum1, sum2)
  | S fuel' =>
      match data with
      | [] => (sum1, sum2)
      | _ :: _ =>
          let tlen := Nat.min 360 (length data) in
          let '(s1, s2) := fletcher_block (firstn tlen data) sum1 sum2 in
          fletcher_loop fuel' (skipn tlen data) (fold16 s1) (fold16 s2)
      end
  end.

Definition bb_fletcher32 (data : list byte) : Z :=
  let '(sum1, sum2) := fletcher_loop (length data) data 0xffff 0xffff in
  let sum1 := fold16 sum1 in
  let sum2 := fold16 sum2 in
  Z.lor (u32 (Z.shiftl sum2 16)) sum1.

Definition have_sse42 (bld : build) : bool := x86_64 bld && cpu_sse42 bld.

Definition bb_crc32c_hw_available (bld : build) : bool := have_sse42 bld.

(** Modelled from the spec: [__builtin_ia32_crc32qi] is a compiler builtin
    for the SSE4.2 CRC32 instruction, not code of this repository.  The spec
    names the function it accumulates: CRC32C, Castagnoli polynomial
    0x1EDC6F41, which the instruction processes bit-reflected (0x82F63B78),
    one byte per call. *)
Definition crc32c_poly_reflected : Z := 0x82F63B78.

Definition crc_shift (x : Z) : Z :=
  Z.lxor (Z.shiftr x 1) (if Z.odd x then crc32c_poly_reflected else 0).

Definition crc32qi (crc : Z) (b : byte) : Z :=
  Nat.iter 8 crc_shift (Z.lxor crc (byte.unsigned b)).

Definition bb_crc32c_hw (bld : build) (data : list byte) : Z :=
  if x86_64 bld then
    if negb (have_sse42 bld) then 0
    else if sse42_intrinsics bld
         then Z.lxor (fold_left crc32qi data 0xffffffff) 0xffffffff   (* ~crc *)
         else 0
  else 0.

(** The two builds the frame codec can run a real checksum with. *)
Definition fletcher_backend (bld : build) : Prop :=
  bb_crc32c_hw_available bld = false.
Definition crc32c_backend (bld : build) : Prop :=
  bb_crc32c_hw_available bld = true /\ sse42_intrinsics bld = true.

Definition portable : build :=
  {| x86_64 := false; cpu_sse42 := false; sse42_intrinsics := false |}.
Definition sse42 : build :=
  {| x86_64 := true; cpu_sse42 := true; sse42_intrinsics := true |}.

End Checksum.

(** ** src/bb_wire.c, include/bb_wire.h *)

Module Wire.
Import Checksum.

Definition BB_MAGIC : Z := 0xB17E.
Definition BB_FLAG_ACK : Z := 0x01.
Definition BB_FLAG_DATA : Z := 0x02.
Definition BB_FLAG_FIN : Z := 0x04.

(** [bb_hdr_t] under [#pragma pack(push,1)]. *)
Record bb_hdr_t := {
  magic : Z;    (* uint16_t *)
  flags : Z;    (* uint8_t  *)
  hdrlen : Z;   (* uint8_t  *)
  seq : Z;      (* uint32_t *)
  ack : Z;      (* uint32_t *)
  len : Z;      (* uint16_t *)
  crc32c : Z    (* uint32_t *)
}.

(** [sizeof(bb_hdr_t)]: 2 + 1 + 1 + 4 + 4 + 2 + 4 packed bytes. *)
Definition sizeof_hdr : Z := 18.

(** The object representation of a header on a little-endian host:
    what [memcpy(buf, &h, sizeof(h))] writes. *)
Definition hdr_bytes (h : bb_hdr_t) : list byte :=
  le_split 2 (magic h) ++ le_split 1 (flags h) ++ le_split 1 (hdrlen h) ++
  le_split 4 (seq h) ++ le_split 4 (ack h) ++ le_split 2 (len h) ++
  le_split 4 (crc32c h).

(** [memcpy(out, buf, sizeof(bb_hdr_t))]. *)
Definition hdr_of_bytes (buf : list byte) : bb_hdr_t :=
  {| magic := le_combine (firstn 2 buf);
     flags := le_combine (firstn 1 (skipn 2 buf));
     hdrlen := le_combine (firstn 1 (skipn 3 buf));
     seq := le_combine (firstn 4 (skipn 4 buf));
     ack := le_combine (firstn 4 (skipn 8 buf));
     len := le_combine (firstn 2 (skipn 12 buf));
     crc32c := le_combine (firstn 4 (skipn 14 buf)) |}.

(** [((const bb_hdr_t* )buf)->crc32c] and [((bb_hdr_t* )buf)->crc32c = c]:
    the four bytes at offset 14. *)
Definition get_crc (buf : list byte) : Z := le_combine (firstn 4 (skipn 14 buf)).
Definition set_crc (buf : list byte) (c : Z) : list byte :=
  firstn 14 buf ++ le_split 4 c ++ skipn 18 buf.

(** [bb_crc32c_hw_available() ? bb_crc32c_hw(buf, n) : bb_fletcher32(buf, n)]. *)
Definition checksum (bld : build) (data : list byte) : Z :=
  if bb_crc32c_hw_available bld then bb_crc32c_hw bld data else bb_fletcher32 data.

(** [bb_wire_pack]: the return value and the bytes written to [buf]. *)
Definition bb_wire_pack (bld : build) (cap : Z) (flags seq ack : Z)
    (payload : list byte) (len : Z) : Z * list byte :=
  if cap <? sizeof_hdr + len then (0, [])
  else
    let h := {| magic := BB_MAGIC; flags := flags; hdrlen := 10; seq := seq;
                ack := ack; len := len; crc32c := 0 |} in
    let buf := hdr_bytes h ++ firstn (Z.to_nat len) payload in
    let crc := checksum bld buf in
    (sizeof_hdr + len, set_crc buf crc).

(** [bb_wire_parse] on the span [buf[0..n)]: [None] for [false]; on success
    the header copied to [*out] and the bytes [*payload_out] points at. *)
Definition bb_wire_parse (bld : build) (buf : list byte) : option (bb_hdr_t * list byte) :=
  let n := Z.of_nat (length buf) in
  if n <? sizeof_hdr then None
  else
    let out := hdr_of_bytes buf in
    if negb (magic out =? BB_MAGIC) then None
    else
      let crc := get_crc buf in
      let calc := checksum bld (set_crc buf 0) in
      if negb (crc =? calc) then None
      else if n <? sizeof_hdr + len out then None
      else Some (out, skipn 18 buf).

End Wire.


(** ** The world outside the program *)

(** What the operating system answers: the successive readings of the
    monotonic clock [bb_now_ns()] and the successive return values of
    [bb_channel_send] as the transport engines see them. *)
Record env := {
  now_ns : nat -> Z;       (* uint64_t: the k-th reading of the clock *)
  send_ret : nat -> Z      (* ssize_t: what the k-th bb_channel_send returns *)
}.

(** How far the environment has been consumed, and the frames handed to the
    channel so far, oldest first. *)
Record world := {
  clock_reads : nat;
  sends : nat;
  wire : list (list byte)
}.

Definition world0 : world := {| clock_reads := 0; sends := 0; wire := [] |}.

Definition bb_now_ns (e : env) (w : world) : Z * world :=
  (now_ns e (clock_reads w),
   {| clock_reads := S (clock_reads w); sends := sends w; wire := wire w |}).

(** [bb_channel_send(ch, buf, m)] seen from a transport engine. *)
Definition channel_send (e : env) (w : world) (frame : list byte) : Z * world :=
  (send_ret e (sends w),
   {| clock_reads := clock_reads w; sends := S (sends w); wire := wire w ++ [frame] |}).

(** What one [bb_channel_recv(ch, ibuf, sizeof(ibuf), timeout_ms)] returns:
    0 on timeout, a negative value on error, or a datagram. *)
Inductive chan_rx :=
| RxTimeout
| RxError (r : Z)
| RxData (datagram : list byte).

(** The return value [rn] and the bytes left in [ibuf[0..rn)]; a datagram
    longer than the 2048-byte buffer is cut by [recvfrom]. *)
Definition rx_rn (rx : chan_rx) : Z :=
  match rx with
  | RxTimeout => 0
  | RxError r => r
  | RxData d => Z.of_nat (length (firstn 2048 d))
  end.

Definition rx_ibuf (rx : chan_rx) : list byte :=
  match rx with
  | RxData d => firstn 2048 d
  | _ => []
  end.

(** [bb_proto_cfg_t] (include/bb_proto.h). *)
Record bb_proto_cfg_t := {
  init_seq : Z;   (* uint32_t *)
  wnd : Z;        (* uint32_t *)
  mss : Z;        (* uint32_t *)
  rto_ms : Z      (* uint32_t *)
}.

(** ** src/bb_gbn.c *)

Module Gbn.
Import Checksum Wire.

(** [gbn_t].  [outbuf] holds the [outlen] valid bytes of the 64 KiB
    snapshot buffer and [inbuf] the [inlen] valid bytes of the latch. *)
Record gbn_t := {
  cfg : bb_proto_cfg_t;
  snd_una : Z;
  snd_nxt : Z;
  rcv_nxt : Z;
  timer_ts : Z;
  timer_running : bool;
  outbuf : list byte;
  inbuf : list byte;
  have_in : bool
}.

Definition outcap : Z := 64 * 1024.
Definition outlen (s : gbn_t) : Z := Z.of_nat (length (outbuf s)).
Definition inlen (s : gbn_t) : Z := Z.of_nat (length (inbuf s)).

Definition bb_next_seq (x : Z) : Z := u32 (x + 1).

Definition set_timer (s : gbn_t) (ts : Z) (running : bool) : gbn_t :=
  {| cfg := cfg s; snd_una := snd_una s; snd_nxt := snd_nxt s; rcv_nxt := rcv_nxt s;
     timer_ts := ts; timer_running := running;
     outbuf := outbuf s; inbuf := inbuf s; have_in := have_in s |}.

Definition set_snd_una (s : gbn_t) (x : Z) : gbn_t :=
  {| cfg := cfg s; snd_una := x; snd_nxt := snd_nxt s; rcv_nxt := rcv_nxt s;
     timer_ts := timer_ts s; timer_running := timer_running s;
     outbuf := outbuf s; inbuf := inbuf s; have_in := have_in s |}.

Definition set_snd_nxt (s : gbn_t) (x : Z) : gbn_t :=
  {| cfg := cfg s; snd_una := snd_una s; snd_nxt := x; rcv_nxt := rcv_nxt s;
     timer_ts := timer_ts s; timer_running := timer_running s;
     outbuf := outbuf s; inbuf := inbuf s; have_in := have_in s |}.

Definition set_rcv_nxt (s : gbn_t) (x : Z) : gbn_t :=
  {| cfg := cfg s; snd_una := snd_una s; snd_nxt := snd_nxt s; rcv_nxt := x;
     timer_ts := timer_ts s; timer_running := timer_running s;
     outbuf := outbuf s; inbuf := inbuf s; have_in := have_in s |}.

Definition set_outbuf (s : gbn_t) (b : list byte) : gbn_t :=
  {| cfg := cfg s; snd_una := snd_una s; snd_nxt := snd_nxt s; rcv_nxt := rcv_nxt s;
     timer_ts := timer_ts s; timer_running := timer_running s;
     outbuf := b; inbuf := inbuf s; have_in := have_in s |}.

Definition clear_latch (s : gbn_t) : gbn_t :=
  {| cfg := cfg s; snd_una := snd_una s; snd_nxt := snd_nxt s; rcv_nxt := rcv_nxt s;
     timer_ts := timer_ts s; timer_running := timer_running s;
     outbuf := outbuf s; inbuf := []; have_in := false |}.

Section Engine.

Variable bld : build.
Variable e : env.

(** [s->timer_ts = bb_now_ns() + (uint64_t)s->cfg.rto_ms * 1000000ull;
     s->timer_running = true;] *)
Definition start_timer (w : world) (s : gbn_t) : gbn_t * world :=
  let '(now, w) := bb_now_ns e w in
  (set_timer s (u64 (now + u64 (rto_ms (cfg s) * 1000000))) true, w).

(** [s->timer_running && (bb_now_ns() >= s->timer_ts)]: the clock is read
    only when the timer runs. *)
Definition timer_expired (w : world) (s : gbn_t) : bool * world :=
  if timer_running s then
    let '(now, w) := bb_now_ns e w in (timer_ts s <=? now, w)
  else (false, w).

Definition send_frame (w : world) (s : gbn_t) (seq : Z) (p : list byte) (n : Z)
  : Z * gbn_t * world :=
  let '(m, buf) := bb_wire_pack bld 1500 BB_FLAG_DATA seq (rcv_nxt s) p (u16 n) in
  if m =? 0 then (-1, s, w)
  else
    let '(r, w) := channel_send e w buf in
    if r <? 0 then (-1, s, w)
    else if timer_running s then (0, s, w)
    else let '(s, w) := start_timer w s in (0, s, w).

Definition send_ack (w : world) (ackn : Z) : world :=
  let '(_, abuf) := bb_wire_pack bld 64 BB_FLAG_ACK 0 ackn [] 0 in
  snd (channel_send e w abuf).

(** The [for (q = s->snd_una; seq_cmp(s->snd_nxt, q) > 0; ++q)] loop of
    [retransmit_window_from_snapshot]; [q] comes one step closer to
    [snd_nxt] each round, so [seq_cmp snd_nxt snd_una] rounds suffice. *)
Fixpoint retransmit_loop (fuel : nat) (w : world) (s : gbn_t) (q : Z) : gbn_t * world :=
  match fuel with
  | O => (s, w)
  | S fuel' =>
      if seq_cmp (snd_nxt s) q >? 0 then
        let off2 := u64 (u32 (q - snd_una s) * mss (cfg s)) in
        if off2 >=? outlen s then (s, w)
        else
          let c2 := outlen s - off2 in
          let c2 := if c2 >? mss (cfg s) then mss (cfg s) else c2 in
          let '(_, s, w) := send_frame w s q (skipn (Z.to_nat off2) (outbuf s)) c2 in
          retransmit_loop fuel' w s (u32 (q + 1))
      else (s, w)
  end.

Definition retransmit_window_from_snapshot (w : world) (s : gbn_t) : gbn_t * world :=
  if (seq_cmp (snd_nxt s) (snd_una s) <=? 0) || (outlen s =? 0) then
    (set_timer s (timer_ts s) false, w)
  else
    let '(s, w) :=
      retransmit_loop (Z.to_nat (seq_cmp (snd_nxt s) (snd_una s))) w s (snd_una s) in
    start_timer w s.

(** [bb_proto_gbn_create]; the channel handle is the environment. *)
Definition bb_proto_gbn_create (c : bb_proto_cfg_t) : gbn_t :=
  let c := {| init_seq := init_seq c;
              wnd := if wnd c =? 0 then 32 else wnd c;
              mss := if mss c =? 0 then 512 else mss c;
              rto_ms := if rto_ms c =? 0 then 120 else rto_ms c |} in
  {| cfg := c; snd_una := init_seq c; snd_nxt := init_seq c; rcv_nxt := init_seq c;
     timer_ts := 0; timer_running := false;
     outbuf := []; inbuf := []; have_in := false |}.

(** The [while (off < len)] loop of [bb_proto_send].  [data] is the
    caller's buffer and [len] the length already cut to [outcap].  With
    [mss >= 1], as after create, every round consumes a byte, so [len]
    rounds suffice. *)
Fixpoint send_loop (fuel : nat) (w : world) (s : gbn_t) (data : list byte)
    (len off : Z) : Z * gbn_t * world :=
  match fuel with
  | O => (0, s, w)
  | S fuel' =>
      if off <? len then
        if u32 (snd_nxt s - snd_una s) >=? wnd (cfg s) then (0, s, w)
        else
          let chunk := len - off in
          let chunk := if chunk >? mss (cfg s) then mss (cfg s) else chunk in
          let '(r, s, w) := send_frame w s (snd_nxt s) (skipn (Z.to_nat off) data) chunk in
          if r <? 0 then (-1, s, w)
          else send_loop fuel' w (set_snd_nxt s (bb_next_seq (snd_nxt s))) data len (off + chunk)
      else (0, s, w)
  end.

Definition bb_proto_send (w : world) (s : gbn_t) (data : list byte) : Z * gbn_t * world :=
  let len := Z.of_nat (length data) in
  let len := if len >? outcap then outcap else len in
  let s := set_outbuf s (firstn (Z.to_nat len) data) in
  send_loop (Z.to_nat len) w s data len 0.

(** Lines 188-192 of [bb_proto_recv]: the cumulative ACK of a parsed header. *)
Definition ack_step (w : world) (s : gbn_t) (h : bb_hdr_t) : gbn_t * world :=
  if (seq_cmp (ack h) (snd_una s) >=? 0) && (seq_cmp (ack h) (snd_nxt s) <=? 0) then
    let s := set_snd_una s (ack h) in
    if seq_cmp (snd_una s) (snd_nxt s) =? 0
    then (set_timer s (timer_ts s) false, w)
    else start_timer w s
  else (s, w).

(** [if (seq_cmp(s->snd_nxt, s->snd_una) > 0 && timer_expired(s))
       retransmit_window_from_snapshot(s);] *)
Definition rto_check (w : world) (s : gbn_t) : gbn_t * world :=
  if seq_cmp (snd_nxt s) (snd_una s) >? 0 then
    let '(x, w) := timer_expired w s in
    if x then retransmit_window_from_snapshot w s else (s, w)
  else (s, w).

(** [bb_proto_recv]: the return value, the bytes copied to [out], the
    engine and the world afterwards.  [rx] is what [bb_channel_recv]
    returns in this call. *)
Definition bb_proto_recv (w : world) (s : gbn_t) (cap : Z) (rx : chan_rx)
  : Z * list byte * gbn_t * world :=
  if have_in s then
    let n := if inlen s >? cap then cap else inlen s in
    (n, firstn (Z.to_nat n) (inbuf s), clear_latch s, w)
  else
    let '(s, w) := rto_check w s in
    let rn := rx_rn rx in
    if rn <=? 0 then
      let '(s, w) := if rn =? 0 then rto_check w s else (s, w) in
      (rn, [], s, w)
    else
      match bb_wire_parse bld (rx_ibuf rx) with
      | None => (0, [], s, w)
      | Some (h, pl) =>
          let '(s, w) := ack_step w s h in
          if Z.land (flags h) BB_FLAG_DATA =? 0 then (0, [], s, w)
          else if negb (seq_cmp (seq h) (rcv_nxt s) =? 0) then
            (0, [], s, send_ack w (rcv_nxt s))
          else
            let L := if len h >? cap then cap else len h in
            let s := set_rcv_nxt s (bb_next_seq (rcv_nxt s)) in
            (L, firstn (Z.to_nat L) pl, s, send_ack w (rcv_nxt s))
      end.

End Engine.

End Gbn.

(** ** include/bb_timer.h *)

Module Timer.

Record bb_timer_t := {
  deadline_ns : Z;   (* uint64_t *)
  armed : bool
}.

Definition disarmed0 : bb_timer_t := {| deadline_ns := 0; armed := false |}.

(** [t->deadline_ns = bb_now_ns() + timeout_ms*1000000ull; t->armed = true;] *)
Definition bb_timer_arm (e : env) (w : world) (timeout_ms : Z) : bb_timer_t * world :=
  let '(now, w) := bb_now_ns e w in
  ({| deadline_ns := u64 (now + u64 (timeout_ms * 1000000)); armed := true |}, w).

Definition bb_timer_disarm (t : bb_timer_t) : bb_timer_t :=
  {| deadline_ns := deadline_ns t; armed := false |}.

(** [t->armed && bb_now_ns() >= t->deadline_ns] *)
Definition bb_timer_expired (e : env) (w : world) (t : bb_timer_t) : bool * world :=
  if armed t then
    let '(now, w) := bb_now_ns e w in (deadline_ns t <=? now, w)
  else (false, w).

Definition bb_timer_remaining_ms (e : env) (w : world) (t : bb_timer_t) : Z * world :=
  if armed t then
    let '(now, w) := bb_now_ns e w in
    ((if deadline_ns t <=? now then 0 else (deadline_ns t - now) / 1000000), w)
  else (0, w).

End Timer.

(** ** src/bb_sr.c *)

Module Sr.
Import Checksum Wire Timer.

Definition BB_MAX_WND : Z := 256.

(** One index of the [tx] arrays ([bufs], [lens], [timers], [inuse]) and
    of the [rx] arrays ([bufs], [lens], [present]); a NULL buffer is the
    empty list. *)
Record tx_slot := {
  tx_buf : list byte;
  tx_len : Z;            (* uint16_t *)
  tx_timer : bb_timer_t;
  tx_inuse : bool
}.

Record rx_slot := {
  rx_buf : list byte;
  rx_len : Z;            (* uint16_t *)
  rx_present : bool
}.

Definition tx_empty : tx_slot :=
  {| tx_buf := []; tx_len := 0; tx_timer := disarmed0; tx_inuse := false |}.
Definition rx_empty : rx_slot :=
  {| rx_buf := []; rx_len := 0; rx_present := false |}.

(** [sr_t]: the two tables have [BB_MAX_WND] entries. *)
Record sr_t := {
  cfg : bb_proto_cfg_t;
  snd_una : Z;
  snd_nxt : Z;
  rcv_nxt : Z;
  tx : list tx_slot;
  rx : list rx_slot
}.

Definition tx_at (s : sr_t) (i : Z) : tx_slot := nth (Z.to_nat i) (tx s) tx_empty.
Definition rx_at (s : sr_t) (i : Z) : rx_slot := nth (Z.to_nat i) (rx s) rx_empty.

(** Array store [a[i] = x]; every index the code uses is below [wnd]. *)
Fixpoint store {A : Type} (l : list A) (i : nat) (x : A) : list A :=
  match l, i with
  | [], _ => []
  | _ :: t, O => x :: t
  | h :: t, S i' => h :: store t i' x
  end.

Definition set_tx (s : sr_t) (i : Z) (x : tx_slot) : sr_t :=
  {| cfg := cfg s; snd_una := snd_una s; snd_nxt := snd_nxt s; rcv_nxt := rcv_nxt s;
     tx := store (tx s) (Z.to_nat i) x; rx := rx s |}.

Definition set_rx (s : sr_t) (i : Z) (x : rx_slot) : sr_t :=
  {| cfg := cfg s; snd_una := snd_una s; snd_nxt := snd_nxt s; rcv_nxt := rcv_nxt s;
     tx := tx s; rx := store (rx s) (Z.to_nat i) x |}.

Definition set_snd_una (s : sr_t) (x : Z) : sr_t :=
  {| cfg := cfg s; snd_una := x; snd_nxt := snd_nxt s; rcv_nxt := rcv_nxt s;
     tx := tx s; rx := rx s |}.

Definition set_snd_nxt (s : sr_t) (x : Z) : sr_t :=
  {| cfg := cfg s; snd_una := snd_una s; snd_nxt := x; rcv_nxt := rcv_nxt s;
     tx := tx s; rx := rx s |}.

Definition set_rcv_nxt (s : sr_t) (x : Z) : sr_t :=
  {| cfg := cfg s; snd_una := snd_una s; snd_nxt := snd_nxt s; rcv_nxt := x;
     tx := tx s; rx := rx s |}.

(** [wnd ? (x % wnd) : 0] *)
Definition wrap_idx (x wnd : Z) : Z := if wnd =? 0 then 0 else x mod wnd.

Section Engine.

Variable bld : build.
Variable e : env.

Definition send_ack (w : world) (s : sr_t) : world :=
  let '(_, abuf) := bb_wire_pack bld 64 BB_FLAG_ACK 0 (rcv_nxt s) [] 0 in
  snd (channel_send e w abuf).

Definition send_frame (w : world) (s : sr_t) (seq : Z) (p : list byte) (n : Z)
  : Z * world :=
  let '(m, buf) := bb_wire_pack bld 1600 BB_FLAG_DATA seq (rcv_nxt s) p (u16 n) in
  if m =? 0 then (-1, w)
  else
    let '(r, w) := channel_send e w buf in
    if r <? 0 then (-1, w) else (0, w).

(** The [while (seq_cmp(s->snd_una, h->ack) < 0)] loop of
    [consume_ack_any]: one slot released per round. *)
Fixpoint consume_loop (fuel : nat) (s : sr_t) (ackn : Z) : sr_t :=
  match fuel with
  | O => s
  | S fuel' =>
      if seq_cmp (snd_una s) ackn <? 0 then
        let i := wrap_idx (snd_una s) (wnd (cfg s)) in
        let s :=
          if tx_inuse (tx_at s i) then
            set_tx s i {| tx_buf := []; tx_len := tx_len (tx_at s i);
                          tx_timer := bb_timer_disarm (tx_timer (tx_at s i));
                          tx_inuse := false |}
          else s in
        consume_loop fuel' (set_snd_una s (u32 (snd_una s + 1))) ackn
      else s
  end.

Definition consume_ack_any (s : sr_t) (h : bb_hdr_t) : sr_t :=
  if (seq_cmp (ack h) (snd_una s) >=? 0) && (seq_cmp (ack h) (snd_nxt s) <=? 0)
  then consume_loop (Z.to_nat (seq_cmp (ack h) (snd_una s))) s (ack h)
  else s.

(** [bb_proto_sr_create]. *)
Definition bb_proto_sr_create (c : bb_proto_cfg_t) : sr_t :=
  let wnd1 := if wnd c =? 0 then 32 else wnd c in
  let wnd2 := if wnd1 >? BB_MAX_WND then BB_MAX_WND else wnd1 in
  let c := {| init_seq := init_seq c; wnd := wnd2;
              mss := if mss c =? 0 then 512 else mss c;
              rto_ms := if rto_ms c =? 0 then 120 else rto_ms c |} in
  {| cfg := c; snd_una := init_seq c; snd_nxt := init_seq c; rcv_nxt := init_seq c;
     tx := repeat tx_empty (Z.to_nat BB_MAX_WND);
     rx := repeat rx_empty (Z.to_nat BB_MAX_WND) |}.

(** The poll at the head of both loops of [bb_proto_send]: a datagram that
    parses has its ack consumed. *)
Definition poll_acks (s : sr_t) (rx : chan_rx) : sr_t :=
  if rx_rn rx >? 0 then
    match bb_wire_parse bld (rx_ibuf rx) with
    | Some (h, _) => consume_ack_any s h
    | None => s
    end
  else s.

(** The [for (q = s->snd_una; seq_cmp(s->snd_nxt, q) > 0; ++q)] scan that
    retransmits every in-flight segment whose timer has expired. *)
Fixpoint retransmit_scan (fuel : nat) (w : world) (s : sr_t) (q : Z) : sr_t * world :=
  match fuel with
  | O => (s, w)
  | S fuel' =>
      if seq_cmp (snd_nxt s) q >? 0 then
        let i := wrap_idx q (wnd (cfg s)) in
        let slot := tx_at s i in
        let '(s, w) :=
          if tx_inuse slot then
            let '(x, w) := bb_timer_expired e w (tx_timer slot) in
            if x then
              let '(_, w) := send_frame w s q (tx_buf slot) (tx_len slot) in
              let '(t, w) := bb_timer_arm e w (rto_ms (cfg s)) in
              (set_tx s i {| tx_buf := tx_buf slot; tx_len := tx_len slot;
                             tx_timer := t; tx_inuse := true |}, w)
            else (s, w)
          else (s, w) in
        retransmit_scan fuel' w s (u32 (q + 1))
      else (s, w)
  end.

Definition retransmit_expired (w : world) (s : sr_t) : sr_t * world :=
  retransmit_scan (Z.to_nat (seq_cmp (snd_nxt s) (snd_una s))) w s (snd_una s).

(** Where one round of a loop of [bb_proto_send] leaves the call. *)
Inductive round :=
| Continue (s : sr_t) (w : world) (off : Z)
| Return (r : Z) (s : sr_t) (w : world).

(** One round of [while (off < len)]; [rx] is what the non-blocking
    [bb_channel_recv] returns in this round. *)
Definition send_round (w : world) (s : sr_t) (data : list byte) (off : Z) (rx : chan_rx)
  : round :=
  let len := Z.of_nat (length data) in
  let s := poll_acks s rx in
  let '(s, w) := retransmit_expired w s in
  if u32 (snd_nxt s - snd_una s) >=? wnd (cfg s) then Continue s w off   (* nanosleep; continue *)
  else
    let chunk := if len - off >? mss (cfg s) then mss (cfg s) else len - off in
    let '(r, w) := send_frame w s (snd_nxt s) (skipn (Z.to_nat off) data) chunk in
    if r <? 0 then Return (-1) s w
    else
      let i := wrap_idx (snd_nxt s) (wnd (cfg s)) in
      let '(t, w) := bb_timer_arm e w (rto_ms (cfg s)) in
      let s := set_tx s i
                 {| tx_buf := firstn (Z.to_nat chunk) (skipn (Z.to_nat off) data);
                    tx_len := u16 chunk; tx_timer := t; tx_inuse := true |} in
      Continue (set_snd_nxt s (u32 (snd_nxt s + 1))) w (off + chunk).

(** One round of the drain loop [while (seq_cmp(s->snd_una, s->snd_nxt) < 0)];
    [rx] is what [bb_channel_recv(.., rto_ms)] returns in this round. *)
Definition drain_round (w : world) (s : sr_t) (rx : chan_rx) : sr_t * world :=
  retransmit_expired w (poll_acks s rx).

(** A call of [bb_proto_send] against the channel answers [rxs], one per
    round: either it returns, or it is still looping when the answers
    run out. *)
Inductive outcome :=
| Returned (r : Z) (s : sr_t) (w : world)
| Looping (s : sr_t) (w : world) (off : Z).

Fixpoint send_from (rxs : list chan_rx) (w : world) (s : sr_t) (data : list byte) (off : Z)
  : outcome :=
  if off <? Z.of_nat (length data) then
    match rxs with
    | [] => Looping s w off
    | rx :: rest =>
        match send_round w s data off rx with
        | Continue s w off => send_from rest w s data off
        | Return r s w => Returned r s w
        end
    end
  else if seq_cmp (snd_una s) (snd_nxt s) <? 0 then
    match rxs with
    | [] => Looping s w off
    | rx :: rest => let '(s, w) := drain_round w s rx in send_from rest w s data off
    end
  else Returned 0 s w.

Definition bb_proto_send (rxs : list chan_rx) (w : world) (s : sr_t) (data : list byte)
  : outcome := send_from rxs w s data 0.

(** The [while (s->rx.present[wrap_idx(s->rcv_nxt, W)])] loop of
    [bb_proto_recv]: every round clears one of the [BB_MAX_WND] flags. *)
Fixpoint drain_buffered (fuel : nat) (s : sr_t) : sr_t :=
  match fuel with
  | O => s
  | S fuel' =>
      let j := wrap_idx (rcv_nxt s) (wnd (cfg s)) in
      if rx_present (rx_at s j) then
        let s := set_rx s j {| rx_buf := []; rx_len := rx_len (rx_at s j);
                               rx_present := false |} in
        drain_buffered fuel' (set_rcv_nxt s (u32 (rcv_nxt s + 1)))
      else s
  end.

(** [bb_proto_recv]: the return value, the bytes copied to [out], the
    engine and the world afterwards. *)
Definition bb_proto_recv (w : world) (s : sr_t) (cap : Z) (got : chan_rx)
  : Z * list byte * sr_t * world :=
  let W := wnd (cfg s) in
  let rn := rx_rn got in
  if rn <=? 0 then (rn, [], s, w)
  else
    match bb_wire_parse bld (rx_ibuf got) with
    | None => (0, [], s, w)
    | Some (h, pl) =>
        let s := consume_ack_any s h in
        if Z.land (flags h) BB_FLAG_DATA =? 0 then (0, [], s, w)
        else if seq_cmp (seq h) (u32 (rcv_nxt s + W)) >=? 0 then (0, [], s, send_ack w s)
        else if seq_cmp (seq h) (rcv_nxt s) <? 0 then (0, [], s, send_ack w s)
        else
          let i := wrap_idx (seq h) W in
          let s :=
            if rx_present (rx_at s i) then s
            else set_rx s i {| rx_buf := firstn (Z.to_nat (len h)) pl;
                               rx_len := len h; rx_present := true |} in
          if seq h =? rcv_nxt s then
            let n := rx_len (rx_at s i) in
            let n := if n >? cap then cap else n in
            let out := firstn (Z.to_nat n) (rx_buf (rx_at s i)) in
            let s := set_rx s i {| rx_buf := []; rx_len := rx_len (rx_at s i);
                                   rx_present := false |} in
            let s := set_rcv_nxt s (u32 (rcv_nxt s + 1)) in
            let s := drain_buffered (length (rx s)) s in
            (n, out, s, send_ack w s)
          else (0, [], s, send_ack w s)
    end.

End Engine.

End Sr.

(** ** src/bb_channel.c, include/bb_channel.h *)

Module Channel.

(** *** Doubles *)

(** [(double)z] for an integer below 2^53: exact. *)
Definition double_of_Z (z : Z) : float := PrimFloat.of_uint63 (Uint63.of_Z z).

(** [(uint64_t)f]: truncation toward zero.  Where C leaves the conversion
    undefined (NaN, infinities, values below -1 or from 2^64 on) the model
    answers 0, respectively the value wrapped to 64 bits. *)
Definition double_to_u64 (f : float) : Z :=
  match Prim2SF f with
  | S754_finite false m ex =>
      u64 (if 0 <=? ex then Z.pos m * 2 ^ ex else Z.pos m / 2 ^ (- ex))
  | _ => 0
  end.

(** [fmax(0.0, x)]: a NaN argument yields the other one. *)
Definition fmax0 (x : float) : float :=
  if PrimFloat.ltb 0%float x then x else 0%float.

(** *** State *)

Record bb_channel_cfg_t := {
  loss_pct : float;
  dup_pct : float;
  reorder_pct : float;
  delay_mean_ms : float;
  delay_jitter_ms : float;
  rate_mbps : float;
  seed : Z                  (* uint64_t *)
}.

(** [bb_frame_t] without its [next] link: the queue is a list, head first. *)
Record bb_frame_t := {
  n : Z;                    (* size_t *)
  buf : list byte;
  ready_ts : Z              (* uint64_t *)
}.

(** [struct bb_channel_s] without the socket handle and the peer address,
    which belong to the environment. *)
Record bb_channel_t := {
  cfg : bb_channel_cfg_t;
  now : Z;
  token_ns_per_byte : Z;
  next_tx_ts : Z;
  q : list bb_frame_t;
  rng : Z
}.

(** What [sendto] answers. *)
Inductive sendto_result :=
| Sent (s : Z)          (* s >= 0 *)
| WouldBlock            (* s < 0, errno EAGAIN or EWOULDBLOCK *)
| SocketError.          (* s < 0, any other errno *)

(** The clock and the socket as the channel sees them. *)
Record sock_env := {
  clock : nat -> Z;                   (* the k-th bb_now_ns() *)
  sendto : nat -> sendto_result       (* the k-th sendto() *)
}.

Record sock_world := {
  reads : nat;
  calls : nat;
  sent : list (list byte)             (* datagrams put on the wire, oldest first *)
}.

Definition sock_world0 : sock_world := {| reads := 0; calls := 0; sent := [] |}.

(** *** The generator *)

(** [x ^= x<<13; x ^= x>>7; x ^= x<<17; return *s = x;] on [uint64_t]:
    the new state, which is also the value returned. *)
Definition xorshift64 (s : Z) : Z :=
  let x := s in
  let x := Z.lxor x (u64 (Z.shiftl x 13)) in
  let x := Z.lxor x (Z.shiftr x 7) in
  let x := Z.lxor x (u64 (Z.shiftl x 17)) in
  x.

(** [(xorshift64(s) >> 11) * (1.0/9007199254740992.0)] and the new state. *)
Definition frand01 (s : Z) : float * Z :=
  let x := xorshift64 s in
  (PrimFloat.mul (double_of_Z (Z.shiftr x 11))
                 (PrimFloat.div 1%float 9007199254740992%float), x).

Definition ms2ns (ms : float) : Z := double_to_u64 (PrimFloat.mul ms 1000000%float).

(** [frand01(rng) < (pct/100.0)] and the new state. *)
Definition decide (pct : float) (rng : Z) : bool * Z :=
  let '(u, rng) := frand01 rng in
  (PrimFloat.ltb u (PrimFloat.div pct 100%float), rng).

Definition bb_channel_create (c : bb_channel_cfg_t) : bb_channel_t :=
  {| cfg := c;
     now := 0;
     token_ns_per_byte :=
       if PrimFloat.ltb 0%float (rate_mbps c)
       then double_to_u64 (PrimFloat.mul (PrimFloat.div 8%float (rate_mbps c)) 1000%float)
       else 0;
     next_tx_ts := 0;
     q := [];
     rng := if seed c =? 0 then 0xC0FFEE1234 else seed c |}.

(** [jittered_delay_ns] and the new generator state. *)
Definition jittered_delay_ns (c : bb_channel_cfg_t) (rng : Z) : Z * Z :=
  let base := delay_mean_ms c in
  let '(u, rng) := frand01 rng in
  let jitter :=
    PrimFloat.mul (PrimFloat.sub (PrimFloat.mul u 2%float) 1%float) (delay_jitter_ms c) in
  let ms := fmax0 (PrimFloat.add base jitter) in
  (ms2ns ms, rng).

Definition enqueue_out (queue : list bb_frame_t) (b : list byte) (len ready : Z)
  : list bb_frame_t :=
  queue ++ [{| n := len; buf := firstn (Z.to_nat len) b; ready_ts := ready |}].

(** [maybe_reorder]: the generator is consulted only when two frames are
    queued. *)
Definition maybe_reorder (c : bb_channel_cfg_t) (queue : list bb_frame_t) (rng : Z)
  : list bb_frame_t * Z :=
  match queue with
  | a :: b :: rest =>
      let '(yes, rng) := decide (reorder_pct c) rng in
      if yes then (b :: a :: rest, rng) else (queue, rng)
  | _ => (queue, rng)
  end.

(** *** Loops *)

(** A [for (;;)] loop known to leave after at most [fuel] rounds: [body]
    answers [inl] to break and [inr] to go round again.  The fuel is a
    binary number, halved structurally, so a bound of 150 million rounds
    costs nothing when the loop leaves early. *)
Fixpoint rounds {St : Type} (fuel : positive) (body : St -> St + St) (st : St) : St + St :=
  match fuel with
  | xH => body st
  | xO p =>
      match rounds p body st with
      | inl done => inl done
      | inr st => rounds p body st
      end
  | xI p =>
      match body st with
      | inl done => inl done
      | inr st =>
          match rounds p body st with
          | inl done => inl done
          | inr st => rounds p body st
          end
      end
  end.

Definition leave {St : Type} (r : St + St) : St :=
  match r with inl st => st | inr st => st end.

Section Send.

Variable e : sock_env.

Definition read_clock (w : sock_world) : Z * sock_world :=
  (clock e (reads w), {| reads := S (reads w); calls := calls w; sent := sent w |}).

Definition call_sendto (w : sock_world) (b : list byte) : sendto_result * sock_world :=
  (sendto e (calls w),
   {| reads := reads w; calls := S (calls w);
      sent := match sendto e (calls w) with
              | Sent _ => sent w ++ [b]
              | _ => sent w
              end |}).

(** The bounded wait for the head frame: the state of the loop is the
    channel clock [ch->now], the time waited so far, and the world. *)
Definition wait_body (head_ready : Z) (st : Z * Z * sock_world) : (Z * Z * sock_world) + (Z * Z * sock_world) :=
  let '(_, waited, w) := st in
  let '(t, w) := read_clock w in
  if head_ready <=? t then inl (t, waited, w)
  else
    let remain := head_ready - t in
    if waited >=? ms2ns 150%float then inl (t, waited, w)
    else
      let remain := if remain >? ms2ns 5%float then ms2ns 5%float else remain in
      inr (t, u64 (waited + remain), w).      (* nanosleep(remain) *)

Definition wait_head (ch : bb_channel_t) (w : sock_world) : bb_channel_t * sock_world :=
  match q ch with
  | [] => (ch, w)
  | f :: _ =>
      let '(t, _, w) :=
        leave (rounds (Z.to_pos (ms2ns 150%float + 1)) (wait_body (ready_ts f)) (now ch, 0, w)) in
      ({| cfg := cfg ch; now := t; token_ns_per_byte := token_ns_per_byte ch;
          next_tx_ts := next_tx_ts ch; q := q ch; rng := rng ch |}, w)
  end.

(** How the drain loop ends: by [break] with the total sent, or by
    [return -1]. *)
Inductive drained :=
| Broke (sent_total : Z) (ch : bb_channel_t) (w : sock_world)
| Failed (ch : bb_channel_t) (w : sock_world).

(** The drain loop: every round that does not leave pops one frame. *)
Fixpoint drain (fuel : nat) (ch : bb_channel_t) (w : sock_world) (sent_total : Z) : drained :=
  match fuel, q ch with
  | O, _ => Broke sent_total ch w
  | _, [] => Broke sent_total ch w
  | S fuel', f :: rest =>
      let '(t, w) := read_clock w in
      let ch := {| cfg := cfg ch; now := t; token_ns_per_byte := token_ns_per_byte ch;
                   next_tx_ts := next_tx_ts ch; q := q ch; rng := rng ch |} in
      if ready_ts f >? t then Broke sent_total ch w
      else if negb (token_ns_per_byte ch =? 0) && (t <? next_tx_ts ch)
      then Broke sent_total ch w
      else
        let ch :=
          if token_ns_per_byte ch =? 0 then ch
          else {| cfg := cfg ch; now := t; token_ns_per_byte := token_ns_per_byte ch;
                  next_tx_ts := u64 (t + u64 (token_ns_per_byte ch * n f));
                  q := q ch; rng := rng ch |} in
        let '(r, w) := call_sendto w (buf f) in
        match r with
        | WouldBlock => Broke sent_total ch w
        | SocketError => Failed ch w
        | Sent _ =>
            drain fuel'
              {| cfg := cfg ch; now := now ch; token_ns_per_byte := token_ns_per_byte ch;
                 next_tx_ts := next_tx_ts ch; q := rest; rng := rng ch |}
              w (sent_total + n f)
        end
  end.

(** [bb_channel_send(ch, buf, n)] with [n] the length of [b]. *)
Definition bb_channel_send (w : sock_world) (ch : bb_channel_t) (b : list byte)
  : Z * bb_channel_t * sock_world :=
  let len := Z.of_nat (length b) in
  let '(t, w) := read_clock w in
  let '(lost, rng1) := decide (loss_pct (cfg ch)) (rng ch) in
  if lost then
    (len, {| cfg := cfg ch; now := t; token_ns_per_byte := token_ns_per_byte ch;
             next_tx_ts := next_tx_ts ch; q := q ch; rng := rng1 |}, w)
  else
    let '(delay, rng2) := jittered_delay_ns (cfg ch) rng1 in
    let ready := u64 (t + delay) in
    let queue := enqueue_out (q ch) b len ready in
    let '(dup, rng3) := decide (dup_pct (cfg ch)) rng2 in
    let queue :=
      if dup then enqueue_out queue b len (u64 (ready + ms2ns 1%float)) else queue in
    let '(queue, rng4) := maybe_reorder (cfg ch) queue rng3 in
    let ch := {| cfg := cfg ch; now := t; token_ns_per_byte := token_ns_per_byte ch;
                 next_tx_ts := next_tx_ts ch; q := queue; rng := rng4 |} in
    let '(ch, w) := wait_head ch w in
    match drain (length (q ch)) ch w 0 with
    | Failed ch w => (-1, ch, w)
    | Broke sent_total ch w => ((if sent_total >? 0 then sent_total else len), ch, w)
    end.

End Send.

End Channel.
(** * Properties *)

Import Checksum Wire.

(** ** Frame codec: layout lemmas *)

Section WireLayout.

Lemma le_split_small (n : nat) (z : Z) :
  0 <= z < 2 ^ (Z.of_nat n * 8) -> le_combine (le_split n z) = z.
Proof. intros H. rewrite le_combine_split. apply Z.mod_small; exact H. Qed.

Lemma hdr_bytes_length (h : bb_hdr_t) : length (hdr_bytes h) = 18%nat.
Proof. reflexivity. Qed.

Definition hdr_wf (h : bb_hdr_t) : Prop :=
  0 <= magic h < 2 ^ 16 /\ 0 <= flags h < 2 ^ 8 /\ 0 <= hdrlen h < 2 ^ 8 /\
  0 <= seq h < 2 ^ 32 /\ 0 <= ack h < 2 ^ 32 /\ 0 <= len h < 2 ^ 16 /\
  0 <= crc32c h < 2 ^ 32.

Lemma hdr_of_hdr_bytes (h : bb_hdr_t) (rest : list byte) :
  hdr_wf h -> hdr_of_bytes (hdr_bytes h ++ rest) = h.
Proof.
  destruct h as [m f hl s a l c]. unfold hdr_wf, hdr_of_bytes, hdr_bytes.
  cbn [Wire.magic Wire.flags Wire.hdrlen Wire.seq Wire.ack Wire.len Wire.crc32c].
  intros (Hm & Hf & Hhl & Hs & Ha & Hl & Hc).
  cbv [le_split app firstn skipn].
  change [byte.of_Z m; byte.of_Z (Z.shiftr m 8)] with (le_split 2 m).
  change [byte.of_Z f] with (le_split 1 f).
  change [byte.of_Z hl] with (le_split 1 hl).
  change [byte.of_Z s; byte.of_Z (Z.shiftr s 8); byte.of_Z (Z.shiftr (Z.shiftr s 8) 8);
          byte.of_Z (Z.shiftr (Z.shiftr (Z.shiftr s 8) 8) 8)] with (le_split 4 s).
  change [byte.of_Z a; byte.of_Z (Z.shiftr a 8); byte.of_Z (Z.shiftr (Z.shiftr a 8) 8);
          byte.of_Z (Z.shiftr (Z.shiftr (Z.shiftr a 8) 8) 8)] with (le_split 4 a).
  change [byte.of_Z l; byte.of_Z (Z.shiftr l 8)] with (le_split 2 l).
  change [byte.of_Z c; byte.of_Z (Z.shiftr c 8); byte.of_Z (Z.shiftr (Z.shiftr c 8) 8);
          byte.of_Z (Z.shiftr (Z.shiftr (Z.shiftr c 8) 8) 8)] with (le_split 4 c).
  rewrite !le_split_small by (simpl; assumption). reflexivity.
Qed.

Definition with_crc (h : bb_hdr_t) (c : Z) : bb_hdr_t :=
  {| magic := magic h; flags := flags h; hdrlen := hdrlen h; seq := seq h;
     ack := ack h; len := len h; crc32c := c |}.

Lemma set_crc_hdr_bytes (h : bb_hdr_t) (rest : list byte) (c : Z) :
  set_crc (hdr_bytes h ++ rest) c = hdr_bytes (with_crc h c) ++ rest.
Proof. reflexivity. Qed.

Lemma get_crc_hdr_bytes (h : bb_hdr_t) (rest : list byte) :
  0 <= crc32c h < 2 ^ 32 -> get_crc (hdr_bytes h ++ rest) = crc32c h.
Proof.
  intros Hc. unfold get_crc, hdr_bytes. cbv [le_split app firstn skipn].
  apply (le_split_small 4). exact Hc.
Qed.

Lemma skipn_hdr_bytes (h : bb_hdr_t) (rest : list byte) :
  skipn 18 (hdr_bytes h ++ rest) = rest.
Proof. reflexivity. Qed.

End WireLayout.

(** ** Checksums: ranges and error detection *)

Section BitFacts.

Lemma lxor_range (n a b : Z) :
  0 <= n -> 0 <= a < 2 ^ n -> 0 <= b < 2 ^ n -> 0 <= Z.lxor a b < 2 ^ n.
Proof.
  intros Hn Ha Hb. split; [apply Z.lxor_nonneg; lia|].
  destruct (Z.eq_dec (Z.lxor a b) 0) as [E|E]; [rewrite E; lia|].
  assert (0 <= Z.lxor a b) by (apply Z.lxor_nonneg; lia).
  assert (0 < n).
  { destruct (Z.eq_dec n 0) as [->|]; [|lia].
    assert (a = 0) by (simpl in Ha; lia). assert (b = 0) by (simpl in Hb; lia).
    subst. simpl in E. congruence. }
  apply Z.log2_lt_pow2; [lia|].
  eapply Z.le_lt_trans; [apply Z.log2_lxor; lia|].
  apply Z.max_lub_lt.
  - destruct (Z.eq_dec a 0) as [->|]; [simpl; lia|apply Z.log2_lt_pow2; lia].
  - destruct (Z.eq_dec b 0) as [->|]; [simpl; lia|apply Z.log2_lt_pow2; lia].
Qed.

Lemma lor_range (n a b : Z) :
  0 <= n -> 0 <= a < 2 ^ n -> 0 <= b < 2 ^ n -> 0 <= Z.lor a b < 2 ^ n.
Proof.
  intros Hn Ha Hb. split; [apply Z.lor_nonneg; lia|].
  destruct (Z.eq_dec (Z.lor a b) 0) as [E|E]; [rewrite E; lia|].
  assert (0 <= Z.lor a b) by (apply Z.lor_nonneg; lia).
  assert (0 < n).
  { destruct (Z.eq_dec n 0) as [->|]; [|lia].
    assert (a = 0) by (simpl in Ha; lia). assert (b = 0) by (simpl in Hb; lia).
    subst. simpl in E. congruence. }
  apply Z.log2_lt_pow2; [lia|].
  rewrite Z.log2_lor by lia.
  apply Z.max_lub_lt.
  - destruct (Z.eq_dec a 0) as [->|]; [simpl; lia|apply Z.log2_lt_pow2; lia].
  - destruct (Z.eq_dec b 0) as [->|]; [simpl; lia|apply Z.log2_lt_pow2; lia].
Qed.

Lemma lxor_cancel_r (a b c : Z) : Z.lxor a c = Z.lxor b c -> a = b.
Proof.
  intros H.
  rewrite <- (Z.lxor_0_r a), <- (Z.lxor_0_r b), <- (Z.lxor_nilpotent c).
  rewrite <- !Z.lxor_assoc. now rewrite H.
Qed.

Lemma lxor_cancel_l (a b c : Z) : Z.lxor c a = Z.lxor c b -> a = b.
Proof. rewrite !(Z.lxor_comm c). apply lxor_cancel_r. Qed.

End BitFacts.

Section Crc32cFacts.

Lemma crc_shift_range (x : Z) : 0 <= x < 2 ^ 32 -> 0 <= crc_shift x < 2 ^ 32.
Proof.
  intros Hx. unfold crc_shift. apply lxor_range; [lia| |].
  - rewrite Z.shiftr_div_pow2 by lia. change (2 ^ 1) with 2.
    split; [apply Z.div_pos; lia|]. apply Z.div_lt_upper_bound; lia.
  - destruct (Z.odd x); unfold crc32c_poly_reflected; lia.
Qed.

Lemma crc_shift_top_bit (x : Z) :
  0 <= x < 2 ^ 32 -> Z.testbit (crc_shift x) 31 = Z.odd x.
Proof.
  intros Hx. unfold crc_shift. rewrite Z.lxor_spec.
  rewrite Z.shiftr_spec by lia. change (31 + 1) with 32.
  rewrite (prove_Zeq_bitwise.testbit_above (p := 32)) by lia.
  destruct (Z.odd x); reflexivity.
Qed.

Lemma crc_shift_inj (x y : Z) :
  0 <= x < 2 ^ 32 -> 0 <= y < 2 ^ 32 -> crc_shift x = crc_shift y -> x = y.
Proof.
  intros Hx Hy E.
  assert (Ho : Z.odd x = Z.odd y).
  { rewrite <- (crc_shift_top_bit x Hx), <- (crc_shift_top_bit y Hy). now rewrite E. }
  unfold crc_shift in E. rewrite Ho in E. apply lxor_cancel_r in E.
  rewrite <- !Z.div2_spec in E.
  rewrite (Z.div2_odd x), (Z.div2_odd y), E, Ho. reflexivity.
Qed.

Lemma crc_iter_range (k : nat) (x : Z) :
  0 <= x < 2 ^ 32 -> 0 <= Nat.iter k crc_shift x < 2 ^ 32.
Proof. induction k; intros Hx; simpl; [exact Hx|]. apply crc_shift_range; auto. Qed.

Lemma crc_iter_inj (k : nat) (x y : Z) :
  0 <= x < 2 ^ 32 -> 0 <= y < 2 ^ 32 ->
  Nat.iter k crc_shift x = Nat.iter k crc_shift y -> x = y.
Proof.
  induction k; intros Hx Hy E; simpl in E; [exact E|].
  apply IHk; try assumption.
  apply crc_shift_inj; try apply crc_iter_range; assumption.
Qed.

Lemma byte_in_u32 (b : byte) : 0 <= byte.unsigned b < 2 ^ 32.
Proof. pose proof (byte.unsigned_range b). lia. Qed.

Lemma crc32qi_unfold (crc : Z) (b : byte) :
  crc32qi crc b = Nat.iter 8 crc_shift (Z.lxor crc (byte.unsigned b)).
Proof. reflexivity. Qed.

Lemma crc32qi_range (crc : Z) (b : byte) :
  0 <= crc < 2 ^ 32 -> 0 <= crc32qi crc b < 2 ^ 32.
Proof.
  intros Hc. rewrite crc32qi_unfold. apply crc_iter_range.
  apply lxor_range; [lia|exact Hc|apply byte_in_u32].
Qed.

Lemma crc32qi_inj_state (c c' : Z) (b : byte) :
  0 <= c < 2 ^ 32 -> 0 <= c' < 2 ^ 32 -> crc32qi c b = crc32qi c' b -> c = c'.
Proof.
  intros Hc Hc' E. rewrite !crc32qi_unfold in E.
  pose proof (lxor_range 32 c (byte.unsigned b) ltac:(lia) Hc (byte_in_u32 b)) as H1.
  pose proof (lxor_range 32 c' (byte.unsigned b) ltac:(lia) Hc' (byte_in_u32 b)) as H2.
  pose proof (crc_iter_inj 8 _ _ H1 H2 E) as E'.
  exact (lxor_cancel_r _ _ _ E').
Qed.

Lemma crc32qi_inj_byte (c : Z) (b b' : byte) :
  0 <= c < 2 ^ 32 -> crc32qi c b = crc32qi c b' -> b = b'.
Proof.
  intros Hc E. rewrite !crc32qi_unfold in E.
  pose proof (lxor_range 32 c (byte.unsigned b) ltac:(lia) Hc (byte_in_u32 b)) as H1.
  pose proof (lxor_range 32 c (byte.unsigned b') ltac:(lia) Hc (byte_in_u32 b')) as H2.
  pose proof (crc_iter_inj 8 _ _ H1 H2 E) as E'.
  apply byte.unsigned_inj. exact (lxor_cancel_l _ _ _ E').
Qed.

(** A byte-wise accumulator whose step keeps a range and is injective in
    the state is injective over a whole buffer. *)
Section Accumulate.
Variable step : Z -> byte -> Z.
Variable ok : Z -> Prop.
Hypothesis step_ok : forall c b, ok c -> ok (step c b).
Hypothesis step_inj : forall c c' b, ok c -> ok c' -> step c b = step c' b -> c = c'.

Lemma fold_left_cons_eq (b : byte) (data : list byte) (c : Z) :
  fold_left step (b :: data) c = fold_left step data (step c b).
Proof. reflexivity. Qed.

Lemma fold_ok (data : list byte) (c : Z) : ok c -> ok (fold_left step data c).
Proof.
  revert c. induction data as [|b data IH]; intros c Hc; [exact Hc|].
  rewrite fold_left_cons_eq. apply IH, step_ok, Hc.
Qed.

Lemma fold_inj (data : list byte) (c c' : Z) :
  ok c -> ok c' -> fold_left step data c = fold_left step data c' -> c = c'.
Proof.
  revert c c'. induction data as [|b data IH]; intros c c' Hc Hc' E; [exact E|].
  rewrite !fold_left_cons_eq in E.
  apply IH in E; try (apply step_ok; assumption).
  eapply step_inj; eassumption.
Qed.
End Accumulate.

Definition in_u32 (z : Z) : Prop := 0 <= z < 2 ^ 32.

Lemma crc_fold_range (data : list byte) (c : Z) :
  in_u32 c -> in_u32 (fold_left crc32qi data c).
Proof. apply fold_ok. exact crc32qi_range. Qed.

Lemma crc_fold_inj (data : list byte) (c c' : Z) :
  in_u32 c -> in_u32 c' ->
  fold_left crc32qi data c = fold_left crc32qi data c' -> c = c'.
Proof. apply fold_inj; [exact crc32qi_range|exact crc32qi_inj_state]. Qed.

Lemma crc32c_hw_unfold (bld : build) (data : list byte) :
  crc32c_backend bld ->
  bb_crc32c_hw bld data = Z.lxor (fold_left crc32qi data 0xffffffff) 0xffffffff.
Proof.
  intros [Hav Hin]. unfold bb_crc32c_hw.
  unfold bb_crc32c_hw_available in Hav. rewrite Hav, Hin.
  unfold have_sse42 in Hav. apply andb_prop in Hav as [Hx _]. rewrite Hx.
  reflexivity.
Qed.

(** CRC32C tells apart two buffers that differ in one byte. *)
Lemma crc32c_detects_byte (bld : build) (p s : list byte) (b b' : byte) :
  crc32c_backend bld -> b <> b' ->
  bb_crc32c_hw bld (p ++ b :: s) <> bb_crc32c_hw bld (p ++ b' :: s).
Proof.
  intros Hbk Hne E. rewrite !(crc32c_hw_unfold bld _ Hbk) in E.
  apply lxor_cancel_r in E.
  rewrite !fold_left_app, !fold_left_cons_eq in E.
  assert (H0 : in_u32 4294967295) by (unfold in_u32; lia).
  pose proof (crc_fold_range p _ H0) as Hp.
  apply crc_fold_inj in E; try (apply crc32qi_range; exact Hp).
  apply crc32qi_inj_byte in E; [contradiction|exact Hp].
Qed.

Lemma crc32c_hw_range (bld : build) (data : list byte) :
  0 <= bb_crc32c_hw bld data < 2 ^ 32.
Proof.
  unfold bb_crc32c_hw.
  destruct (x86_64 bld); [|lia]. destruct (negb (have_sse42 bld)); [lia|].
  destruct (sse42_intrinsics bld); [|lia].
  apply lxor_range; [lia| |lia]. apply crc_fold_range. unfold in_u32; lia.
Qed.

End Crc32cFacts.

Section FletcherFacts.

Definition byte_sum (data : list byte) : Z :=
  fold_right (fun b acc => byte.unsigned b + acc) 0 data.

Lemma byte_sum_app (p s : list byte) : byte_sum (p ++ s) = byte_sum p + byte_sum s.
Proof. induction p as [|b p IH]; simpl; [reflexivity|]. rewrite IH. lia. Qed.

Lemma byte_sum_bound (data : list byte) :
  0 <= byte_sum data <= 255 * Z.of_nat (length data).
Proof.
  induction data as [|b data IH]; [simpl; lia|].
  pose proof (byte.unsigned_range b).
  cbn [byte_sum fold_right length]. fold (byte_sum data). lia.
Qed.

Lemma fold16_spec (x : Z) : fold16 x = x mod 65536 + x / 65536.
Proof.
  unfold fold16. change 65535 with (Z.ones 16).
  rewrite Z.land_ones, Z.shiftr_div_pow2 by lia. reflexivity.
Qed.

Lemma fold16_bound (x : Z) : 0 <= x < 2 ^ 32 -> 0 <= fold16 x <= 131070.
Proof.
  intros Hx. rewrite fold16_spec.
  pose proof (Z.mod_pos_bound x 65536 ltac:(lia)).
  assert (0 <= x / 65536 < 65536).
  { split; [apply Z.div_pos; lia|apply Z.div_lt_upper_bound; lia]. }
  lia.
Qed.

Lemma fold16_pos (x : Z) : 1 <= x -> 1 <= fold16 x.
Proof.
  intros Hx. rewrite fold16_spec.
  pose proof (Z.mod_pos_bound x 65536 ltac:(lia)).
  pose proof (Z.div_mod x 65536 ltac:(lia)).
  assert (0 <= x / 65536) by (apply Z.div_pos; lia).
  lia.
Qed.

Lemma fold16_cong (x : Z) : fold16 x mod 65535 = x mod 65535.
Proof.
  rewrite fold16_spec.
  rewrite (Z.div_mod x 65536) at 3 by lia.
  replace (65536 * (x / 65536) + x mod 65536)
    with (x mod 65536 + x / 65536 + (x / 65536) * 65535) by lia.
  now rewrite Z.mod_add by lia.
Qed.

Lemma fold16_final (x : Z) : 1 <= x <= 131070 -> 1 <= fold16 x <= 65535.
Proof.
  intros Hx. split; [apply fold16_pos; lia|].
  rewrite fold16_spec.
  pose proof (Z.mod_pos_bound x 65536 ltac:(lia)).
  pose proof (Z.div_mod x 65536 ltac:(lia)).
  assert (0 <= x / 65536 <= 1).
  { split; [apply Z.div_pos; lia|]. apply Z.lt_succ_r, Z.div_lt_upper_bound; lia. }
  lia.
Qed.

Lemma u32_range (z : Z) : 0 <= u32 z < 2 ^ 32.
Proof. apply Z.mod_pos_bound. lia. Qed.

Lemma u32_small (z : Z) : 0 <= z < 2 ^ 32 -> u32 z = z.
Proof. apply Z.mod_small. Qed.

(** Within one block [sum1] is an exact sum: it cannot wrap. *)
Lemma fletcher_block_sum1 (data : list byte) (sum1 sum2 : Z) :
  0 <= sum1 -> sum1 + 255 * Z.of_nat (length data) < 2 ^ 32 ->
  fst (fletcher_block data sum1 sum2) = sum1 + byte_sum data.
Proof.
  revert sum1 sum2. induction data as [|b data IH]; intros s1 s2 H0 Hb.
  - simpl. lia.
  - pose proof (byte.unsigned_range b).
    cbn [fletcher_block byte_sum fold_right]. fold (byte_sum data).
    cbn [length] in Hb. rewrite Nat2Z.inj_succ in Hb.
    rewrite (u32_small (s1 + byte.unsigned b)) by lia.
    rewrite IH by lia. lia.
Qed.

Lemma fletcher_block_sum2 (data : list byte) (sum1 sum2 : Z) :
  0 <= sum2 < 2 ^ 32 -> 0 <= snd (fletcher_block data sum1 sum2) < 2 ^ 32.
Proof.
  revert sum1 sum2. induction data as [|b data IH]; intros s1 s2 H2; [exact H2|].
  cbn [fletcher_block]. apply IH, u32_range.
Qed.

(** Loop invariant of [bb_fletcher32]: at every loop head [sum1] is a
    non-zero representative of 0xffff + (bytes so far) modulo 65535. *)
Lemma fletcher_loop_inv (fuel : nat) :
  forall (data : list byte) (sum1 sum2 : Z),
    (length data <= fuel)%nat -> 1 <= sum1 <= 131070 -> 0 <= sum2 < 2 ^ 32 ->
    let r := fletcher_loop fuel data sum1 sum2 in
    1 <= fst r <= 131070 /\ 0 <= snd r < 2 ^ 32 /\
    fst r mod 65535 = (sum1 + byte_sum data) mod 65535.
Proof.
  induction fuel as [|fuel IH]; intros data s1 s2 Hlen H1 H2.
  - destruct data; [|simpl in Hlen; lia]. simpl. rewrite Z.add_0_r. auto.
  - destruct data as [|b data]; [simpl; rewrite Z.add_0_r; auto|].
    cbn [fletcher_loop].
    set (d := b :: data) in *. set (tlen := Nat.min 360 (length d)).
    assert (Ht : (1 <= tlen <= 360)%nat) by (subst tlen d; cbn [length]; lia).
    assert (Hfl : length (firstn tlen d) = tlen) by (apply firstn_length_le; subst tlen; lia).
    pose proof (fletcher_block_sum1 (firstn tlen d) s1 s2 ltac:(lia) ltac:(rewrite Hfl; lia)) as Hs1.
    pose proof (fletcher_block_sum2 (firstn tlen d) s1 s2 H2) as Hs2.
    pose proof (byte_sum_bound (firstn tlen d)) as Hbs. rewrite Hfl in Hbs.
    destruct (fletcher_block (firstn tlen d) s1 s2) as [a c]. cbn [fst snd] in Hs1, Hs2.
    assert (Hk : (length (skipn tlen d) <= fuel)%nat).
    { rewrite length_skipn. subst d. cbn [length] in *. lia. }
    assert (Ha : 1 <= fold16 a <= 131070).
    { split; [apply fold16_pos; lia|apply fold16_bound; lia]. }
    assert (Hc : 0 <= fold16 c < 2 ^ 32) by (pose proof (fold16_bound c Hs2); lia).
    destruct (IH (skipn tlen d) (fold16 a) (fold16 c) Hk Ha Hc) as (I1 & I2 & I3).
    split; [exact I1|]. split; [exact I2|].
    rewrite I3. rewrite <- (firstn_skipn tlen d) at 2. rewrite byte_sum_app.
    rewrite Z.add_mod, fold16_cong, <- Z.add_mod by lia.
    f_equal. lia.
Qed.

(** The fuel of [fletcher_loop] is never the reason it stops: any amount
    from [length data] on gives the same sums. *)
Lemma fletcher_loop_fuel (f1 : nat) :
  forall (f2 : nat) (data : list byte) (sum1 sum2 : Z),
    (length data <= f1)%nat -> (length data <= f2)%nat ->
    fletcher_loop f1 data sum1 sum2 = fletcher_loop f2 data sum1 sum2.
Proof.
  induction f1 as [|f1 IH]; intros f2 data s1 s2 H1 H2.
  - destruct data; [|simpl in H1; lia]. destruct f2; reflexivity.
  - destruct data as [|b data]; [destruct f2; reflexivity|].
    destruct f2 as [|f2]; [simpl in H2; lia|].
    cbn [fletcher_loop].
    destruct (fletcher_block _ s1 s2) as [a c].
    apply IH; rewrite length_skipn; cbn [length] in *; lia.
Qed.

Lemma lor_high_low (hi lo : Z) :
  0 <= lo < 65536 -> Z.lor (65536 * hi) lo = 65536 * hi + lo.
Proof.
  intros Hlo.
  assert (E : Z.land (65536 * hi) lo = 0).
  { apply Z.bits_inj'. intros i Hi. rewrite Z.land_spec, Z.bits_0.
    destruct (Z.lt_ge_cases i 16) as [Hlt|Hge].
    - rewrite (Z.mul_comm 65536). change 65536 with (2 ^ 16).
      rewrite Z.mul_pow2_bits_low by lia. reflexivity.
    - rewrite (prove_Zeq_bitwise.testbit_above (p := 16) (n := lo)) by (simpl; lia).
      apply andb_false_r. }
  rewrite <- (Z.lxor_lor _ _ E). symmetry. apply Z.add_nocarry_lxor, E.
Qed.

(** The low half of the result: the representative in [1, 65535] of the sum
    of all bytes modulo 65535. *)
Lemma fletcher32_low (data : list byte) :
  exists lo hi : Z,
    bb_fletcher32 data = 65536 * hi + lo /\ 0 <= hi < 65536 /\
    1 <= lo <= 65535 /\ lo mod 65535 = byte_sum data mod 65535.
Proof.
  unfold bb_fletcher32.
  destruct (fletcher_loop_inv (length data) data 65535 65535 (le_n _) ltac:(lia) ltac:(lia))
    as (I1 & I2 & I3).
  destruct (fletcher_loop (length data) data 65535 65535) as [a c]. cbn [fst snd] in *.
  exists (fold16 a), (fold16 c mod 65536).
  pose proof (fold16_final a I1) as Hlo.
  assert (Hsh : u32 (Z.shiftl (fold16 c) 16) = 65536 * (fold16 c mod 65536)).
  { unfold u32. rewrite Z.shiftl_mul_pow2 by lia.
    change (2 ^ 32) with (65536 * 65536). change (2 ^ 16) with 65536.
    rewrite (Z.mul_comm (fold16 c)). rewrite Zmult_mod_distr_l. reflexivity. }
  rewrite Hsh. split; [apply lor_high_low; lia|].
  split; [apply Z.mod_pos_bound; lia|]. split; [exact Hlo|].
  rewrite fold16_cong, I3. rewrite <- Z.add_mod_idemp_l by lia.
  reflexivity.
Qed.

Lemma fletcher32_range (data : list byte) : 0 <= bb_fletcher32 data < 2 ^ 32.
Proof. destruct (fletcher32_low data) as (lo & hi & -> & ? & ? & _). lia. Qed.

(** Fletcher-32 tells apart two buffers whose byte sums differ modulo 65535. *)
Lemma fletcher32_detects_sum (d d' : list byte) :
  (byte_sum d - byte_sum d') mod 65535 <> 0 -> bb_fletcher32 d <> bb_fletcher32 d'.
Proof.
  intros Hne E.
  destruct (fletcher32_low d) as (lo & hi & E1 & Hh & Hl & Hc).
  destruct (fletcher32_low d') as (lo' & hi' & E2 & Hh' & Hl' & Hc').
  assert (lo = lo') by lia. subst lo'.
  apply Hne. rewrite Zminus_mod, <- Hc, <- Hc', Z.sub_diag. reflexivity.
Qed.

End FletcherFacts.

(** ** Single-bit corruption of a buffer *)

Section BitFlips.

(** Bit [k] of one byte inverted. *)
Definition flip_byte (b : byte) (k : nat) : byte :=
  byte.xor b (byte.of_Z (Z.shiftl 1 (Z.of_nat k))).

(** Bit [i] of a buffer inverted, bits numbered from bit 0 of byte 0. *)
Fixpoint flip_bit (buf : list byte) (i : nat) : list byte :=
  match buf with
  | [] => []
  | b :: rest =>
      if (i <? 8)%nat then flip_byte b i :: rest else b :: flip_bit rest (i - 8)
  end.

Lemma land_pow2_clear (x k : Z) :
  0 <= k -> Z.testbit x k = false -> Z.land x (2 ^ k) = 0.
Proof.
  intros Hk Hb. apply Z.bits_inj'. intros i Hi.
  rewrite Z.land_spec, Z.bits_0, Z.pow2_bits_eqb by lia.
  destruct (Z.eqb_spec k i) as [->|]; [now rewrite Hb|apply andb_false_r].
Qed.

Lemma lxor_pow2_delta (x k : Z) :
  0 <= k -> Z.lxor x (2 ^ k) = x + 2 ^ k \/ Z.lxor x (2 ^ k) = x - 2 ^ k.
Proof.
  intros Hk. destruct (Z.testbit x k) eqn:Hb.
  - right. set (y := Z.lxor x (2 ^ k)).
    assert (Hy : Z.testbit y k = false).
    { subst y. rewrite Z.lxor_spec, Hb, Z.pow2_bits_eqb, Z.eqb_refl by lia. reflexivity. }
    pose proof (Z.add_nocarry_lxor y (2 ^ k) (land_pow2_clear y k Hk Hy)) as E.
    subst y. rewrite Z.lxor_assoc, Z.lxor_nilpotent, Z.lxor_0_r in E. lia.
  - left. symmetry. apply Z.add_nocarry_lxor, land_pow2_clear; assumption.
Qed.

Lemma flip_byte_delta (b : byte) (k : nat) :
  (k < 8)%nat ->
  byte.unsigned (flip_byte b k) = byte.unsigned b + 2 ^ Z.of_nat k \/
  byte.unsigned (flip_byte b k) = byte.unsigned b - 2 ^ Z.of_nat k.
Proof.
  intros Hk. unfold flip_byte, byte.xor.
  pose proof (byte.unsigned_range b) as Hb.
  assert (Hp : 0 <= 2 ^ Z.of_nat k < 2 ^ 8).
  { split; [apply Z.pow_nonneg; lia|apply Z.pow_lt_mono_r; lia]. }
  rewrite !byte.unsigned_of_Z. unfold byte.wrap.
  rewrite Z.shiftl_1_l. rewrite (Z.mod_small (2 ^ Z.of_nat k)) by exact Hp.
  rewrite Z.mod_small by (apply lxor_range; lia).
  apply lxor_pow2_delta. lia.
Qed.

Lemma flip_byte_neq (b : byte) (k : nat) : (k < 8)%nat -> flip_byte b k <> b.
Proof.
  intros Hk E. pose proof (flip_byte_delta b k Hk) as H. rewrite E in H.
  assert (0 < 2 ^ Z.of_nat k) by (apply Z.pow_pos_nonneg; lia). lia.
Qed.

Lemma flip_bit_length (buf : list byte) (i : nat) : length (flip_bit buf i) = length buf.
Proof.
  revert i. induction buf as [|b buf IH]; intros i; [reflexivity|].
  cbn [flip_bit]. destruct (i <? 8)%nat; cbn [length]; [reflexivity|]. now rewrite IH.
Qed.

Lemma flip_bit_split (buf : list byte) (i : nat) :
  (i < 8 * length buf)%nat ->
  exists (p s : list byte) (b : byte) (k : nat),
    (k < 8)%nat /\ buf = p ++ b :: s /\ flip_bit buf i = p ++ flip_byte b k :: s.
Proof.
  revert i. induction buf as [|b buf IH]; intros i Hi; [simpl in Hi; lia|].
  cbn [flip_bit]. destruct (Nat.ltb_spec i 8) as [Hlt|Hge].
  - exists [], buf, b, i. auto.
  - destruct (IH (i - 8)%nat) as (p & s & c & k & Hk & E1 & E2).
    { cbn [length] in Hi. lia. }
    exists (b :: p), s, c, k. split; [exact Hk|]. rewrite E2, E1 at 1. auto.
Qed.

(** Either real checksum tells a buffer from the same buffer with one bit
    inverted. *)
Lemma checksum_detects_flip (bld : build) (p s : list byte) (b : byte) (k : nat) :
  fletcher_backend bld \/ crc32c_backend bld -> (k < 8)%nat ->
  checksum bld (p ++ b :: s) <> checksum bld (p ++ flip_byte b k :: s).
Proof.
  intros [Hf|Hc] Hk; unfold checksum.
  - unfold fletcher_backend in Hf. rewrite Hf.
    apply fletcher32_detects_sum. rewrite !byte_sum_app.
    cbn [byte_sum fold_right]. fold (byte_sum s).
    assert (0 < 2 ^ Z.of_nat k <= 128).
    { split; [apply Z.pow_pos_nonneg; lia|].
      change 128 with (2 ^ 7). apply Z.pow_le_mono_r; lia. }
    destruct (flip_byte_delta b k Hk) as [E|E]; rewrite E.
    + replace (_ - _) with (- 2 ^ Z.of_nat k) by lia.
      intros Hm. apply Z.mod_divide in Hm; [|lia]. apply Z.divide_opp_r in Hm.
      apply Z.divide_pos_le in Hm; lia.
    + replace (_ - _) with (2 ^ Z.of_nat k) by lia.
      rewrite Z.mod_small; lia.
  - destruct Hc as [Hav Hin]. rewrite Hav.
    apply crc32c_detects_byte; [split; assumption|].
    intros E. symmetry in E. revert E. apply flip_byte_neq, Hk.
Qed.

Lemma checksum_range (bld : build) (data : list byte) : 0 <= checksum bld data < 2 ^ 32.
Proof.
  unfold checksum. destruct (bb_crc32c_hw_available bld);
    [apply crc32c_hw_range|apply fletcher32_range].
Qed.

End BitFlips.

(** ** Frame codec: what [bb_wire_parse] accepts *)

Section WireParse.

Variable bld : build.

(** A header serialised with its checksum computed the way [bb_wire_pack]
    does it: over the header with a zero checksum field, then the payload. *)
Definition seal (h : bb_hdr_t) (payload : list byte) : list byte :=
  let buf := hdr_bytes (with_crc h 0) ++ payload in
  set_crc buf (checksum bld buf).

Lemma seal_eq (h : bb_hdr_t) (payload : list byte) :
  seal h payload =
  hdr_bytes (with_crc h (checksum bld (hdr_bytes (with_crc h 0) ++ payload))) ++ payload.
Proof. reflexivity. Qed.

Lemma seal_length (h : bb_hdr_t) (payload : list byte) :
  Z.of_nat (length (seal h payload)) = 18 + Z.of_nat (length payload).
Proof. rewrite seal_eq, length_app, hdr_bytes_length. lia. Qed.

Lemma parse_unfold (buf : list byte) :
  bb_wire_parse bld buf =
  if Z.of_nat (length buf) <? sizeof_hdr then None
  else if negb (magic (hdr_of_bytes buf) =? BB_MAGIC) then None
  else if negb (get_crc buf =? checksum bld (set_crc buf 0)) then None
  else if Z.of_nat (length buf) <? sizeof_hdr + len (hdr_of_bytes buf) then None
  else Some (hdr_of_bytes buf, skipn 18 buf).
Proof. reflexivity. Qed.

Lemma with_crc_wf (h : bb_hdr_t) (c : Z) :
  hdr_wf h -> 0 <= c < 2 ^ 32 -> hdr_wf (with_crc h c).
Proof. unfold hdr_wf. destruct h; simpl. tauto. Qed.

Lemma with_crc_twice (h : bb_hdr_t) (c c' : Z) :
  with_crc (with_crc h c) c' = with_crc h c'.
Proof. reflexivity. Qed.

(** A sealed frame is accepted whatever its [hdrlen] field holds. *)
Lemma parse_seal (h : bb_hdr_t) (payload : list byte) :
  hdr_wf h -> magic h = BB_MAGIC -> len h <= Z.of_nat (length payload) ->
  bb_wire_parse bld (seal h payload) =
  Some (with_crc h (checksum bld (hdr_bytes (with_crc h 0) ++ payload)), payload).
Proof.
  intros Hwf Hm Hl.
  set (c := checksum bld (hdr_bytes (with_crc h 0) ++ payload)).
  assert (Hc : 0 <= c < 2 ^ 32) by apply checksum_range.
  assert (Hwf' : hdr_wf (with_crc h c)) by (apply with_crc_wf; assumption).
  rewrite parse_unfold, seal_length, seal_eq. fold c.
  rewrite hdr_of_hdr_bytes by exact Hwf'.
  rewrite get_crc_hdr_bytes by exact Hc.
  rewrite set_crc_hdr_bytes, with_crc_twice, skipn_hdr_bytes. fold c.
  change (magic (with_crc h c)) with (magic h).
  change (len (with_crc h c)) with (len h).
  change (crc32c (with_crc h c)) with c.
  rewrite Hm, !Z.eqb_refl. unfold sizeof_hdr. cbn [negb].
  destruct (Z.ltb_spec (18 + Z.of_nat (length payload)) 18); [lia|].
  destruct (Z.ltb_spec (18 + Z.of_nat (length payload)) (18 + len h)); [lia|].
  reflexivity.
Qed.

Definition pack_hdr (flags seq ack len : Z) : bb_hdr_t :=
  {| magic := BB_MAGIC; flags := flags; hdrlen := 10; seq := seq; ack := ack;
     len := len; crc32c := 0 |}.

Lemma pack_unfold (cap flags seq ack : Z) (payload : list byte) (len : Z) :
  bb_wire_pack bld cap flags seq ack payload len =
  if cap <? sizeof_hdr + len then (0, [])
  else (sizeof_hdr + len,
        seal (pack_hdr flags seq ack len) (firstn (Z.to_nat len) payload)).
Proof. reflexivity. Qed.

(** The checksum field seen from a byte at offset [length p]. *)
Lemma set_crc_before (p s : list byte) (x : byte) (c : Z) :
  (length p < 14)%nat ->
  set_crc (p ++ x :: s) c =
  p ++ x :: (firstn (13 - length p) s ++ le_split 4 c ++ skipn (17 - length p) s).
Proof.
  intros H. unfold set_crc. rewrite firstn_app, skipn_app.
  rewrite (firstn_all2 (n := 14) p), (skipn_all2 (n := 18) p) by lia.
  replace (14 - length p)%nat with (S (13 - length p)) by lia.
  replace (18 - length p)%nat with (S (17 - length p)) by lia.
  rewrite firstn_cons, skipn_cons, <- app_assoc. reflexivity.
Qed.

Lemma get_crc_before (p s : list byte) (x : byte) :
  (length p < 14)%nat ->
  get_crc (p ++ x :: s) = le_combine (firstn 4 (skipn (13 - length p) s)).
Proof.
  intros H. unfold get_crc. rewrite skipn_app, (skipn_all2 (n := 14) p) by lia.
  replace (14 - length p)%nat with (S (13 - length p)) by lia.
  rewrite skipn_cons. reflexivity.
Qed.

Lemma set_crc_inside (p s : list byte) (x : byte) (c : Z) :
  (14 <= length p < 18)%nat ->
  set_crc (p ++ x :: s) c = firstn 14 p ++ le_split 4 c ++ skipn (17 - length p) s.
Proof.
  intros H. unfold set_crc. rewrite firstn_app, skipn_app.
  rewrite (skipn_all2 (n := 18) p) by lia.
  replace (14 - length p)%nat with 0%nat by lia.
  replace (18 - length p)%nat with (S (17 - length p)) by lia.
  rewrite firstn_O, skipn_cons, app_nil_r. reflexivity.
Qed.

Lemma get_crc_inside (p s : list byte) (x : byte) :
  (14 <= length p < 18)%nat ->
  get_crc (p ++ x :: s) = le_combine (skipn 14 p ++ x :: firstn (17 - length p) s).
Proof.
  intros H. unfold get_crc. rewrite skipn_app.
  replace (14 - length p)%nat with 0%nat by lia. rewrite skipn_O, firstn_app.
  rewrite (firstn_all2 (n := 4) (skipn 14 p)) by (rewrite length_skipn; lia).
  rewrite length_skipn.
  replace (4 - (length p - 14))%nat with (S (17 - length p)) by lia.
  rewrite firstn_cons. reflexivity.
Qed.

Lemma set_crc_after (p s : list byte) (x : byte) (c : Z) :
  (18 <= length p)%nat ->
  set_crc (p ++ x :: s) c = (firstn 14 p ++ le_split 4 c ++ skipn 18 p) ++ x :: s.
Proof.
  intros H. unfold set_crc. rewrite firstn_app, skipn_app.
  replace (14 - length p)%nat with 0%nat by lia.
  replace (18 - length p)%nat with 0%nat by lia.
  rewrite firstn_O, skipn_O, app_nil_r, <- !app_assoc. reflexivity.
Qed.

Lemma get_crc_after (p s : list byte) (x : byte) :
  (18 <= length p)%nat -> get_crc (p ++ x :: s) = get_crc p.
Proof.
  intros H. unfold get_crc. rewrite skipn_app, firstn_app.
  rewrite length_skipn. replace (4 - (length p - 14))%nat with 0%nat by lia.
  rewrite firstn_O, app_nil_r. reflexivity.
Qed.

(** A span that passes the checksum test no longer does once one bit of it
    is inverted. *)
Lemma flipped_span_rejected (buf : list byte) (i : nat) :
  fletcher_backend bld \/ crc32c_backend bld ->
  get_crc buf = checksum bld (set_crc buf 0) ->
  (i < 8 * length buf)%nat ->
  bb_wire_parse bld (flip_bit buf i) = None.
Proof.
  intros Hbk Hcrc Hi.
  destruct (flip_bit_split buf i Hi) as (p & s & b & k & Hk & E & E').
  rewrite parse_unfold.
  destruct (Z.of_nat (length (flip_bit buf i)) <? sizeof_hdr); [reflexivity|].
  destruct (negb (magic (hdr_of_bytes (flip_bit buf i)) =? BB_MAGIC)); [reflexivity|].
  assert (Hne : get_crc (flip_bit buf i) <> checksum bld (set_crc (flip_bit buf i) 0)).
  { rewrite E'. rewrite E in Hcrc. clear E E' Hi buf.
    destruct (Nat.lt_ge_cases (length p) 14) as [H14|H14];
      [|destruct (Nat.lt_ge_cases (length p) 18) as [H18|H18]].
    - (* before the checksum field *)
      rewrite get_crc_before, set_crc_before in * by exact H14.
      rewrite Hcrc. apply checksum_detects_flip; assumption.
    - (* inside the checksum field *)
      rewrite get_crc_inside, set_crc_inside in * by (split; assumption).
      rewrite <- Hcrc. intros Eq. apply le_combine_inj in Eq.
      + apply app_inv_head in Eq. injection Eq as Eq. revert Eq.
        apply flip_byte_neq, Hk.
      + rewrite !length_app. reflexivity.
    - (* in the payload *)
      rewrite get_crc_after, set_crc_after in * by exact H18.
      rewrite Hcrc. apply checksum_detects_flip; assumption. }
  apply Z.eqb_neq in Hne. rewrite Hne. reflexivity.
Qed.

End WireParse.

(** ** Sequence-space arithmetic *)

Section SeqArith.

Lemma s32_small (z : Z) : 0 <= z < 2 ^ 31 -> s32 z = z.
Proof.
  intros H. unfold s32, u32. rewrite Z.mod_small by lia.
  destruct (Z.ltb_spec z (2 ^ 31)); lia.
Qed.

Lemma s32_big (z : Z) : 2 ^ 31 <= z < 2 ^ 32 -> s32 z = z - 2 ^ 32.
Proof.
  intros H. unfold s32, u32. rewrite Z.mod_small by lia.
  destruct (Z.ltb_spec z (2 ^ 31)); lia.
Qed.

Lemma s32_u32 (z : Z) : s32 (u32 z) = s32 z.
Proof. unfold s32, u32. now rewrite Z.mod_mod by lia. Qed.

Lemma seq_cmp_u32 (a b : Z) : seq_cmp a b = s32 (u32 (a - b)).
Proof. unfold seq_cmp. now rewrite s32_u32. Qed.

Lemma u32_sub_ge (a b : Z) :
  0 <= b <= a -> a < 2 ^ 32 -> u32 (a - b) = a - b.
Proof. intros. apply Z.mod_small. lia. Qed.

Lemma u32_sub_lt (a b : Z) :
  0 <= a < b -> b < 2 ^ 32 -> u32 (a - b) = a - b + 2 ^ 32.
Proof.
  intros. unfold u32. rewrite <- (Z.mod_add (a - b) 1 (2 ^ 32)) by lia.
  rewrite Z.mul_1_l. apply Z.mod_small. lia.
Qed.

(** The outstanding count as a plain difference: [d = u32 (nxt - una)]
    says where [nxt] lies, with or without wrap. *)
Lemma u32_diff_cases (a b : Z) :
  0 <= a < 2 ^ 32 -> 0 <= b < 2 ^ 32 ->
  (b <= a /\ u32 (a - b) = a - b) \/ (a < b /\ u32 (a - b) = a - b + 2 ^ 32).
Proof.
  intros Ha Hb. destruct (Z.le_gt_cases b a).
  - left. split; [assumption|apply u32_sub_ge; lia].
  - right. split; [assumption|apply u32_sub_lt; lia].
Qed.

Lemma u32_succ_cases (a : Z) :
  0 <= a < 2 ^ 32 ->
  (a < 2 ^ 32 - 1 /\ u32 (a + 1) = a + 1) \/ (a = 2 ^ 32 - 1 /\ u32 (a + 1) = 0).
Proof.
  intros Ha. destruct (Z.eq_dec a (2 ^ 32 - 1)) as [->|].
  - right. split; reflexivity.
  - left. split; [lia|]. apply Z.mod_small. lia.
Qed.

(** Sending one more segment raises the outstanding count by one. *)
Lemma outstanding_succ (una nxt : Z) :
  0 <= una < 2 ^ 32 -> 0 <= nxt < 2 ^ 32 -> u32 (nxt - una) < 2 ^ 32 - 1 ->
  u32 (u32 (nxt + 1) - una) = u32 (nxt - una) + 1.
Proof.
  intros Hu Hn Hd.
  destruct (u32_succ_cases nxt Hn) as [[H1 E1]|[H1 E1]]; rewrite E1.
  - destruct (u32_diff_cases nxt una Hn Hu) as [[H2 E2]|[H2 E2]]; rewrite E2 in *.
    + rewrite u32_sub_ge; lia.
    + rewrite u32_sub_lt; lia.
  - subst nxt.
    destruct (u32_diff_cases (2 ^ 32 - 1) una Hn Hu) as [[H2 E2]|[H2 E2]]; rewrite E2 in *.
    + destruct (Z.eq_dec una 0) as [->|]; [simpl in *; lia|].
      rewrite u32_sub_lt; lia.
    + lia.
Qed.

(** Acknowledging one segment lowers the outstanding count by one. *)
Lemma outstanding_pred (una nxt : Z) :
  0 <= una < 2 ^ 32 -> 0 <= nxt < 2 ^ 32 -> 0 < u32 (nxt - una) ->
  u32 (nxt - u32 (una + 1)) = u32 (nxt - una) - 1.
Proof.
  intros Hu Hn Hd.
  destruct (u32_succ_cases una Hu) as [[H1 E1]|[H1 E1]]; rewrite E1.
  - destruct (u32_diff_cases nxt una Hn Hu) as [[H2 E2]|[H2 E2]]; rewrite E2 in *.
    + rewrite u32_sub_ge; lia.
    + rewrite u32_sub_lt; lia.
  - subst una.
    destruct (u32_diff_cases nxt (2 ^ 32 - 1) Hn Hu) as [[H2 E2]|[H2 E2]]; rewrite E2 in *.
    + lia.
    + rewrite Z.sub_0_r, u32_small; lia.
Qed.

(** An accepted cumulative ACK lies inside the window: it cannot raise the
    outstanding count, and it empties the window exactly when [seq_cmp]
    says so. *)
Lemma ack_in_window (una nxt a : Z) :
  0 <= una < 2 ^ 32 -> 0 <= nxt < 2 ^ 32 -> 0 <= a < 2 ^ 32 ->
  u32 (nxt - una) < 2 ^ 31 ->
  seq_cmp a una >= 0 -> seq_cmp a nxt <= 0 ->
  u32 (nxt - a) + u32 (a - una) = u32 (nxt - una).
Proof.
  intros Hu Hn Ha Hd H1 H2. rewrite seq_cmp_u32 in H1, H2.
  pose proof (u32_range (a - una)) as R1. pose proof (u32_range (a - nxt)) as R2.
  assert (S1 : u32 (a - una) < 2 ^ 31).
  { destruct (Z.lt_ge_cases (u32 (a - una)) (2 ^ 31)); [assumption|].
    rewrite s32_big in H1; lia. }
  assert (S2 : u32 (a - nxt) = 0 \/ 2 ^ 31 <= u32 (a - nxt)).
  { destruct (Z.lt_ge_cases (u32 (a - nxt)) (2 ^ 31)); [|right; assumption].
    rewrite s32_small in H2; lia. }
  destruct (u32_diff_cases nxt una Hn Hu) as [[? E1]|[? E1]];
  destruct (u32_diff_cases a una Ha Hu) as [[? E2]|[? E2]];
  destruct (u32_diff_cases a nxt Ha Hn) as [[? E3]|[? E3]];
  destruct (u32_diff_cases nxt a Hn Ha) as [[? E4]|[? E4]];
  rewrite ?E1, ?E2, ?E3, ?E4 in *; lia.
Qed.

Lemma seq_cmp_zero_iff (a b : Z) :
  0 <= a < 2 ^ 32 -> 0 <= b < 2 ^ 32 -> (seq_cmp a b = 0 <-> a = b).
Proof.
  intros Ha Hb. rewrite seq_cmp_u32.
  pose proof (u32_range (a - b)) as R.
  destruct (u32_diff_cases a b Ha Hb) as [[? E]|[? E]];
  destruct (Z.lt_ge_cases (u32 (a - b)) (2 ^ 31));
    rewrite ?s32_small, ?s32_big by lia; lia.
Qed.

(** With fewer than 2^31 segments outstanding the signed comparison of the
    source reads the outstanding count. *)
Lemma seq_cmp_outstanding (una nxt : Z) :
  u32 (nxt - una) < 2 ^ 31 -> seq_cmp nxt una = u32 (nxt - una).
Proof.
  intros H. rewrite seq_cmp_u32. apply s32_small.
  pose proof (u32_range (nxt - una)). lia.
Qed.

(** Stepping [q] towards [nxt] lowers a positive [seq_cmp nxt q] by one:
    the loops [for (q = una; seq_cmp(nxt, q) > 0; ++q)] and
    [while (seq_cmp(una, ack) < 0) una++] count down. *)
Lemma seq_cmp_step (nxt qq : Z) :
  0 <= nxt < 2 ^ 32 -> 0 <= qq < 2 ^ 32 -> seq_cmp nxt qq > 0 ->
  seq_cmp nxt (u32 (qq + 1)) = seq_cmp nxt qq - 1.
Proof.
  intros Hn Hq Hpos. rewrite !seq_cmp_u32. rewrite seq_cmp_u32 in Hpos.
  pose proof (u32_range (nxt - qq)) as R.
  assert (Hx : 0 < u32 (nxt - qq) < 2 ^ 31).
  { destruct (Z.lt_ge_cases (u32 (nxt - qq)) (2 ^ 31)) as [Hlt|Hge].
    - rewrite s32_small in Hpos; lia.
    - rewrite s32_big in Hpos; lia. }
  rewrite outstanding_pred by lia.
  rewrite (s32_small (u32 (nxt - qq) - 1)) by lia.
  rewrite (s32_small (u32 (nxt - qq))) by lia. reflexivity.
Qed.

Lemma seq_cmp_antisym_neg (a b : Z) :
  0 <= a < 2 ^ 32 -> 0 <= b < 2 ^ 32 -> seq_cmp a b >= 0 -> seq_cmp b a < 0 ->
  seq_cmp a b > 0.
Proof.
  intros Ha Hb H1 H2.
  destruct (Z.eq_dec (seq_cmp a b) 0) as [E|]; [|lia].
  destruct (seq_cmp_zero_iff a b Ha Hb) as [Hz _]. apply Hz in E. subst b.
  unfold seq_cmp in H2. rewrite Z.sub_diag in H2. cbn in H2. lia.
Qed.

End SeqArith.

(** ** Frame codec: round trip, header length, corruption *)

Section WireClaims.

Lemma parse_accepts_iff (bld : build) (buf : list byte) :
  bb_wire_parse bld buf <> None <->
  sizeof_hdr <= Z.of_nat (length buf) /\
  magic (hdr_of_bytes buf) = BB_MAGIC /\
  get_crc buf = checksum bld (set_crc buf 0) /\
  sizeof_hdr + len (hdr_of_bytes buf) <= Z.of_nat (length buf).
Proof.
  rewrite parse_unfold.
  destruct (Z.ltb_spec (Z.of_nat (length buf)) sizeof_hdr);
    [split; [congruence|lia]|].
  destruct (Z.eqb_spec (magic (hdr_of_bytes buf)) BB_MAGIC); cbn [negb];
    [|split; [congruence|tauto]].
  destruct (Z.eqb_spec (get_crc buf) (checksum bld (set_crc buf 0))); cbn [negb];
    [|split; [congruence|tauto]].
  destruct (Z.ltb_spec (Z.of_nat (length buf)) (sizeof_hdr + len (hdr_of_bytes buf)));
    [split; [congruence|lia]|].
  split; [auto|congruence].
Qed.

(** C2 (as amended: the packed header is 18 bytes, not 16).  For every
    flags value, seq, ack and payload of length [len], with a destination
    of capacity at least 18 + len, [bb_wire_pack] returns 18 + len and
    writes that many bytes; [bb_wire_parse] on exactly those bytes succeeds
    with a header whose flags, seq, ack and len are the packed inputs and a
    payload pointer, at offset 18, whose bytes are the input payload. *)
Theorem pack_parse_roundtrip (bld : build) (cap f s a : Z) (payload : list byte) :
  0 <= f < 2 ^ 8 -> 0 <= s < 2 ^ 32 -> 0 <= a < 2 ^ 32 ->
  Z.of_nat (length payload) < 2 ^ 16 ->
  sizeof_hdr + Z.of_nat (length payload) <= cap ->
  let n := Z.of_nat (length payload) in
  let r := bb_wire_pack bld cap f s a payload n in
  fst r = 18 + n /\ Z.of_nat (length (snd r)) = 18 + n /\
  exists h : bb_hdr_t,
    bb_wire_parse bld (snd r) = Some (h, payload) /\
    flags h = f /\ seq h = s /\ ack h = a /\ len h = n /\
    skipn 18 (snd r) = payload.
Proof.
  intros Hf Hs Ha Hn Hcap n r. subst r. rewrite pack_unfold.
  destruct (Z.ltb_spec cap (sizeof_hdr + n)); [subst n; lia|].
  cbn [fst snd]. subst n. rewrite Nat2Z.id, firstn_all.
  set (n := Z.of_nat (length payload)) in *.
  split; [reflexivity|]. split; [apply seal_length|].
  eexists. split.
  - apply parse_seal; [|reflexivity|cbn; lia].
    unfold hdr_wf, pack_hdr, BB_MAGIC. cbn. lia.
  - rewrite seal_eq, skipn_hdr_bytes. cbn. auto.
Qed.

Lemma pack_parse_roundtrip_witness :
  let payload := [Byte.x41; Byte.x42; Byte.x43] in
  let r := bb_wire_pack portable 64 2 7 9 payload 3 in
  fst r = 18 + 3 /\ Z.of_nat (length (snd r)) = 18 + 3 /\
  exists h : bb_hdr_t,
    bb_wire_parse portable (snd r) = Some (h, payload) /\
    flags h = 2 /\ seq h = 7 /\ ack h = 9 /\ len h = 3 /\
    skipn 18 (snd r) = payload.
Proof.
  apply (pack_parse_roundtrip portable 64 2 7 9 [Byte.x41; Byte.x42; Byte.x43]);
    unfold sizeof_hdr; simpl; lia.
Defined.

(** C2 as stated fails: with room for 16 + len bytes [bb_wire_pack] refuses
    and returns 0, and with more room it returns 18 + len. *)
Lemma pack_16_counterexample :
  16 + 0 <= 16 /\ fst (bb_wire_pack portable 16 2 7 9 [] 0) = 0 /\
  16 + 3 <= 64 /\
  fst (bb_wire_pack portable 64 2 7 9 [Byte.x41; Byte.x42; Byte.x43] 3) = 21 /\
  21 <> 16 + 3.
Proof. repeat split; try reflexivity; lia. Qed.






(** Single-bit corruption in the two builds that compute a checksum
    (Fletcher-32 when no hardware CRC is reported, CRC32C when it is
    reported and the unit was compiled with [__SSE4_2__]): a frame
    produced by [bb_wire_pack] is rejected by [bb_wire_parse] once any
    single bit of its 18 + len bytes is inverted.  The third build is
    not covered, and there the property fails, as shown below. *)
Theorem flipped_frame_rejected (bld : build) (cap f s a : Z)
    (payload : list byte) (n : Z) (i : nat) :
  fletcher_backend bld \/ crc32c_backend bld ->
  let frame := snd (bb_wire_pack bld cap f s a payload n) in
  (i < 8 * length frame)%nat ->
  bb_wire_parse bld (flip_bit frame i) = None.
Proof.
  intros Hbk frame Hi. subst frame. rewrite pack_unfold in *.
  destruct (cap <? sizeof_hdr + n); cbn [snd] in *; [simpl in Hi; lia|].
  apply flipped_span_rejected; [exact Hbk| |exact Hi].
  rewrite seal_eq, set_crc_hdr_bytes, with_crc_twice.
  rewrite get_crc_hdr_bytes; [reflexivity|]. apply checksum_range.
Qed.

Lemma flipped_frame_rejected_witness :
  bb_wire_parse sse42
    (flip_bit (snd (bb_wire_pack sse42 64 2 7 9 [Byte.x41; Byte.x42] 2)) 150) = None /\
  bb_wire_parse portable
    (flip_bit (snd (bb_wire_pack portable 64 2 7 9 [Byte.x41; Byte.x42] 2)) 29) = None.
Proof.
  split.
  - apply (flipped_frame_rejected sse42 64 2 7 9 [Byte.x41; Byte.x42] 2 150).
    + right. split; reflexivity.
    + vm_compute. lia.
  - apply (flipped_frame_rejected portable 64 2 7 9 [Byte.x41; Byte.x42] 2 29).
    + left. reflexivity.
    + vm_compute. lia.
Defined.

(** The build of bb_checksum.c the other two leave: an x86-64 CPU that
    reports SSE4.2, the unit compiled without [__SSE4_2__]. *)
Definition unaccelerated : build :=
  {| x86_64 := true; cpu_sse42 := true; sse42_intrinsics := false |}.

(** C7 does not hold of the code: a code bug.  In the build
    [unaccelerated] the probe [bb_crc32c_hw_available] answers true (it
    asks CPUID only), so [bb_wire_pack] and [bb_wire_parse] take the
    hardware branch, and there [bb_crc32c_hw] returns 0 for every buffer
    (its [#else] arm).  Every frame is stamped with checksum 0 and every
    span is compared against 0: the frame for flags 2, seq 7, ack 9 and
    payload "AB" is still accepted with bit 32 inverted (inside the
    header: it parses with seq 6) and with bit 150 inverted (the first
    payload byte: it parses with payload 0x01 'B').  The comments of the
    code promise the opposite: "crc32c if HW, else Fletcher-32"
    (bb_wire.c) and "return 0 so callers can fall back"
    (bb_checksum.c). *)
Lemma stub_crc_accepts_flip :
  let bld := unaccelerated in
  let frame := snd (bb_wire_pack bld 64 2 7 9 [Byte.x41; Byte.x42] 2) in
  bb_crc32c_hw_available bld = true /\
  bb_crc32c_hw bld (set_crc frame 0) = 0 /\ get_crc frame = 0 /\
  (32 < 8 * (16 + 2))%nat /\ (150 < 8 * length frame)%nat /\
  (exists h, bb_wire_parse bld frame = Some (h, [Byte.x41; Byte.x42]) /\ seq h = 7) /\
  (exists h, bb_wire_parse bld (flip_bit frame 32) = Some (h, [Byte.x41; Byte.x42]) /\
             seq h = 6) /\
  exists h, bb_wire_parse bld (flip_bit frame 150) = Some (h, [Byte.x01; Byte.x42]).
Proof.
  vm_compute. repeat split; try lia; eexists; repeat split; reflexivity.
Qed.

End WireClaims.

(** ** Channel emulator: the loops never run out of fuel *)

Section ChannelLoops.
Import Channel.

(** A loop whose rounds keep an invariant and lower a measure, positive
    whenever the loop goes round again, leaves before the measure is used
    up. *)
Lemma rounds_progress {St : Type} (inv : St -> Prop) (m : St -> Z)
    (body : St -> St + St) :
  (forall st st', inv st -> body st = inr st' -> inv st' /\ 0 < m st /\ m st' < m st) ->
  forall (fuel : positive) (st st' : St),
    inv st -> rounds fuel body st = inr st' ->
    inv st' /\ Z.pos fuel <= m st /\ m st' + Z.pos fuel <= m st.
Proof.
  intros Hbody. induction fuel as [p IH|p IH|]; intros st st' Hinv Hr; cbn [rounds] in Hr.
  - destruct (body st) as [d|st1] eqn:E1; [discriminate|].
    destruct (Hbody st st1 Hinv E1) as (I1 & P1 & D1).
    destruct (rounds p body st1) as [d|st2] eqn:E2; [discriminate|].
    destruct (IH st1 st2 I1 E2) as (I2 & P2 & D2).
    destruct (IH st2 st' I2 Hr) as (I3 & P3 & D3).
    split; [exact I3|]. lia.
  - destruct (rounds p body st) as [d|st1] eqn:E1; [discriminate|].
    destruct (IH st st1 Hinv E1) as (I1 & P1 & D1).
    destruct (IH st1 st' I1 Hr) as (I2 & P2 & D2).
    split; [exact I2|]. lia.
  - destruct (Hbody st st' Hinv Hr) as (I1 & P1 & D1). split; [exact I1|]. lia.
Qed.

Lemma rounds_leave {St : Type} (inv : St -> Prop) (m : St -> Z)
    (body : St -> St + St) (fuel : positive) (st : St) :
  (forall st st', inv st -> body st = inr st' -> inv st' /\ 0 < m st /\ m st' < m st) ->
  inv st -> m st < Z.pos fuel ->
  exists done, rounds fuel body st = inl done.
Proof.
  intros Hbody Hinv Hm. destruct (rounds fuel body st) as [d|st'] eqn:E.
  - now exists d.
  - destruct (rounds_progress inv m body Hbody fuel st st' Hinv E) as (_ & P & _). lia.
Qed.

Lemma ms2ns_150 : ms2ns 150%float = 150000000.
Proof. vm_compute. reflexivity. Qed.

Lemma ms2ns_5 : ms2ns 5%float = 5000000.
Proof. vm_compute. reflexivity. Qed.

(** The bounded wait of [bb_channel_send] always leaves by one of its
    [break]s: each sleep adds at least a nanosecond to [waited], and at
    150 ms the loop gives up. *)
Lemma wait_leaves (e : sock_env) (head_ready t0 : Z) (w : sock_world) :
  exists done,
    rounds (Z.to_pos (ms2ns 150%float + 1)) (wait_body e head_ready) (t0, 0, w) = inl done.
Proof.
  apply (rounds_leave (fun st => 0 <= snd (fst st))
                      (fun st => ms2ns 150%float - snd (fst st))).
  - intros [[t waited] w1] st' Hinv Hb. cbn [fst snd] in *.
    unfold wait_body in Hb. destruct (read_clock e w1) as [t1 w2].
    destruct (Z.leb_spec head_ready t1); [discriminate|].
    destruct (Z.geb_spec waited (ms2ns 150%float)) as [|Hlt]; [discriminate|].
    injection Hb as <-. cbn [fst snd]. rewrite ms2ns_150, ms2ns_5 in *.
    set (remain := if head_ready - t1 >? 5000000 then 5000000 else head_ready - t1).
    assert (1 <= remain <= 5000000).
    { subst remain. destruct (Z.gtb_spec (head_ready - t1) 5000000); lia. }
    unfold u64. rewrite Z.mod_small by lia. lia.
  - cbn. lia.
  - cbn [fst snd]. rewrite ms2ns_150. cbn. lia.
Qed.

(** The drain loop pops a frame in every round that goes on: any fuel from
    the queue length on gives the same result. *)
Lemma drain_fuel (e : sock_env) (f1 : nat) :
  forall (f2 : nat) (ch : bb_channel_t) (w : sock_world) (total : Z),
    (length (q ch) <= f1)%nat -> (length (q ch) <= f2)%nat ->
    drain e f1 ch w total = drain e f2 ch w total.
Proof.
  induction f1 as [|f1 IH]; intros f2 ch w total H1 H2.
  - destruct (q ch) as [|f rest] eqn:Eq; [|cbn in H1; lia].
    destruct f2; cbn [drain]; rewrite ?Eq; reflexivity.
  - destruct f2 as [|f2].
    { destruct (q ch) as [|f rest] eqn:Eq; [|cbn in H2; lia].
      cbn [drain]. rewrite Eq. reflexivity. }
    cbn [drain]. destruct (q ch) as [|f rest] eqn:Eq; [reflexivity|].
    destruct (read_clock e w) as [t w1].
    cbn [token_ns_per_byte next_tx_ts].
    destruct (ready_ts f >? t); [reflexivity|].
    destruct (negb (token_ns_per_byte ch =? 0) && (t <? next_tx_ts ch)); [reflexivity|].
    cbn [length] in H1, H2.
    destruct (token_ns_per_byte ch =? 0);
      destruct (call_sendto e w1 (buf f)) as [[s| |] w2]; try reflexivity;
      apply IH; cbn [q]; lia.
Qed.

End ChannelLoops.

(** ** Channel emulator *)

Section ChannelClaims.
Import Channel.

(** A sequence of [bb_channel_send] calls on one channel: the values
    returned, then the channel and the world at the end. *)
Fixpoint send_all (e : sock_env) (w : sock_world) (ch : bb_channel_t)
    (bufs : list (list byte)) : list Z * bb_channel_t * sock_world :=
  match bufs with
  | [] => ([], ch, w)
  | b :: rest =>
      let '(r, ch, w) := bb_channel_send e w ch b in
      let '(rs, ch, w) := send_all e w ch rest in
      (r :: rs, ch, w)
  end.









Lemma u64_range (z : Z) : 0 <= u64 z < 2 ^ 64.
Proof. apply Z.mod_pos_bound. lia. Qed.














Definition timing_cfg : bb_channel_cfg_t :=
  {| loss_pct := 50%float; dup_pct := 0%float; reorder_pct := 0%float;
     delay_mean_ms := 0%float; delay_jitter_ms := 0%float;
     rate_mbps := 1%float; seed := 42 |}.

(** A clock that advances a second per reading and one that stands still;
    the socket always accepts. *)
Definition fast_clock : sock_env :=
  {| clock := fun k => Z.of_nat k * 1000000000; sendto := fun _ => Sent 1 |}.

Definition five_sends : list (list byte) :=
  [[Byte.x41]; [Byte.x42]; [Byte.x43]; [Byte.x44]; [Byte.x45]].




(** C10.  When the loss decision of a [bb_channel_send] call drops the
    frame, the call returns the input length at once: nothing is put on the
    wire, the socket is not called, and the queue and the token bucket's
    next-transmit time are as they were. *)
Theorem dropped_send_is_immediate (e : sock_env) (w : sock_world)
    (ch : bb_channel_t) (b : list byte) :
  fst (decide (loss_pct (cfg ch)) (rng ch)) = true ->
  let '(r, ch', w') := bb_channel_send e w ch b in
  r = Z.of_nat (length b) /\
  sent w' = sent w /\ calls w' = calls w /\
  q ch' = q ch /\ next_tx_ts ch' = next_tx_ts ch.
Proof.
  intros Hlost. unfold bb_channel_send.
  destruct (read_clock e w) as [t w1] eqn:Hr.
  destruct (decide (loss_pct (cfg ch)) (rng ch)) as [lost rng1].
  cbn [fst] in Hlost. subst lost.
  unfold read_clock in Hr. injection Hr as _ <-. cbn. auto.
Qed.

(** The configuration of tests/test_channel.c (everything dropped), on a
    channel that already holds a ready frame. *)
Definition all_lost_cfg : bb_channel_cfg_t :=
  {| loss_pct := 100%float; dup_pct := 0%float; reorder_pct := 0%float;
     delay_mean_ms := 0%float; delay_jitter_ms := 0%float;
     rate_mbps := 0%float; seed := 1234 |}.

Definition holding_one : bb_channel_t :=
  {| cfg := all_lost_cfg; now := 0; token_ns_per_byte := 0; next_tx_ts := 0;
     q := [{| n := 1; buf := [Byte.x41]; ready_ts := 0 |}]; rng := 1234 |}.

Lemma dropped_send_is_immediate_witness :
  let '(r, ch', w') := bb_channel_send fast_clock sock_world0 holding_one [Byte.x42; Byte.x43] in
  r = Z.of_nat (length [Byte.x42; Byte.x43]) /\
  sent w' = sent sock_world0 /\ calls w' = calls sock_world0 /\
  q ch' = q holding_one /\ next_tx_ts ch' = next_tx_ts holding_one.
Proof.
  apply (dropped_send_is_immediate fast_clock sock_world0 holding_one [Byte.x42; Byte.x43]).
  vm_compute. reflexivity.
Defined.

End ChannelClaims.

(** ** Go-Back-N: invariants of the reachable states *)

Definition cfg_wf (c : bb_proto_cfg_t) : Prop :=
  0 <= init_seq c < 2 ^ 32 /\ 0 <= wnd c < 2 ^ 32 /\
  0 <= mss c < 2 ^ 32 /\ 0 <= rto_ms c < 2 ^ 32.

Lemma parse_some (bld : build) (buf : list byte) (h : bb_hdr_t) (pl : list byte) :
  bb_wire_parse bld buf = Some (h, pl) -> h = hdr_of_bytes buf /\ pl = skipn 18 buf.
Proof.
  rewrite parse_unfold. intros H.
  repeat match type of H with (if ?c then _ else _) = _ => destruct c; [discriminate|] end.
  injection H as <- <-. auto.
Qed.

Lemma le_combine_firstn_range (k : nat) (l : list byte) :
  0 <= le_combine (firstn k l) < 2 ^ (8 * Z.of_nat k).
Proof.
  pose proof (le_combine_bound (firstn k l)) as H.
  pose proof (firstn_le_length k l) as Hl.
  split; [lia|]. eapply Z.lt_le_trans; [apply H|].
  apply Z.pow_le_mono_r; lia.
Qed.

Lemma parsed_ack_range (bld : build) (buf : list byte) (h : bb_hdr_t) (pl : list byte) :
  bb_wire_parse bld buf = Some (h, pl) -> 0 <= ack h < 2 ^ 32.
Proof.
  intros H. apply parse_some in H as [-> _]. cbn [ack hdr_of_bytes].
  apply (le_combine_firstn_range 4).
Qed.

Module GbnFacts.
Import Gbn.

(** The states the public operations can produce from a fresh engine:
    [bb_proto_gbn_create], then any number of [bb_proto_send] and
    [bb_proto_recv] calls ([bb_proto_close] frees the engine and leaves no
    state).  [sendable] restricts the buffers handed to [bb_proto_send]. *)
Inductive reachable (bld : build) (e : env) (c : bb_proto_cfg_t)
    (sendable : list byte -> Prop) : gbn_t -> world -> Prop :=
| reach_create (w : world) :
    reachable bld e c sendable (bb_proto_gbn_create c) w
| reach_send (s : gbn_t) (w : world) (data : list byte) :
    reachable bld e c sendable s w -> sendable data ->
    reachable bld e c sendable
      (snd (fst (bb_proto_send bld e w s data))) (snd (bb_proto_send bld e w s data))
| reach_recv (s : gbn_t) (w : world) (cap : Z) (got : chan_rx) :
    reachable bld e c sendable s w -> 0 <= cap ->
    reachable bld e c sendable
      (snd (fst (bb_proto_recv bld e w s cap got))) (snd (bb_proto_recv bld e w s cap got)).

Definition any_data (data : list byte) : Prop := True.
Definition nonempty (data : list byte) : Prop := data <> [].

(** Two states that differ at most in the retransmission timer. *)
Definition timer_only (s s' : gbn_t) : Prop :=
  cfg s' = cfg s /\ snd_una s' = snd_una s /\ snd_nxt s' = snd_nxt s /\
  rcv_nxt s' = rcv_nxt s /\ outbuf s' = outbuf s /\ inbuf s' = inbuf s /\
  have_in s' = have_in s.

Lemma timer_only_refl (s : gbn_t) : timer_only s s.
Proof. unfold timer_only. tauto. Qed.

Lemma timer_only_trans (a b c : gbn_t) :
  timer_only a b -> timer_only b c -> timer_only a c.
Proof. unfold timer_only. intuition congruence. Qed.

Lemma timer_only_set_timer (s : gbn_t) (ts : Z) (r : bool) :
  timer_only s (set_timer s ts r).
Proof. unfold timer_only. cbn. tauto. Qed.

Section Steps.

Variable bld : build.
Variable e : env.

Lemma start_timer_spec (w : world) (s : gbn_t) :
  timer_only s (fst (start_timer e w s)) /\
  timer_running (fst (start_timer e w s)) = true.
Proof. unfold start_timer. cbn. split; [apply timer_only_set_timer|reflexivity]. Qed.

(** [send_frame] touches the timer only: it starts it on success when it
    was idle, and leaves the engine alone on failure. *)
Lemma send_frame_spec (w : world) (s : gbn_t) (sq : Z) (p : list byte) (k : Z) :
  let r := send_frame bld e w s sq p k in
  timer_only s (snd (fst r)) /\
  (fst (fst r) = 0 \/ fst (fst r) = -1) /\
  (fst (fst r) = 0 -> timer_running (snd (fst r)) = true) /\
  (fst (fst r) = -1 -> snd (fst r) = s).
Proof.
  unfold send_frame.
  destruct (bb_wire_pack bld 1500 BB_FLAG_DATA sq (rcv_nxt s) p (u16 k)) as [m frame].
  destruct (m =? 0).
  { cbn. split; [apply timer_only_refl|]. split; [auto|]. split; [discriminate|auto]. }
  destruct (channel_send e w frame) as [r w1]. destruct (r <? 0).
  { cbn. split; [apply timer_only_refl|]. split; [auto|]. split; [discriminate|auto]. }
  destruct (timer_running s) eqn:Hrun.
  { cbn. split; [apply timer_only_refl|]. split; [auto|]. split; [auto|discriminate]. }
  pose proof (start_timer_spec w1 s) as [H1 H2].
  destruct (start_timer e w1 s) as [s1 w2]. cbn in *.
  split; [exact H1|]. split; [auto|]. split; [auto|discriminate].
Qed.

Lemma retransmit_loop_spec (fuel : nat) :
  forall (w : world) (s : gbn_t) (qq : Z),
    timer_only s (fst (retransmit_loop bld e fuel w s qq)).
Proof.
  induction fuel as [|fuel IH]; intros w s qq; cbn [retransmit_loop].
  { apply timer_only_refl. }
  destruct (seq_cmp (snd_nxt s) qq >? 0); [|apply timer_only_refl].
  destruct (_ >=? outlen s); [apply timer_only_refl|].
  match goal with |- context [send_frame bld e w s ?a ?b ?c] =>
    pose proof (send_frame_spec w s a b c) as (H1 & _);
    destruct (send_frame bld e w s a b c) as [[r s1] w1] end.
  cbn [fst snd] in H1. eapply timer_only_trans; [exact H1|apply IH].
Qed.

(** [retransmit_window_from_snapshot] touches the timer only; it leaves it
    running unless the window or the snapshot is empty. *)
Lemma retransmit_window_spec (w : world) (s : gbn_t) :
  let s' := fst (retransmit_window_from_snapshot bld e w s) in
  timer_only s s' /\
  (timer_running s' =
   negb ((seq_cmp (snd_nxt s) (snd_una s) <=? 0) || (outlen s =? 0))).
Proof.
  unfold retransmit_window_from_snapshot.
  destruct ((seq_cmp (snd_nxt s) (snd_una s) <=? 0) || (outlen s =? 0)).
  { cbn. split; [apply timer_only_set_timer|reflexivity]. }
  pose proof (retransmit_loop_spec
                (Z.to_nat (seq_cmp (snd_nxt s) (snd_una s))) w s (snd_una s)) as H1.
  destruct (retransmit_loop bld e _ w s (snd_una s)) as [s1 w1]. cbn [fst] in H1.
  destruct (start_timer_spec w1 s1) as [H2 H3]. cbn [negb].
  split; [eapply timer_only_trans; eassumption|exact H3].
Qed.

Lemma timer_expired_running (w : world) (s : gbn_t) :
  fst (timer_expired e w s) = true -> timer_running s = true.
Proof. unfold timer_expired. destruct (timer_running s); [auto|discriminate]. Qed.

Lemma rto_check_spec (w : world) (s : gbn_t) :
  let s' := fst (rto_check bld e w s) in
  timer_only s s' /\
  (timer_running s' = timer_running s \/
   (seq_cmp (snd_nxt s) (snd_una s) > 0 /\ timer_running s = true /\
    timer_running s' = negb (outlen s =? 0))).
Proof.
  unfold rto_check.
  destruct (Z.gtb_spec (seq_cmp (snd_nxt s) (snd_una s)) 0) as [Hd|Hd];
    [|cbn; split; [apply timer_only_refl|auto]].
  pose proof (timer_expired_running w s) as Hx.
  destruct (timer_expired e w s) as [x w1]. cbn [fst] in Hx. destruct x.
  - pose proof (retransmit_window_spec w1 s) as [H1 H2]. cbn zeta in H1, H2.
    split; [exact H1|]. right. split; [lia|]. split; [auto|].
    rewrite H2. destruct (Z.leb_spec (seq_cmp (snd_nxt s) (snd_una s)) 0); [lia|].
    reflexivity.
  - cbn. split; [apply timer_only_refl|auto].
Qed.

End Steps.

(** *** The window invariant *)

(** What every reachable state satisfies: the outstanding count
    [snd_nxt - snd_una] (mod 2^32) is at most the window. *)
Definition window_ok (s : gbn_t) : Prop :=
  0 <= snd_una s < 2 ^ 32 /\ 0 <= snd_nxt s < 2 ^ 32 /\
  0 <= wnd (cfg s) < 2 ^ 32 /\
  u32 (snd_nxt s - snd_una s) <= wnd (cfg s).

Lemma window_ok_timer_only (s s' : gbn_t) :
  timer_only s s' -> window_ok s -> window_ok s'.
Proof.
  unfold timer_only, window_ok. intros (E1 & E2 & E3 & _). now rewrite E1, E2, E3.
Qed.

Section Window.

Variable bld : build.
Variable e : env.

Lemma window_ok_create (c : bb_proto_cfg_t) : cfg_wf c -> window_ok (bb_proto_gbn_create c).
Proof.
  intros (Hi & Hw & _). unfold window_ok, bb_proto_gbn_create. cbn.
  rewrite Z.sub_diag. change (u32 0) with 0.
  destruct (wnd c =? 0); lia.
Qed.

Lemma window_ok_send_loop (fuel : nat) :
  forall (w : world) (s : gbn_t) (data : list byte) (len off : Z),
    window_ok s -> window_ok (snd (fst (send_loop bld e fuel w s data len off))).
Proof.
  induction fuel as [|fuel IH]; intros w s data len off Hok; cbn [send_loop]; [exact Hok|].
  destruct (off <? len); [|exact Hok].
  destruct (Z.geb_spec (u32 (snd_nxt s - snd_una s)) (wnd (cfg s))) as [Hfull|Hroom];
    [exact Hok|].
  match goal with |- context [send_frame bld e w s ?a ?b ?c] =>
    pose proof (send_frame_spec bld e w s a b c) as (H1 & _);
    destruct (send_frame bld e w s a b c) as [[r s1] w1] end.
  cbn [fst snd] in H1.
  pose proof (window_ok_timer_only _ _ H1 Hok) as Hok1.
  destruct (r <? 0); [exact Hok1|]. apply IH.
  destruct H1 as (E1 & E2 & E3 & _).
  destruct Hok1 as (Hu & Hn & Hw & Hd).
  unfold window_ok, set_snd_nxt, bb_next_seq. cbn.
  rewrite <- E1, <- E2, <- E3 in Hroom.
  repeat split; try lia; try apply u32_range.
  rewrite outstanding_succ; lia.
Qed.

Lemma window_ok_send (w : world) (s : gbn_t) (data : list byte) :
  window_ok s -> window_ok (snd (fst (bb_proto_send bld e w s data))).
Proof. intros Hok. unfold bb_proto_send. apply window_ok_send_loop. exact Hok. Qed.

Lemma window_ok_ack_step (w : world) (s : gbn_t) (h : bb_hdr_t) :
  0 <= ack h < 2 ^ 32 -> wnd (cfg s) < 2 ^ 31 ->
  window_ok s -> window_ok (fst (ack_step e w s h)).
Proof.
  intros Ha Hw31 Hok. unfold ack_step.
  destruct (Z.geb_spec (seq_cmp (ack h) (snd_una s)) 0) as [H1|H1]; [|exact Hok].
  destruct (Z.leb_spec (seq_cmp (ack h) (snd_nxt s)) 0) as [H2|H2]; [|exact Hok].
  cbn [andb].
  assert (Hok' : window_ok (set_snd_una s (ack h))).
  { destruct Hok as (Hu & Hn & Hw & Hd). unfold window_ok. cbn.
    pose proof (ack_in_window (snd_una s) (snd_nxt s) (ack h) Hu Hn Ha
                  ltac:(lia) ltac:(lia) H2) as E.
    pose proof (u32_range (ack h - snd_una s)). repeat split; lia. }
  destruct (seq_cmp _ _ =? 0).
  - cbn [fst]. eapply window_ok_timer_only; [apply timer_only_set_timer|exact Hok'].
  - eapply window_ok_timer_only; [apply start_timer_spec|exact Hok'].
Qed.

Lemma window_ok_recv (w : world) (s : gbn_t) (cap : Z) (got : chan_rx) :
  wnd (cfg s) < 2 ^ 31 ->
  window_ok s -> window_ok (snd (fst (bb_proto_recv bld e w s cap got))).
Proof.
  intros Hw31 Hok. unfold bb_proto_recv.
  destruct (have_in s); [exact Hok|].
  pose proof (rto_check_spec bld e w s) as [T1 _].
  destruct (rto_check bld e w s) as [s1 w1]. cbn [fst] in T1.
  pose proof (window_ok_timer_only _ _ T1 Hok) as Hok1.
  assert (Hw1 : wnd (cfg s1) < 2 ^ 31) by (destruct T1 as (-> & _); exact Hw31).
  destruct (rx_rn got <=? 0).
  { destruct (rx_rn got =? 0); [|exact Hok1].
    pose proof (rto_check_spec bld e w1 s1) as [T2 _].
    destruct (rto_check bld e w1 s1) as [s2 w2]. cbn [fst snd] in *.
    eapply window_ok_timer_only; eassumption. }
  destruct (bb_wire_parse bld (rx_ibuf got)) as [[h pl]|] eqn:Hp; [|exact Hok1].
  pose proof (window_ok_ack_step w1 s1 h (parsed_ack_range _ _ _ _ Hp) Hw1 Hok1) as Hok2.
  destruct (ack_step e w1 s1 h) as [s2 w2]. cbn [fst] in Hok2.
  destruct (Z.land (flags h) BB_FLAG_DATA =? 0); [exact Hok2|].
  destruct (negb (seq_cmp (seq h) (rcv_nxt s2) =? 0)); exact Hok2.
Qed.

Lemma cfg_send_loop (fuel : nat) :
  forall (w : world) (s : gbn_t) (data : list byte) (len off : Z),
    cfg (snd (fst (send_loop bld e fuel w s data len off))) = cfg s.
Proof.
  induction fuel as [|fuel IH]; intros w s data len off; cbn [send_loop]; [reflexivity|].
  destruct (off <? len); [|reflexivity].
  destruct (_ >=? wnd (cfg s)); [reflexivity|].
  match goal with |- context [send_frame bld e w s ?a ?b ?c] =>
    pose proof (send_frame_spec bld e w s a b c) as ((E & _) & _);
    destruct (send_frame bld e w s a b c) as [[r s1] w1] end.
  cbn [fst snd] in E. destruct (r <? 0); [exact E|]. rewrite IH. exact E.
Qed.

Lemma cfg_send (w : world) (s : gbn_t) (data : list byte) :
  cfg (snd (fst (bb_proto_send bld e w s data))) = cfg s.
Proof. unfold bb_proto_send. now rewrite cfg_send_loop. Qed.

Lemma cfg_ack_step (w : world) (s : gbn_t) (h : bb_hdr_t) :
  cfg (fst (ack_step e w s h)) = cfg s.
Proof.
  unfold ack_step. destruct (_ && _); [|reflexivity].
  destruct (_ =? 0); reflexivity.
Qed.

Lemma cfg_recv (w : world) (s : gbn_t) (cap : Z) (got : chan_rx) :
  cfg (snd (fst (bb_proto_recv bld e w s cap got))) = cfg s.
Proof.
  unfold bb_proto_recv. destruct (have_in s); [reflexivity|].
  pose proof (rto_check_spec bld e w s) as [(E1 & _) _].
  destruct (rto_check bld e w s) as [s1 w1]. cbn [fst] in E1.
  destruct (rx_rn got <=? 0).
  { destruct (rx_rn got =? 0); [|exact E1].
    pose proof (rto_check_spec bld e w1 s1) as [(E2 & _) _].
    destruct (rto_check bld e w1 s1) as [s2 w2]. cbn [fst snd] in *. congruence. }
  destruct (bb_wire_parse bld (rx_ibuf got)) as [[h pl]|]; [|exact E1].
  pose proof (cfg_ack_step w1 s1 h) as E2.
  destruct (ack_step e w1 s1 h) as [s2 w2]. cbn [fst] in E2.
  destruct (Z.land (flags h) BB_FLAG_DATA =? 0); [cbn; congruence|].
  destruct (negb (seq_cmp (seq h) (rcv_nxt s2) =? 0)); cbn; congruence.
Qed.

(** *** The loops never run out of fuel *)

(** [send_loop] consumes at least one byte per round once [mss >= 1]: any
    fuel from [len - off] on gives the same result. *)
Lemma send_loop_fuel (f1 : nat) :
  forall (f2 : nat) (w : world) (s : gbn_t) (data : list byte) (len off : Z),
    1 <= mss (cfg s) ->
    len - off <= Z.of_nat f1 -> len - off <= Z.of_nat f2 ->
    send_loop bld e f1 w s data len off = send_loop bld e f2 w s data len off.
Proof.
  induction f1 as [|f1 IH]; intros f2 w s data len off Hmss H1 H2.
  - destruct f2; cbn [send_loop]; [reflexivity|].
    destruct (Z.ltb_spec off len); [lia|reflexivity].
  - destruct f2 as [|f2]; cbn [send_loop].
    { destruct (Z.ltb_spec off len); [lia|reflexivity]. }
    destruct (Z.ltb_spec off len) as [Hlt|_]; [|reflexivity].
    destruct (_ >=? wnd (cfg s)); [reflexivity|].
    match goal with |- context [send_frame bld e w s ?a ?b ?c] =>
      pose proof (send_frame_spec bld e w s a b c) as ((E & _) & _);
      destruct (send_frame bld e w s a b c) as [[r s1] w1] end.
    cbn [fst snd] in E. destruct (r <? 0); [reflexivity|].
    apply IH.
    + cbn. rewrite E. exact Hmss.
    + destruct (Z.gtb_spec (len - off) (mss (cfg s))); lia.
    + destruct (Z.gtb_spec (len - off) (mss (cfg s))); lia.
Qed.

(** [retransmit_loop] moves [q] one step closer to [snd_nxt] per round:
    any fuel from [seq_cmp snd_nxt q] on gives the same result. *)
Lemma retransmit_loop_fuel (f1 : nat) :
  forall (f2 : nat) (w : world) (s : gbn_t) (qq : Z),
    0 <= snd_nxt s < 2 ^ 32 -> 0 <= qq < 2 ^ 32 ->
    seq_cmp (snd_nxt s) qq <= Z.of_nat f1 -> seq_cmp (snd_nxt s) qq <= Z.of_nat f2 ->
    retransmit_loop bld e f1 w s qq = retransmit_loop bld e f2 w s qq.
Proof.
  induction f1 as [|f1 IH]; intros f2 w s qq Hn Hq H1 H2.
  - destruct f2; cbn [retransmit_loop]; [reflexivity|].
    destruct (Z.gtb_spec (seq_cmp (snd_nxt s) qq) 0); [lia|reflexivity].
  - destruct f2 as [|f2]; cbn [retransmit_loop].
    { destruct (Z.gtb_spec (seq_cmp (snd_nxt s) qq) 0); [lia|reflexivity]. }
    destruct (Z.gtb_spec (seq_cmp (snd_nxt s) qq) 0) as [Hpos|_]; [|reflexivity].
    destruct (_ >=? outlen s); [reflexivity|].
    match goal with |- context [send_frame bld e w s ?a ?b ?c] =>
      pose proof (send_frame_spec bld e w s a b c) as ((_ & _ & E & _) & _);
      destruct (send_frame bld e w s a b c) as [[r s1] w1] end.
    cbn [fst snd] in E.
    pose proof (seq_cmp_step (snd_nxt s) qq Hn Hq ltac:(lia)) as Hstep.
    apply IH; rewrite ?E; try apply u32_range; try assumption; lia.
Qed.

Lemma reachable_cfg (c : bb_proto_cfg_t) (P : list byte -> Prop) (s : gbn_t) (w : world) :
  reachable bld e c P s w -> cfg s = cfg (bb_proto_gbn_create c).
Proof.
  induction 1 as [w|s w data _ IH _|s w cap got _ IH _]; [reflexivity| |].
  - now rewrite cfg_send.
  - now rewrite cfg_recv.
Qed.

Lemma reachable_window_ok (c : bb_proto_cfg_t) (P : list byte -> Prop) (s : gbn_t) (w : world) :
  cfg_wf c -> wnd c < 2 ^ 31 ->
  reachable bld e c P s w -> window_ok s.
Proof.
  intros Hwf Hw31 Hr.
  induction Hr as [w|s w data Hr IH _|s w cap got Hr IH _].
  - apply window_ok_create, Hwf.
  - apply window_ok_send, IH.
  - apply window_ok_recv; [|exact IH].
    rewrite (reachable_cfg _ _ _ _ Hr). cbn. destruct (wnd c =? 0); lia.
Qed.

End Window.

End GbnFacts.

(** ** Go-Back-N: the retransmission timer, the latch, stale ACKs *)

Module GbnTimer.
Import Gbn GbnFacts.

(** Timer armed exactly when segments are outstanding, and a snapshot to
    retransmit them from. *)
Definition timer_inv (s : gbn_t) : Prop :=
  window_ok s /\ wnd (cfg s) < 2 ^ 31 /\
  (timer_running s = true <-> 0 < u32 (snd_nxt s - snd_una s)) /\
  (0 < u32 (snd_nxt s - snd_una s) -> 0 < outlen s).

Section Timer.

Variable bld : build.
Variable e : env.

Lemma timer_inv_create (c : bb_proto_cfg_t) :
  cfg_wf c -> wnd c < 2 ^ 31 -> timer_inv (bb_proto_gbn_create c).
Proof.
  intros Hwf Hw. split; [apply window_ok_create, Hwf|].
  unfold bb_proto_gbn_create. cbn. rewrite Z.sub_diag. change (u32 0) with 0.
  split; [destruct (wnd c =? 0); lia|]. split; [split; [discriminate|lia]|lia].
Qed.

Lemma timer_inv_send_loop (fuel : nat) :
  forall (w : world) (s : gbn_t) (data : list byte) (len off : Z),
    timer_inv s -> 0 < outlen s ->
    timer_inv (snd (fst (send_loop bld e fuel w s data len off))).
Proof.
  induction fuel as [|fuel IH]; intros w s data len off Hinv Hout; cbn [send_loop];
    [exact Hinv|].
  destruct (off <? len); [|exact Hinv].
  destruct (Z.geb_spec (u32 (snd_nxt s - snd_una s)) (wnd (cfg s))) as [Hfull|Hroom];
    [exact Hinv|].
  match goal with |- context [send_frame bld e w s ?a ?b ?c] =>
    pose proof (send_frame_spec bld e w s a b c) as (H1 & H2 & H3 & H4);
    destruct (send_frame bld e w s a b c) as [[r s1] w1] end.
  cbn [fst snd] in H1, H2, H3, H4.
  destruct (Z.ltb_spec r 0) as [Hneg|Hpos].
  { cbn [fst snd]. rewrite H4 by lia. exact Hinv. }
  assert (r = 0) by lia. subst r. specialize (H3 eq_refl).
  destruct Hinv as (Hok & Hw31 & Hrun & Hsnap).
  pose proof (window_ok_timer_only _ _ H1 Hok) as (Hu & Hn & Hw & Hd).
  destruct H1 as (E1 & E2 & E3 & E4 & E5 & _).
  rewrite <- E1, <- E2, <- E3 in Hroom. rewrite <- E1 in Hw31.
  assert (Hone : u32 (u32 (snd_nxt s1 + 1) - snd_una s1)
                 = u32 (snd_nxt s1 - snd_una s1) + 1) by (apply outstanding_succ; lia).
  pose proof (u32_range (snd_nxt s1 - snd_una s1)).
  apply IH.
  - unfold timer_inv, window_ok, set_snd_nxt, bb_next_seq, outlen in *. cbn.
    rewrite Hone, E5.
    repeat split; try lia; try apply u32_range; auto.
  - unfold outlen, set_snd_nxt in *. cbn. now rewrite E5.
Qed.

Lemma firstn_cut_length (data : list byte) :
  let len := Z.of_nat (length data) in
  let len := if len >? outcap then outcap else len in
  Z.of_nat (length (firstn (Z.to_nat len) data)) = len.
Proof.
  cbv zeta. rewrite length_firstn. unfold outcap.
  destruct (Z.gtb_spec (Z.of_nat (length data)) (64 * 1024)); lia.
Qed.

Lemma timer_inv_set_outbuf (s : gbn_t) (b : list byte) :
  0 < Z.of_nat (length b) -> timer_inv s -> timer_inv (set_outbuf s b).
Proof.
  intros Hb (Hok & Hw & Hrun & Hsnap).
  unfold timer_inv, window_ok, outlen, set_outbuf in *. cbn [cfg snd_una snd_nxt timer_running outbuf].
  tauto.
Qed.

Lemma timer_inv_send (w : world) (s : gbn_t) (data : list byte) :
  nonempty data -> timer_inv s ->
  timer_inv (snd (fst (bb_proto_send bld e w s data))).
Proof.
  intros Hne Hinv. unfold bb_proto_send.
  pose proof (firstn_cut_length data) as Hlen. cbv zeta in Hlen.
  assert (Hpos : 0 < Z.of_nat (length data)).
  { destruct data; [exfalso; now apply Hne|cbn [length]; lia]. }
  assert (Hcut : 0 < Z.of_nat (length (firstn (Z.to_nat
             (if Z.of_nat (length data) >? outcap then outcap
              else Z.of_nat (length data))) data))).
  { rewrite Hlen. unfold outcap. destruct (_ >? _); lia. }
  apply timer_inv_send_loop.
  - apply timer_inv_set_outbuf; assumption.
  - exact Hcut.
Qed.

Lemma timer_inv_rto_check (w : world) (s : gbn_t) :
  timer_inv s -> timer_inv (fst (rto_check bld e w s)).
Proof.
  intros (Hok & Hw31 & Hrun & Hsnap).
  pose proof (rto_check_spec bld e w s) as [T1 T2]. cbv zeta in T1, T2.
  pose proof (window_ok_timer_only _ _ T1 Hok) as Hok1.
  destruct T1 as (E1 & E2 & E3 & E4 & E5 & _).
  unfold timer_inv, outlen in *. rewrite E1, E2, E3, E5.
  split; [exact Hok1|]. split; [exact Hw31|]. split; [|exact Hsnap].
  destruct T2 as [T2|(Hd & Hr & T2)]; [now rewrite T2|].
  destruct Hok as (_ & _ & Hw & Hle).
  rewrite seq_cmp_outstanding in Hd by lia.
  rewrite T2. destruct (Z.eqb_spec (Z.of_nat (length (outbuf s))) 0) as [E0|_].
  - specialize (Hsnap ltac:(lia)). lia.
  - cbn. split; [intros _; lia|reflexivity].
Qed.

Lemma timer_inv_ack_step (w : world) (s : gbn_t) (h : bb_hdr_t) :
  0 <= ack h < 2 ^ 32 ->
  timer_inv s -> timer_inv (fst (ack_step e w s h)).
Proof.
  intros Ha (Hok & Hw31 & Hrun & Hsnap).
  pose proof (window_ok_ack_step e w s h Ha Hw31 Hok) as Hok'.
  pose proof (cfg_ack_step e w s h) as Hc.
  unfold ack_step in *.
  destruct (Z.geb_spec (seq_cmp (ack h) (snd_una s)) 0) as [H1|H1];
    [|cbn; unfold timer_inv; tauto].
  destruct (Z.leb_spec (seq_cmp (ack h) (snd_nxt s)) 0) as [H2|H2];
    [|cbn; unfold timer_inv; tauto].
  cbn [andb] in *.
  destruct Hok as (Hu & Hn & Hw & Hd).
  pose proof (ack_in_window (snd_una s) (snd_nxt s) (ack h) Hu Hn Ha
                ltac:(lia) ltac:(lia) H2) as E.
  pose proof (u32_range (ack h - snd_una s)).
  pose proof (u32_range (snd_nxt s - ack h)).
  pose proof (seq_cmp_zero_iff (ack h) (snd_nxt s) Ha Hn) as Hz.
  assert (Hd0 : u32 (snd_nxt s - ack h) = 0 <-> ack h = snd_nxt s).
  { destruct (u32_diff_cases (snd_nxt s) (ack h) Hn Ha) as [[? E1]|[? E1]];
      rewrite E1; lia. }
  change (snd_una (set_snd_una s (ack h))) with (ack h) in *.
  change (snd_nxt (set_snd_una s (ack h))) with (snd_nxt s) in *.
  destruct (Z.eqb_spec (seq_cmp (ack h) (snd_nxt s)) 0) as [Eq|Ne].
  - cbn [fst] in *. unfold timer_inv, outlen. cbn.
    split; [exact Hok'|]. split; [exact Hw31|].
    split; [split; [discriminate|lia]|lia].
  - destruct (start_timer_spec e w (set_snd_una s (ack h))) as [T1 T2].
    destruct T1 as (E1 & E2 & E3 & E4 & E5 & _).
    unfold timer_inv, outlen. rewrite E1, E2, E3, E5, T2. cbn.
    split; [exact Hok'|]. split; [exact Hw31|].
    split; [split; [lia|reflexivity]|]. unfold outlen in Hsnap. lia.
Qed.

Lemma timer_inv_same_core (s s' : gbn_t) :
  cfg s' = cfg s -> snd_una s' = snd_una s -> snd_nxt s' = snd_nxt s ->
  timer_running s' = timer_running s -> outbuf s' = outbuf s ->
  timer_inv s -> timer_inv s'.
Proof.
  unfold timer_inv, window_ok, outlen. intros -> -> -> -> ->. tauto.
Qed.

Lemma timer_inv_recv (w : world) (s : gbn_t) (cap : Z) (got : chan_rx) :
  timer_inv s -> timer_inv (snd (fst (bb_proto_recv bld e w s cap got))).
Proof.
  intros Hinv. unfold bb_proto_recv.
  destruct (have_in s).
  { cbn [fst snd]. eapply timer_inv_same_core; [..|exact Hinv]; reflexivity. }
  pose proof (timer_inv_rto_check w s Hinv) as H1.
  destruct (rto_check bld e w s) as [s1 w1]. cbn [fst] in H1.
  destruct (rx_rn got <=? 0).
  { destruct (rx_rn got =? 0); [|exact H1].
    pose proof (timer_inv_rto_check w1 s1 H1) as H2.
    destruct (rto_check bld e w1 s1) as [s2 w2]. exact H2. }
  destruct (bb_wire_parse bld (rx_ibuf got)) as [[h pl]|] eqn:Hp; [|exact H1].
  pose proof (timer_inv_ack_step w1 s1 h (parsed_ack_range _ _ _ _ Hp) H1) as H2.
  destruct (ack_step e w1 s1 h) as [s2 w2]. cbn [fst] in H2.
  destruct (Z.land (flags h) BB_FLAG_DATA =? 0); [exact H2|].
  destruct (negb (seq_cmp (seq h) (rcv_nxt s2) =? 0)); [exact H2|].
  cbn [fst snd]. eapply timer_inv_same_core; [..|exact H2]; reflexivity.
Qed.

Lemma reachable_timer_inv (c : bb_proto_cfg_t) (s : gbn_t) (w : world) :
  cfg_wf c -> wnd c < 2 ^ 31 ->
  reachable bld e c nonempty s w -> timer_inv s.
Proof.
  intros Hwf Hw31 Hr.
  induction Hr as [w|s w data Hr IH Hne|s w cap got Hr IH _].
  - apply timer_inv_create; assumption.
  - apply timer_inv_send; assumption.
  - apply timer_inv_recv, IH.
Qed.

(** *** The delivery latch *)

Lemma have_in_send_loop (fuel : nat) :
  forall (w : world) (s : gbn_t) (data : list byte) (len off : Z),
    have_in (snd (fst (send_loop bld e fuel w s data len off))) = have_in s.
Proof.
  induction fuel as [|fuel IH]; intros w s data len off; cbn [send_loop]; [reflexivity|].
  destruct (off <? len); [|reflexivity].
  destruct (_ >=? wnd (cfg s)); [reflexivity|].
  match goal with |- context [send_frame bld e w s ?a ?b ?c] =>
    pose proof (send_frame_spec bld e w s a b c) as (H1 & _);
    destruct (send_frame bld e w s a b c) as [[r s1] w1] end.
  destruct H1 as (_ & _ & _ & _ & _ & _ & E). cbn [fst snd] in E.
  destruct (r <? 0); [exact E|]. rewrite IH. exact E.
Qed.

Lemma have_in_ack_step (w : world) (s : gbn_t) (h : bb_hdr_t) :
  have_in (fst (ack_step e w s h)) = have_in s.
Proof.
  unfold ack_step. destruct (_ && _); [|reflexivity].
  destruct (_ =? 0); reflexivity.
Qed.

(** What one [bb_proto_recv] call does when the latch is empty: the latch
    stays empty, and bytes are delivered only out of the frame parsed in
    this very call. *)
Lemma recv_direct (w : world) (s : gbn_t) (cap : Z) (got : chan_rx) :
  have_in s = false ->
  let r := bb_proto_recv bld e w s cap got in
  have_in (snd (fst r)) = false /\
  (0 < fst (fst (fst r)) ->
   exists (h : bb_hdr_t) (pl : list byte),
     bb_wire_parse bld (rx_ibuf got) = Some (h, pl) /\
     snd (fst (fst r)) = firstn (Z.to_nat (fst (fst (fst r)))) pl).
Proof.
  intros Hin. unfold bb_proto_recv. rewrite Hin.
  pose proof (rto_check_spec bld e w s) as [(_ & _ & _ & _ & _ & _ & E1) _].
  destruct (rto_check bld e w s) as [s1 w1]. cbn [fst] in E1.
  destruct (Z.leb_spec (rx_rn got) 0) as [Hrn|Hrn].
  { assert (Hx : have_in (fst (if rx_rn got =? 0 then rto_check bld e w1 s1 else (s1, w1)))
                 = false).
    { destruct (rx_rn got =? 0); [|cbn; congruence].
      pose proof (rto_check_spec bld e w1 s1) as [(_ & _ & _ & _ & _ & _ & E2) _].
      cbv zeta in E2. congruence. }
    destruct (if rx_rn got =? 0 then rto_check bld e w1 s1 else (s1, w1)) as [s2 w2].
    cbn [fst snd] in *. split; [exact Hx|lia]. }
  destruct (bb_wire_parse bld (rx_ibuf got)) as [[h pl]|];
    [|cbn; split; [congruence|lia]].
  pose proof (have_in_ack_step w1 s1 h) as E2.
  destruct (ack_step e w1 s1 h) as [s2 w2]. cbn [fst] in E2.
  destruct (Z.land (flags h) BB_FLAG_DATA =? 0); [cbn; split; [congruence|lia]|].
  destruct (negb (seq_cmp (seq h) (rcv_nxt s2) =? 0)); [cbn; split; [congruence|lia]|].
  cbn [fst snd]. split; [cbn; congruence|]. intros _. exists h, pl. auto.
Qed.

Lemma reachable_latch_empty (c : bb_proto_cfg_t) (s : gbn_t) (w : world) :
  reachable bld e c any_data s w -> have_in s = false.
Proof.
  induction 1 as [w|s w data Hr IH _|s w cap got Hr IH _].
  - reflexivity.
  - unfold bb_proto_send. rewrite have_in_send_loop. exact IH.
  - apply (recv_direct w s cap got IH).
Qed.

End Timer.

End GbnTimer.

(** ** Selective Repeat: the window invariant *)

Module SrFacts.
Import Sr Timer.

Definition round_state (r : round) : sr_t :=
  match r with Continue s _ _ => s | Return _ s _ => s end.
Definition round_world (r : round) : world :=
  match r with Continue _ w _ => w | Return _ _ w => w end.
Definition outcome_state (o : outcome) : sr_t :=
  match o with Returned _ s _ => s | Looping s _ _ => s end.
Definition outcome_world (o : outcome) : world :=
  match o with Returned _ _ w => w | Looping _ w _ => w end.

(** The states a Selective-Repeat engine goes through: created, then
    rounds of the two loops of [bb_proto_send] (under their loop guards)
    and calls of [bb_proto_recv]; a state inside a [bb_proto_send] that has
    not returned yet counts. *)
Inductive reachable (bld : build) (e : env) (c : bb_proto_cfg_t) : sr_t -> world -> Prop :=
| reach_create (w : world) :
    reachable bld e c (bb_proto_sr_create c) w
| reach_send_round (s : sr_t) (w : world) (data : list byte) (off : Z) (got : chan_rx) :
    reachable bld e c s w -> off < Z.of_nat (length data) ->
    reachable bld e c (round_state (send_round bld e w s data off got))
                      (round_world (send_round bld e w s data off got))
| reach_drain_round (s : sr_t) (w : world) (got : chan_rx) :
    reachable bld e c s w -> seq_cmp (snd_una s) (snd_nxt s) < 0 ->
    reachable bld e c (fst (drain_round bld e w s got)) (snd (drain_round bld e w s got))
| reach_recv (s : sr_t) (w : world) (cap : Z) (got : chan_rx) :
    reachable bld e c s w -> 0 <= cap ->
    reachable bld e c (snd (fst (bb_proto_recv bld e w s cap got)))
                      (snd (bb_proto_recv bld e w s cap got)).

(** Two states with the same configuration and send window. *)
Definition same_window (s s' : sr_t) : Prop :=
  cfg s' = cfg s /\ snd_una s' = snd_una s /\ snd_nxt s' = snd_nxt s.

Lemma same_window_refl (s : sr_t) : same_window s s.
Proof. unfold same_window. tauto. Qed.

Lemma same_window_trans (a b c : sr_t) :
  same_window a b -> same_window b c -> same_window a c.
Proof. unfold same_window. intuition congruence. Qed.

Definition window_ok (s : sr_t) : Prop :=
  0 <= snd_una s < 2 ^ 32 /\ 0 <= snd_nxt s < 2 ^ 32 /\
  0 <= wnd (cfg s) <= BB_MAX_WND /\
  u32 (snd_nxt s - snd_una s) <= wnd (cfg s).

Lemma window_ok_same (s s' : sr_t) : same_window s s' -> window_ok s -> window_ok s'.
Proof. unfold same_window, window_ok. intros (-> & -> & ->). tauto. Qed.

Section Steps.

Variable bld : build.
Variable e : env.

Lemma sr_window_ok_create (c : bb_proto_cfg_t) : cfg_wf c -> window_ok (bb_proto_sr_create c).
Proof.
  intros (Hi & Hw & _). unfold window_ok, bb_proto_sr_create, BB_MAX_WND. cbn.
  rewrite Z.sub_diag. change (u32 0) with 0.
  destruct (wnd c =? 0); [cbn; lia|].
  destruct (Z.gtb_spec (wnd c) 256); lia.
Qed.

(** Releasing acknowledged slots keeps the window: [snd_una] only moves
    towards the ACK, which lies inside the window. *)
Lemma consume_loop_ok (fuel : nat) :
  forall (s : sr_t) (a : Z),
    0 <= a < 2 ^ 32 -> window_ok s ->
    u32 (a - snd_una s) <= u32 (snd_nxt s - snd_una s) ->
    window_ok (consume_loop fuel s a).
Proof.
  induction fuel as [|fuel IH]; intros s a Ha Hok Hle; cbn [consume_loop]; [exact Hok|].
  destruct (Z.ltb_spec (seq_cmp (snd_una s) a) 0) as [Hlt|_]; [|exact Hok].
  destruct Hok as (Hu & Hn & Hw & Hd).
  assert (Hx : 0 < u32 (a - snd_una s)).
  { pose proof (u32_range (a - snd_una s)).
    destruct (Z.eq_dec (u32 (a - snd_una s)) 0) as [E|]; [|lia].
    assert (a = snd_una s).
    { destruct (u32_diff_cases a (snd_una s) Ha Hu) as [[? E1]|[? E1]]; rewrite E1 in E; lia. }
    subst a. unfold seq_cmp in Hlt. rewrite Z.sub_diag in Hlt. cbn in Hlt. lia. }
  set (s1 := if tx_inuse (tx_at s (wrap_idx (snd_una s) (wnd (cfg s)))) then _ else s).
  assert (Hs1 : same_window s s1).
  { subst s1. destruct (tx_inuse _); [|apply same_window_refl].
    unfold same_window. cbn. tauto. }
  destruct Hs1 as (E1 & E2 & E3). rewrite E2.
  apply IH; [exact Ha| |].
  - unfold window_ok, set_snd_una. cbn. rewrite E1, E3.
    rewrite outstanding_pred by lia.
    repeat split; try lia; apply u32_range.
  - unfold set_snd_una. cbn. rewrite E3.
    rewrite !outstanding_pred by lia. lia.
Qed.

Lemma consume_ack_ok (s : sr_t) (h : bb_hdr_t) :
  0 <= ack h < 2 ^ 32 -> window_ok s -> window_ok (consume_ack_any s h).
Proof.
  intros Ha Hok. unfold consume_ack_any.
  destruct (Z.geb_spec (seq_cmp (ack h) (snd_una s)) 0) as [H1|H1]; [|exact Hok].
  destruct (Z.leb_spec (seq_cmp (ack h) (snd_nxt s)) 0) as [H2|H2]; [|exact Hok].
  cbn [andb]. apply consume_loop_ok; [exact Ha|exact Hok|].
  destruct Hok as (Hu & Hn & Hw & Hd). unfold BB_MAX_WND in Hw.
  pose proof (ack_in_window (snd_una s) (snd_nxt s) (ack h) Hu Hn Ha
                ltac:(lia) ltac:(lia) H2) as E.
  pose proof (u32_range (snd_nxt s - ack h)). lia.
Qed.

Lemma cfg_consume_loop (fuel : nat) :
  forall (s : sr_t) (a : Z), cfg (consume_loop fuel s a) = cfg s.
Proof.
  induction fuel as [|fuel IH]; intros s a; cbn [consume_loop]; [reflexivity|].
  destruct (_ <? 0); [|reflexivity]. rewrite IH.
  destruct (tx_inuse _); reflexivity.
Qed.

Lemma cfg_consume_ack (s : sr_t) (h : bb_hdr_t) : cfg (consume_ack_any s h) = cfg s.
Proof. unfold consume_ack_any. destruct (_ && _); [apply cfg_consume_loop|reflexivity]. Qed.

Lemma poll_acks_ok (s : sr_t) (got : chan_rx) :
  window_ok s -> window_ok (poll_acks bld s got).
Proof.
  intros Hok. unfold poll_acks. destruct (_ >? 0); [|exact Hok].
  destruct (bb_wire_parse bld (rx_ibuf got)) as [[h pl]|] eqn:Hp; [|exact Hok].
  apply consume_ack_ok; [|exact Hok]. eapply parsed_ack_range, Hp.
Qed.

Lemma cfg_poll_acks (s : sr_t) (got : chan_rx) : cfg (poll_acks bld s got) = cfg s.
Proof.
  unfold poll_acks. destruct (_ >? 0); [|reflexivity].
  destruct (bb_wire_parse bld (rx_ibuf got)) as [[h pl]|]; [apply cfg_consume_ack|reflexivity].
Qed.

Lemma retransmit_scan_same (fuel : nat) :
  forall (w : world) (s : sr_t) (qq : Z),
    same_window s (fst (retransmit_scan bld e fuel w s qq)).
Proof.
  induction fuel as [|fuel IH]; intros w s qq; cbn [retransmit_scan];
    [apply same_window_refl|].
  destruct (_ >? 0); [|apply same_window_refl].
  match goal with |- same_window s (fst (let '(s0, w0) := ?X in _)) =>
    assert (H : same_window s (fst X)); [|destruct X as [s1 w1]] end.
  { destruct (tx_inuse _); [|apply same_window_refl].
    destruct (bb_timer_expired e w _) as [x w1]. destruct x; [|apply same_window_refl].
    destruct (send_frame bld e w1 s qq _ _) as [r w2].
    destruct (bb_timer_arm e w2 _) as [t w3]. unfold same_window. cbn. tauto. }
  cbn [fst] in H. eapply same_window_trans; [exact H|apply IH].
Qed.

Lemma retransmit_expired_same (w : world) (s : sr_t) :
  same_window s (fst (retransmit_expired bld e w s)).
Proof. apply retransmit_scan_same. Qed.

Lemma send_round_ok (w : world) (s : sr_t) (data : list byte) (off : Z) (got : chan_rx) :
  window_ok s -> window_ok (round_state (send_round bld e w s data off got)).
Proof.
  intros Hok. unfold send_round.
  pose proof (poll_acks_ok s got Hok) as H1.
  pose proof (retransmit_expired_same w (poll_acks bld s got)) as H2.
  destruct (retransmit_expired bld e w (poll_acks bld s got)) as [s1 w1]. cbn [fst] in H2.
  pose proof (window_ok_same _ _ H2 H1) as Hok1.
  destruct (Z.geb_spec (u32 (snd_nxt s1 - snd_una s1)) (wnd (cfg s1))) as [Hfull|Hroom];
    [exact Hok1|].
  destruct (send_frame bld e w1 s1 _ _ _) as [r w2].
  destruct (r <? 0); [exact Hok1|].
  destruct (bb_timer_arm e w2 _) as [t w3]. cbn [round_state].
  destruct Hok1 as (Hu & Hn & Hw & Hd). unfold BB_MAX_WND in Hw.
  unfold window_ok, set_snd_nxt, set_tx, BB_MAX_WND. cbn.
  rewrite outstanding_succ by lia.
  repeat split; try lia; apply u32_range.
Qed.

Lemma drain_round_ok (w : world) (s : sr_t) (got : chan_rx) :
  window_ok s -> window_ok (fst (drain_round bld e w s got)).
Proof.
  intros Hok. unfold drain_round.
  eapply window_ok_same; [apply retransmit_expired_same|apply poll_acks_ok, Hok].
Qed.

Lemma drain_buffered_same (fuel : nat) :
  forall s : sr_t, same_window s (drain_buffered fuel s).
Proof.
  induction fuel as [|fuel IH]; intros s; cbn [drain_buffered]; [apply same_window_refl|].
  destruct (rx_present _); [|apply same_window_refl].
  eapply same_window_trans; [|apply IH]. unfold same_window. cbn. tauto.
Qed.

Lemma recv_ok (w : world) (s : sr_t) (cap : Z) (got : chan_rx) :
  window_ok s -> window_ok (snd (fst (bb_proto_recv bld e w s cap got))).
Proof.
  intros Hok. unfold bb_proto_recv.
  destruct (rx_rn got <=? 0); [exact Hok|].
  destruct (bb_wire_parse bld (rx_ibuf got)) as [[h pl]|] eqn:Hp; [|exact Hok].
  pose proof (consume_ack_ok s h (parsed_ack_range _ _ _ _ Hp) Hok) as H1.
  set (s1 := consume_ack_any s h) in *.
  destruct (Z.land (flags h) BB_FLAG_DATA =? 0); [exact H1|].
  destruct (_ >=? 0); [exact H1|]. destruct (_ <? 0); [exact H1|].
  set (s2 := if rx_present _ then s1 else _).
  assert (H2 : same_window s1 s2).
  { subst s2. destruct (rx_present _); [apply same_window_refl|].
    unfold same_window. cbn. tauto. }
  pose proof (window_ok_same _ _ H2 H1) as Hok2.
  destruct (seq h =? rcv_nxt s2); [|exact Hok2].
  cbn [fst snd]. eapply window_ok_same; [|exact Hok2].
  eapply same_window_trans; [|apply drain_buffered_same].
  unfold same_window. cbn. tauto.
Qed.

(** *** The loops never run out of fuel *)

Lemma consume_loop_fuel (f1 : nat) :
  forall (f2 : nat) (s : sr_t) (a : Z),
    0 <= a < 2 ^ 32 -> 0 <= snd_una s < 2 ^ 32 ->
    0 <= seq_cmp a (snd_una s) ->
    seq_cmp a (snd_una s) <= Z.of_nat f1 -> seq_cmp a (snd_una s) <= Z.of_nat f2 ->
    consume_loop f1 s a = consume_loop f2 s a.
Proof.
  induction f1 as [|f1 IH]; intros f2 s a Ha Hu H0 H1 H2.
  - destruct f2; cbn [consume_loop]; [reflexivity|].
    destruct (Z.ltb_spec (seq_cmp (snd_una s) a) 0) as [Hlt|_]; [|reflexivity].
    pose proof (seq_cmp_antisym_neg a (snd_una s) Ha Hu ltac:(lia) Hlt). lia.
  - destruct f2 as [|f2]; cbn [consume_loop].
    { destruct (Z.ltb_spec (seq_cmp (snd_una s) a) 0) as [Hlt|_]; [|reflexivity].
      pose proof (seq_cmp_antisym_neg a (snd_una s) Ha Hu ltac:(lia) Hlt). lia. }
    destruct (Z.ltb_spec (seq_cmp (snd_una s) a) 0) as [Hlt|_]; [|reflexivity].
    pose proof (seq_cmp_antisym_neg a (snd_una s) Ha Hu ltac:(lia) Hlt) as Hpos.
    pose proof (seq_cmp_step a (snd_una s) Ha Hu Hpos) as Hstep.
    set (s1 := if tx_inuse (tx_at s (wrap_idx (snd_una s) (wnd (cfg s)))) then _ else s).
    assert (E : snd_una s1 = snd_una s) by (subst s1; destruct (tx_inuse _); reflexivity).
    rewrite E.
    apply IH; cbn [snd_una set_snd_una]; try apply u32_range; try assumption; lia.
Qed.

Lemma retransmit_scan_fuel (f1 : nat) :
  forall (f2 : nat) (w : world) (s : sr_t) (qq : Z),
    0 <= snd_nxt s < 2 ^ 32 -> 0 <= qq < 2 ^ 32 ->
    seq_cmp (snd_nxt s) qq <= Z.of_nat f1 -> seq_cmp (snd_nxt s) qq <= Z.of_nat f2 ->
    retransmit_scan bld e f1 w s qq = retransmit_scan bld e f2 w s qq.
Proof.
  induction f1 as [|f1 IH]; intros f2 w s qq Hn Hq H1 H2.
  - destruct f2; cbn [retransmit_scan]; [reflexivity|].
    destruct (Z.gtb_spec (seq_cmp (snd_nxt s) qq) 0); [lia|reflexivity].
  - destruct f2 as [|f2]; cbn [retransmit_scan].
    { destruct (Z.gtb_spec (seq_cmp (snd_nxt s) qq) 0); [lia|reflexivity]. }
    destruct (Z.gtb_spec (seq_cmp (snd_nxt s) qq) 0) as [Hpos|_]; [|reflexivity].
    pose proof (seq_cmp_step (snd_nxt s) qq Hn Hq ltac:(lia)) as Hstep.
    match goal with |- (let '(s0, w0) := ?X in _) = _ =>
      assert (E : snd_nxt (fst X) = snd_nxt s); [|destruct X as [s1 w1]] end.
    { destruct (tx_inuse _); [|reflexivity].
      destruct (bb_timer_expired e w _) as [x w1]. destruct x; [|reflexivity].
      destruct (send_frame bld e w1 s qq _ _) as [r w2].
      destruct (bb_timer_arm e w2 _) as [t w3]. reflexivity. }
    cbn [fst] in E.
    apply IH; rewrite ?E; try apply u32_range; try assumption; lia.
Qed.

(** The buffered-prefix drain clears one [present] flag per round. *)
Definition present_count (l : list rx_slot) : nat :=
  length (filter rx_present l).

Lemma present_count_store (l : list rx_slot) :
  forall (i : nat) (x : rx_slot),
    rx_present (nth i l rx_empty) = true -> rx_present x = false ->
    S (present_count (store l i x)) = present_count l.
Proof.
  unfold present_count.
  induction l as [|h t IH]; intros i x Hp Hx.
  - destruct i; discriminate.
  - destruct i as [|i]; cbn [store nth filter] in *.
    + rewrite Hp, Hx. reflexivity.
    + destruct (rx_present h); cbn [length]; rewrite <- (IH i x Hp Hx); reflexivity.
Qed.

Lemma drain_buffered_fuel (f1 : nat) :
  forall (f2 : nat) (s : sr_t),
    (present_count (rx s) <= f1)%nat -> (present_count (rx s) <= f2)%nat ->
    drain_buffered f1 s = drain_buffered f2 s.
Proof.
  induction f1 as [|f1 IH]; intros f2 s H1 H2.
  - destruct f2; cbn [drain_buffered]; [reflexivity|].
    destruct (rx_present (rx_at s _)) eqn:Hp; [|reflexivity].
    pose proof (present_count_store (rx s) _ rx_empty Hp eq_refl). lia.
  - destruct f2 as [|f2]; cbn [drain_buffered].
    { destruct (rx_present (rx_at s _)) eqn:Hp; [|reflexivity].
      pose proof (present_count_store (rx s) _ rx_empty Hp eq_refl). lia. }
    destruct (rx_present (rx_at s _)) eqn:Hp; [|reflexivity].
    match goal with |- context [set_rx s ?j ?x] =>
      pose proof (present_count_store (rx s) (Z.to_nat j) x Hp eq_refl) as Hc end.
    apply IH; cbn [rx set_rcv_nxt set_rx]; lia.
Qed.

Lemma present_count_le_length (l : list rx_slot) : (present_count l <= length l)%nat.
Proof. apply filter_length_le. Qed.

Lemma sr_reachable_window_ok (c : bb_proto_cfg_t) (s : sr_t) (w : world) :
  cfg_wf c -> reachable bld e c s w -> window_ok s.
Proof.
  intros Hwf Hr.
  induction Hr as [w|s w data off got _ IH _|s w got _ IH _|s w cap got _ IH _].
  - apply sr_window_ok_create, Hwf.
  - apply send_round_ok, IH.
  - apply drain_round_ok, IH.
  - apply recv_ok, IH.
Qed.

(** Every state a call of [bb_proto_send] returns in, or is still looping
    in when the channel answers run out, is one of the reachable ones. *)
Lemma send_from_reachable (c : bb_proto_cfg_t) (rxs : list chan_rx) :
  forall (w : world) (s : sr_t) (data : list byte) (off : Z),
    reachable bld e c s w ->
    reachable bld e c (outcome_state (send_from bld e rxs w s data off))
                      (outcome_world (send_from bld e rxs w s data off)).
Proof.
  induction rxs as [|got rest IH]; intros w s data off Hr; cbn [send_from].
  - destruct (off <? _); [exact Hr|]. destruct (_ <? 0); exact Hr.
  - destruct (Z.ltb_spec off (Z.of_nat (length data))) as [Hoff|_].
    + pose proof (reach_send_round bld e c s w data off got Hr Hoff) as H1.
      destruct (send_round bld e w s data off got) as [s1 w1 off1|r s1 w1];
        cbn [round_state round_world] in H1; [apply IH, H1|exact H1].
    + destruct (Z.ltb_spec (seq_cmp (snd_una s) (snd_nxt s)) 0) as [Hd|_]; [|exact Hr].
      pose proof (reach_drain_round bld e c s w got Hr Hd) as H1.
      destruct (drain_round bld e w s got) as [s1 w1]. apply IH, H1.
Qed.

End Steps.

End SrFacts.

(** ** Go-Back-N: timer, stale ACKs and latch against the specification *)

Section GbnClaims.
Import Gbn GbnFacts GbnTimer.

(** A clock that advances one second per reading, over a channel that
    accepts every frame. *)
Definition second_per_read : env :=
  {| now_ns := fun k => Z.of_nat k * 1000000000; send_ret := fun _ => 1 |}.

(** The configuration of the spec's first scenario; zero fields take the
    defaults (window 32, segments of 512 bytes, 120 ms). *)
Definition scenario_cfg : bb_proto_cfg_t :=
  {| init_seq := 1; wnd := 0; mss := 0; rto_ms := 0 |}.

Definition abc : list byte := [Byte.x41; Byte.x42; Byte.x43].

Definition after_abc : gbn_t :=
  snd (fst (bb_proto_send portable second_per_read world0
              (bb_proto_gbn_create scenario_cfg) abc)).

(** C4 (as amended: the sends carry at least one byte and the window is
    below 2^31).  In every state reachable by create, non-empty sends and
    recvs the retransmission timer is armed exactly when a segment is
    outstanding, [seq_cmp(snd_nxt, snd_una) > 0]. *)
Theorem timer_armed_iff_outstanding (bld : build) (e : env) (c : bb_proto_cfg_t)
    (s : gbn_t) (w : world) :
  cfg_wf c -> wnd c < 2 ^ 31 ->
  reachable bld e c nonempty s w ->
  (timer_running s = true <-> seq_cmp (snd_nxt s) (snd_una s) > 0).
Proof.
  intros Hwf Hw Hr.
  destruct (reachable_timer_inv bld e c s w Hwf Hw Hr) as (Hok & Hw31 & Hrun & _).
  destruct Hok as (_ & _ & _ & Hd).
  rewrite seq_cmp_outstanding by lia. rewrite Hrun. lia.
Qed.

Lemma scenario_cfg_wf : cfg_wf scenario_cfg.
Proof. unfold cfg_wf, scenario_cfg. cbn. lia. Qed.

Lemma timer_armed_iff_outstanding_witness :
  timer_running after_abc = true <-> seq_cmp (snd_nxt after_abc) (snd_una after_abc) > 0.
Proof.
  apply (timer_armed_iff_outstanding portable second_per_read scenario_cfg after_abc
           (snd (bb_proto_send portable second_per_read world0
                   (bb_proto_gbn_create scenario_cfg) abc))).
  - exact scenario_cfg_wf.
  - cbn. lia.
  - apply reach_send; [apply reach_create|discriminate].
Defined.

(** C4 as stated fails: send "ABC", then a zero-length send, then a recv
    that times out after the deadline.  The expiry handler finds the
    snapshot empty and stops the timer with segment 1 still outstanding. *)
Lemma timer_counterexample :
  let s1 := after_abc in
  let r2 := bb_proto_send portable second_per_read
              (snd (bb_proto_send portable second_per_read world0
                      (bb_proto_gbn_create scenario_cfg) abc)) s1 [] in
  let r3 := bb_proto_recv portable second_per_read (snd r2) (snd (fst r2)) 64 RxTimeout in
  let s3 := snd (fst r3) in
  reachable portable second_per_read scenario_cfg any_data s3 (snd r3) /\
  timer_running s3 = false /\
  seq_cmp (snd_nxt s3) (snd_una s3) = 1 /\
  seq_cmp (snd_una s3) (snd_nxt s3) = -1.
Proof.
  cbv zeta. split.
  - apply reach_recv; [|lia]. apply reach_send; [|exact I].
    apply reach_send; [apply reach_create|exact I].
  - vm_compute. auto.
Qed.

(** C5 (as amended: "non-positively" becomes "negatively").  An ACK whose
    field compares negative against [snd_una] is ignored: the ACK-handling
    step leaves the whole engine, timer included, as it was, and does not
    read the clock.  An ACK equal to [snd_una] leaves [snd_una] and
    [snd_nxt] alone but is accepted: it stops the timer when the window is
    empty and otherwise restarts it from the current clock. *)
Theorem stale_ack_ignored (e : env) (w : world) (s : gbn_t) (h : bb_hdr_t) :
  0 <= ack h < 2 ^ 32 -> 0 <= snd_una s < 2 ^ 32 ->
  seq_cmp (ack h) (snd_una s) <= 0 ->
  let s' := fst (ack_step e w s h) in
  snd_una s' = snd_una s /\ snd_nxt s' = snd_nxt s /\
  (seq_cmp (ack h) (snd_una s) < 0 -> ack_step e w s h = (s, w)) /\
  (seq_cmp (ack h) (snd_una s) = 0 -> seq_cmp (ack h) (snd_nxt s) <= 0 ->
   timer_running s' = negb (seq_cmp (snd_una s) (snd_nxt s) =? 0) /\
   (timer_running s' = true ->
    timer_ts s' = u64 (now_ns e (clock_reads w) + u64 (rto_ms (cfg s) * 1000000)))).
Proof.
  intros Ha Hu Hle. cbv zeta. unfold ack_step.
  destruct (Z.geb_spec (seq_cmp (ack h) (snd_una s)) 0) as [H1|H1].
  - assert (E0 : seq_cmp (ack h) (snd_una s) = 0) by lia.
    destruct (seq_cmp_zero_iff (ack h) (snd_una s) Ha Hu) as [Hz _].
    apply Hz in E0. clear Hz.
    rewrite E0 in *.
    destruct (Z.leb_spec (seq_cmp (snd_una s) (snd_nxt s)) 0) as [H2|H2]; cbn [andb].
    + change (snd_una (set_snd_una s (snd_una s))) with (snd_una s).
      change (snd_nxt (set_snd_una s (snd_una s))) with (snd_nxt s).
      destruct (seq_cmp (snd_una s) (snd_nxt s) =? 0); cbn;
        repeat split; intros; try lia; try reflexivity; try discriminate.
    + cbn. repeat split; intros; try lia; try reflexivity.
  - cbn. repeat split; intros; try lia; try reflexivity.
Qed.

(** An ACK frame carrying [ack = 1], as a peer that has received nothing
    in order sends it. *)
Definition ack_of_1 : list byte := snd (bb_wire_pack portable 64 BB_FLAG_ACK 0 1 [] 0).

Definition old_hdr : bb_hdr_t :=
  {| magic := BB_MAGIC; flags := BB_FLAG_ACK; hdrlen := 10; seq := 0; ack := 0;
     len := 0; crc32c := 0 |}.

Lemma stale_ack_ignored_witness :
  let s' := fst (ack_step second_per_read world0 after_abc old_hdr) in
  snd_una s' = snd_una after_abc /\ snd_nxt s' = snd_nxt after_abc /\
  (seq_cmp (ack old_hdr) (snd_una after_abc) < 0 ->
   ack_step second_per_read world0 after_abc old_hdr = (after_abc, world0)) /\
  (seq_cmp (ack old_hdr) (snd_una after_abc) = 0 ->
   seq_cmp (ack old_hdr) (snd_nxt after_abc) <= 0 ->
   timer_running s' = negb (seq_cmp (snd_una after_abc) (snd_nxt after_abc) =? 0) /\
   (timer_running s' = true ->
    timer_ts s' = u64 (now_ns second_per_read (clock_reads world0)
                       + u64 (rto_ms (cfg after_abc) * 1000000)))).
Proof.
  apply (stale_ack_ignored second_per_read world0 after_abc old_hdr).
  - cbn. lia.
  - vm_compute. split; congruence.
  - vm_compute. congruence.
Defined.

(** A clock that advances one millisecond per reading. *)
Definition ms_per_read : env :=
  {| now_ns := fun k => Z.of_nat k * 1000000; send_ret := fun _ => 1 |}.

(** C5 as stated fails: after sending "ABC" (sequence 1 outstanding, timer
    due at 120 ms) a repeated ACK for [snd_una] itself is accepted and
    moves the deadline to 122 ms, two clock readings later. *)
Lemma duplicate_ack_counterexample :
  let r1 := bb_proto_send portable ms_per_read world0
              (bb_proto_gbn_create scenario_cfg) abc in
  let s1 := snd (fst r1) in
  let s2 := snd (fst (bb_proto_recv portable ms_per_read (snd r1) s1 64
                        (RxData ack_of_1))) in
  (exists h pl, bb_wire_parse portable ack_of_1 = Some (h, pl) /\
                seq_cmp (ack h) (snd_una s1) = 0) /\
  snd_una s2 = snd_una s1 /\ snd_nxt s2 = snd_nxt s1 /\
  timer_running s1 = true /\ timer_running s2 = true /\
  timer_ts s1 = 120000000 /\ timer_ts s2 = 122000000.
Proof.
  cbv zeta. split.
  - eexists. eexists. split; [vm_compute; reflexivity|vm_compute; reflexivity].
  - vm_compute. repeat split; reflexivity.
Qed.

(** C9.  In every state reachable after [bb_proto_gbn_create] the latch is
    empty ([have_in] is false), so the latch branch at the head of
    [bb_proto_recv] is never taken; a recv leaves it empty, and whatever it
    delivers is the head of the payload of the frame parsed in that call. *)
Theorem latch_never_populated (bld : build) (e : env) (c : bb_proto_cfg_t)
    (s : gbn_t) (w : world) (cap : Z) (got : chan_rx) :
  reachable bld e c any_data s w ->
  have_in s = false /\
  let r := bb_proto_recv bld e w s cap got in
  have_in (snd (fst r)) = false /\
  (0 < fst (fst (fst r)) ->
   exists (h : bb_hdr_t) (pl : list byte),
     bb_wire_parse bld (rx_ibuf got) = Some (h, pl) /\
     snd (fst (fst r)) = firstn (Z.to_nat (fst (fst (fst r)))) pl).
Proof.
  intros Hr. pose proof (reachable_latch_empty bld e c s w Hr) as Hin.
  split; [exact Hin|]. apply recv_direct, Hin.
Qed.

(** The first DATA frame of the scenario, as the peer packs it. *)
Definition data_1_abc : list byte :=
  snd (bb_wire_pack portable 1500 BB_FLAG_DATA 1 1 abc 3).

Lemma latch_never_populated_witness :
  have_in (bb_proto_gbn_create scenario_cfg) = false /\
  let r := bb_proto_recv portable second_per_read world0
             (bb_proto_gbn_create scenario_cfg) 64 (RxData data_1_abc) in
  have_in (snd (fst r)) = false /\
  (0 < fst (fst (fst r)) ->
   exists (h : bb_hdr_t) (pl : list byte),
     bb_wire_parse portable (rx_ibuf (RxData data_1_abc)) = Some (h, pl) /\
     snd (fst (fst r)) = firstn (Z.to_nat (fst (fst (fst r)))) pl).
Proof.
  apply (latch_never_populated portable second_per_read scenario_cfg
           (bb_proto_gbn_create scenario_cfg) world0 64 (RxData data_1_abc)).
  apply reach_create.
Defined.

Lemma scenario_delivery :
  fst (fst (bb_proto_recv portable second_per_read world0
              (bb_proto_gbn_create scenario_cfg) 64 (RxData data_1_abc))) = (3, abc).
Proof. vm_compute. reflexivity. Qed.

End GbnClaims.

(** ** The send window of both engines *)

(** A transport engine of either kind. *)
Inductive engine :=
| GbnEngine (s : Gbn.gbn_t)
| SrEngine (s : Sr.sr_t).

Definition engine_una (x : engine) : Z :=
  match x with GbnEngine s => Gbn.snd_una s | SrEngine s => Sr.snd_una s end.
Definition engine_nxt (x : engine) : Z :=
  match x with GbnEngine s => Gbn.snd_nxt s | SrEngine s => Sr.snd_nxt s end.
Definition engine_wnd (x : engine) : Z :=
  match x with GbnEngine s => wnd (Gbn.cfg s) | SrEngine s => wnd (Sr.cfg s) end.

(** Reachable through create, send, recv, from configuration [c]. *)
Definition engine_reachable (bld : build) (e : env) (c : bb_proto_cfg_t) (x : engine) : Prop :=
  match x with
  | GbnEngine s => exists w, GbnFacts.reachable bld e c GbnFacts.any_data s w
  | SrEngine s => exists w, SrFacts.reachable bld e c s w
  end.

(** Selective Repeat clamps its window to 256; Go-Back-N takes the
    configured window as it is, so the signed reading of the outstanding
    count needs it below 2^31. *)
Definition signed_window (c : bb_proto_cfg_t) (x : engine) : Prop :=
  match x with
  | GbnEngine _ => wnd c < 2 ^ 31
  | SrEngine _ => True
  end.

Section WindowClaim.
Import Gbn GbnFacts.

(** C3 (as amended: for Go-Back-N the configured window is below 2^31).
    In every reachable state of either engine the signed reading of the
    32-bit difference [snd_nxt - snd_una] lies between 0 and the window. *)
Theorem window_invariant (bld : build) (e : env) (c : bb_proto_cfg_t) (x : engine) :
  cfg_wf c -> signed_window c x -> engine_reachable bld e c x ->
  0 <= seq_cmp (engine_nxt x) (engine_una x) <= engine_wnd x.
Proof.
  intros Hwf Hsw Hr. destruct x as [s|s]; cbn in *.
  - destruct Hr as [w Hr].
    pose proof (reachable_cfg bld e c _ s w Hr) as Hc.
    destruct (reachable_window_ok bld e c _ s w Hwf Hsw Hr) as (Hu & Hn & Hw & Hd).
    assert (wnd (cfg s) < 2 ^ 31).
    { rewrite Hc. cbn. destruct (wnd c =? 0); lia. }
    pose proof (u32_range (snd_nxt s - snd_una s)).
    rewrite seq_cmp_outstanding; lia.
  - destruct Hr as [w Hr].
    destruct (SrFacts.sr_reachable_window_ok bld e c s w Hwf Hr) as (Hu & Hn & Hw & Hd).
    unfold Sr.BB_MAX_WND in Hw.
    pose proof (u32_range (Sr.snd_nxt s - Sr.snd_una s)).
    rewrite seq_cmp_outstanding; lia.
Qed.

Lemma window_invariant_witness :
  0 <= seq_cmp (engine_nxt (GbnEngine after_abc)) (engine_una (GbnEngine after_abc))
    <= engine_wnd (GbnEngine after_abc).
Proof.
  apply (window_invariant portable second_per_read scenario_cfg (GbnEngine after_abc)).
  - exact scenario_cfg_wf.
  - cbn. lia.
  - eexists. apply reach_send; [apply reach_create|exact I].
Defined.

(** *** Go-Back-N with a window of 2^31 or more *)

Definition huge_window_cfg : bb_proto_cfg_t :=
  {| init_seq := 0; wnd := 4294967295; mss := 1; rto_ms := 120 |}.

(** The engine after [k] one-byte sends that were never acknowledged. *)
Definition unacked (k : Z) : gbn_t :=
  {| cfg := huge_window_cfg; snd_una := 0; snd_nxt := k; rcv_nxt := 0;
     timer_ts := 120000000; timer_running := true;
     outbuf := [Byte.x41]; inbuf := []; have_in := false |}.

Lemma send_frame_running (bld : build) (e : env) (w : world) (s : gbn_t)
    (sq : Z) (p : list byte) (k : Z) :
  timer_running s = true -> sizeof_hdr + u16 k <= 1500 -> 0 <= send_ret e (sends w) ->
  fst (send_frame bld e w s sq p k) = (0, s).
Proof.
  intros Hrun Hcap Hret. unfold send_frame. rewrite pack_unfold.
  destruct (Z.ltb_spec 1500 (sizeof_hdr + u16 k)); [lia|].
  destruct (Z.eqb_spec (sizeof_hdr + u16 k) 0) as [E|_].
  { unfold sizeof_hdr, u16 in E. pose proof (Z.mod_pos_bound k (2 ^ 16) ltac:(lia)). lia. }
  unfold channel_send.
  destruct (Z.ltb_spec (send_ret e (sends w)) 0); [lia|].
  rewrite Hrun. reflexivity.
Qed.

Lemma send_one_byte (bld : build) (e : env) (w : world) (s : gbn_t) (b : byte) :
  timer_running s = true -> 1 <= mss (cfg s) ->
  u32 (snd_nxt s - snd_una s) < wnd (cfg s) ->
  0 <= send_ret e (sends w) ->
  snd (fst (bb_proto_send bld e w s [b])) =
  set_snd_nxt (set_outbuf s [b]) (u32 (snd_nxt s + 1)).
Proof.
  intros Hrun Hmss Hroom Hret. unfold bb_proto_send.
  change (Z.of_nat (length [b])) with 1.
  change (1 >? outcap) with false. cbv iota.
  change (Z.to_nat 1) with 1%nat. change (firstn 1 [b]) with [b].
  cbn [send_loop]. change (0 <? 1) with true. cbv iota.
  change (snd_nxt (set_outbuf s [b])) with (snd_nxt s).
  change (snd_una (set_outbuf s [b])) with (snd_una s).
  change (cfg (set_outbuf s [b])) with (cfg s).
  destruct (Z.geb_spec (u32 (snd_nxt s - snd_una s)) (wnd (cfg s))); [lia|].
  change (1 - 0) with 1.
  destruct (Z.gtb_spec 1 (mss (cfg s))); [lia|].
  pose proof (send_frame_running bld e w (set_outbuf s [b]) (snd_nxt s)
                (skipn (Z.to_nat 0) [b]) 1 Hrun ltac:(cbn; lia) Hret) as Hsf.
  destruct (send_frame bld e w (set_outbuf s [b]) (snd_nxt s) (skipn (Z.to_nat 0) [b]) 1)
    as [[r s1] w1].
  cbn [fst] in Hsf. injection Hsf as -> ->.
  change (0 <? 0) with false. cbv iota. reflexivity.
Qed.

Lemma unacked_reachable (k : Z) :
  0 <= k -> k + 1 <= 2 ^ 31 ->
  exists w, reachable portable second_per_read huge_window_cfg any_data (unacked (k + 1)) w.
Proof.
  intros Hk. revert k Hk. apply (natlike_ind (fun k => k + 1 <= 2 ^ 31 -> _)).
  - intros _.
    exists (snd (bb_proto_send portable second_per_read world0
                   (bb_proto_gbn_create huge_window_cfg) [Byte.x41])).
    change (unacked (0 + 1)) with
      (snd (fst (bb_proto_send portable second_per_read world0
                   (bb_proto_gbn_create huge_window_cfg) [Byte.x41]))).
    apply reach_send; [apply reach_create|exact I].
  - intros k Hk IH Hle. destruct (IH ltac:(lia)) as [w Hr].
    exists (snd (bb_proto_send portable second_per_read w (unacked (k + 1)) [Byte.x41])).
    replace (unacked (Z.succ k + 1))
      with (snd (fst (bb_proto_send portable second_per_read w (unacked (k + 1)) [Byte.x41]))).
    { apply reach_send; [exact Hr|exact I]. }
    rewrite send_one_byte; cbn; try lia; try reflexivity.
    + unfold unacked, set_snd_nxt, set_outbuf. cbn. f_equal.
      rewrite u32_small; lia.
    + rewrite Z.sub_0_r, u32_small; lia.
Qed.

(** C3 as stated fails for Go-Back-N: with the window configured to
    2^32 - 1, 2^31 one-byte sends without an acknowledgement reach a state
    whose signed difference [snd_nxt - snd_una] is -2^31. *)
Lemma huge_window_counterexample :
  cfg_wf huge_window_cfg /\
  (exists w, reachable portable second_per_read huge_window_cfg any_data
               (unacked 2147483648) w) /\
  seq_cmp (snd_nxt (unacked 2147483648)) (snd_una (unacked 2147483648)) = -2147483648 /\
  wnd (cfg (unacked 2147483648)) = 4294967295.
Proof.
  split; [unfold cfg_wf; cbn; lia|]. split.
  - apply (unacked_reachable 2147483647); lia.
  - split; reflexivity.
Qed.

End WindowClaim.

(** ** End-to-end delivery *)

Section Delivery.

(** The receive side of an application: one [bb_proto_recv] per arriving
    datagram; what the calls hand to the application, in order. *)
Fixpoint sr_recv_all (bld : build) (e : env) (w : world) (s : Sr.sr_t) (cap : Z)
    (arrivals : list (list byte)) : list (list byte) * Sr.sr_t * world :=
  match arrivals with
  | [] => ([], s, w)
  | d :: rest =>
      let '(r, out, s, w) := Sr.bb_proto_recv bld e w s cap (RxData d) in
      let '(outs, s, w) := sr_recv_all bld e w s cap rest in
      ((if 0 <? r then [out] else []) ++ outs, s, w)
  end.

Fixpoint gbn_recv_all (bld : build) (e : env) (w : world) (s : Gbn.gbn_t) (cap : Z)
    (arrivals : list (list byte)) : list (list byte) * Gbn.gbn_t * world :=
  match arrivals with
  | [] => ([], s, w)
  | d :: rest =>
      let '(r, out, s, w) := Gbn.bb_proto_recv bld e w s cap (RxData d) in
      let '(outs, s, w) := gbn_recv_all bld e w s cap rest in
      ((if 0 <? r then [out] else []) ++ outs, s, w)
  end.

(** The spec's third scenario: window 4, one byte per segment, "WXYZ". *)
Definition reorder_cfg : bb_proto_cfg_t :=
  {| init_seq := 1; wnd := 4; mss := 1; rto_ms := 0 |}.
Definition wxyz : list byte := [Byte.x57; Byte.x58; Byte.x59; Byte.x5a].

(** A DATA frame as either sender packs it while its [rcv_nxt] is 1. *)
Definition data_frame (sq : Z) (b : byte) : list byte :=
  snd (bb_wire_pack portable 1600 BB_FLAG_DATA sq 1 [b] 1).
Definition ack_frame (a : Z) : list byte :=
  snd (bb_wire_pack portable 64 BB_FLAG_ACK 0 a [] 0).

(** The sender's clock in the Go-Back-N run: three readings at 0, then one
    second. *)
Definition late_clock : env :=
  {| now_ns := fun k => if (k <? 3)%nat then 0 else 1000000000;
     send_ret := fun _ => 1 |}.

Definition ab_cfg : bb_proto_cfg_t :=
  {| init_seq := 1; wnd := 32; mss := 1; rto_ms := 120 |}.

(** C1 does not hold of the code; two runs the channel can produce.

    Selective Repeat, reordering only: the sender puts W, X, Y, Z on the
    wire as sequences 1 to 4 and they arrive as X, W, Z, Y.  The receiver
    hands "W" and "Y" to the application; X and Z are buffered, then freed
    by the drain loop of [bb_proto_recv] while [rcv_nxt] moves past them.
    The receiver's last ACK is 5 and with it the sender's [bb_proto_send]
    returns 0.

    Go-Back-N, one loss: "AB" leaves as sequences 1 and 2, sequence 2 is
    lost, the ACK for 1 arrives, the timer expires.  The retransmission of
    sequence 2 is cut from the snapshot at offset (2 - snd_una) * mss = 0
    and carries "A"; the receiver delivers "A" twice. *)
Theorem delivery_differs_from_sent :
  (* Selective Repeat *)
  let sender := Sr.bb_proto_send portable ms_per_read
                  [RxTimeout; RxTimeout; RxTimeout; RxTimeout] world0
                  (Sr.bb_proto_sr_create reorder_cfg) wxyz in
  let x := data_frame 2 Byte.x58 in
  let w_ := data_frame 1 Byte.x57 in
  let z := data_frame 4 Byte.x5a in
  let y := data_frame 3 Byte.x59 in
  let receiver := sr_recv_all portable ms_per_read world0
                    (Sr.bb_proto_sr_create reorder_cfg) 64 [x; w_; z; y] in
  let finished := Sr.bb_proto_send portable ms_per_read
                    [RxTimeout; RxTimeout; RxTimeout; RxTimeout; RxData (ack_frame 5)]
                    world0 (Sr.bb_proto_sr_create reorder_cfg) wxyz in
  (* Go-Back-N *)
  let g0 := Gbn.bb_proto_gbn_create ab_cfg in
  let sent := Gbn.bb_proto_send portable late_clock world0 g0 [Byte.x41; Byte.x42] in
  let first := gbn_recv_all portable ms_per_read world0 g0 64 [data_frame 1 Byte.x41] in
  let acked := Gbn.bb_proto_recv portable late_clock (snd sent) (snd (fst sent)) 64
                 (RxData (ack_frame 2)) in
  let expired := Gbn.bb_proto_recv portable late_clock (snd acked) (snd (fst acked)) 64
                   RxTimeout in
  let resent := skipn 2 (wire (snd expired)) in
  let second := gbn_recv_all portable ms_per_read (snd first) (snd (fst first)) 64 resent in
  wire (SrFacts.outcome_world sender) = [w_; x; y; z] /\
  fst (fst receiver) = [[Byte.x57]; [Byte.x59]] /\
  Sr.rcv_nxt (snd (fst receiver)) = 5 /\
  last (wire (snd receiver)) [] = ack_frame 5 /\
  (exists s w, finished = Sr.Returned 0 s w /\ Sr.snd_una s = 5 /\ Sr.snd_nxt s = 5) /\
  wire (snd sent) = [data_frame 1 Byte.x41; data_frame 2 Byte.x42] /\
  fst (fst first) = [[Byte.x41]] /\
  wire (snd first) = [ack_frame 2] /\
  resent = [snd (bb_wire_pack portable 1500 BB_FLAG_DATA 2 1 [Byte.x41] 1)] /\
  fst (fst second) = [[Byte.x41]].
Proof.
  cbv zeta. repeat split; try (vm_compute; reflexivity).
  eexists. eexists. split; [vm_compute; reflexivity|]. split; reflexivity.
Qed.

End Delivery.
(** * Further properties of the code *)

(** ** Sequence numbers across the 2^32 wrap *)

Section SeqWrap.
Import Gbn.

Lemma next_seq_iter (k : nat) (a : Z) :
  0 <= a < 2 ^ 32 -> Nat.iter k bb_next_seq a = u32 (a + Z.of_nat k).
Proof.
  intros Ha. induction k as [|k IH].
  - simpl. rewrite Z.add_0_r. symmetry. apply Z.mod_small, Ha.
  - rewrite Nat.iter_succ, IH. unfold bb_next_seq, u32.
    rewrite Zplus_mod_idemp_l. f_equal. lia.
Qed.

(** [seq_cmp] across the wrap: a number [k] steps ahead of [a], with
    0 < k < 2^31, compares as [k] ahead. *)
Lemma seq_cmp_offset (a k : Z) :
  0 <= a < 2 ^ 32 -> 0 < k < 2 ^ 31 ->
  seq_cmp (u32 (a + k)) a = k /\ seq_cmp a (u32 (a + k)) = - k.
Proof.
  intros Ha Hk. rewrite !seq_cmp_u32.
  assert (E1 : u32 (u32 (a + k) - a) = k).
  { unfold u32. rewrite Zminus_mod_idemp_l.
    replace (a + k - a) with k by lia. apply Z.mod_small. lia. }
  assert (E2 : u32 (a - u32 (a + k)) = 2 ^ 32 - k).
  { unfold u32. rewrite Zminus_mod_idemp_r.
    replace (a - (a + k)) with (- k) by lia.
    rewrite <- (Z.mod_add _ 1) by lia. rewrite Z.mod_small; lia. }
  rewrite E1, E2. split; [apply s32_small; lia|].
  rewrite s32_big by lia. lia.
Qed.

(** X1.  Sequence numbers produced by [bb_next_seq] stay ordered by
    [seq_cmp] across the wrap of the 32-bit counter: after [k] steps from
    any [a], with 0 < k < 2^31, the new number compares as [k] ahead of
    [a] and [a] as [k] behind it. *)
Theorem next_seq_ordered_across_wrap (a : Z) (k : nat) :
  0 <= a < 2 ^ 32 -> 0 < Z.of_nat k < 2 ^ 31 ->
  seq_cmp (Nat.iter k bb_next_seq a) a = Z.of_nat k /\
  seq_cmp a (Nat.iter k bb_next_seq a) = - Z.of_nat k.
Proof.
  intros Ha Hk. rewrite (next_seq_iter k a Ha). apply seq_cmp_offset; assumption.
Qed.

Lemma next_seq_ordered_across_wrap_witness :
  seq_cmp (Nat.iter 3 bb_next_seq 0xFFFFFFFE) 0xFFFFFFFE = 3 /\
  seq_cmp 0xFFFFFFFE (Nat.iter 3 bb_next_seq 0xFFFFFFFE) = - 3.
Proof. apply (next_seq_ordered_across_wrap 0xFFFFFFFE 3); simpl; lia. Defined.

End SeqWrap.

(** ** Fletcher-32 against its byte-wise definition *)

Section FletcherReference.

(** The two running sums of Fletcher's checksum over bytes, each reduced
    modulo 65535 after every byte. *)
Fixpoint fletcher_sums (data : list byte) (c1 c2 : Z) : Z * Z :=
  match data with
  | [] => (c1, c2)
  | b :: rest =>
      let c1 := (c1 + byte.unsigned b) mod 65535 in
      fletcher_sums rest c1 ((c2 + c1) mod 65535)
  end.

(** The representative in [1, 65535] of a residue modulo 65535. *)
Definition ones_rep (c : Z) : Z := if c =? 0 then 65535 else c.

Lemma fletcher_sums_app (p s : list byte) (c1 c2 : Z) :
  fletcher_sums (p ++ s) c1 c2 =
  fletcher_sums s (fst (fletcher_sums p c1 c2)) (snd (fletcher_sums p c1 c2)).
Proof.
  revert c1 c2. induction p as [|b p IH]; intros c1 c2; [reflexivity|].
  cbn [app fletcher_sums]. apply IH.
Qed.

Lemma fletcher_sums_range (data : list byte) (c1 c2 : Z) :
  0 <= c1 < 65535 -> 0 <= c2 < 65535 ->
  0 <= fst (fletcher_sums data c1 c2) < 65535 /\
  0 <= snd (fletcher_sums data c1 c2) < 65535.
Proof.
  revert c1 c2. induction data as [|b data IH]; intros c1 c2 H1 H2; [auto|].
  cbn [fletcher_sums]. apply IH; apply Z.mod_pos_bound; lia.
Qed.

(** The second sum enters the result additively; the first not at all. *)
Lemma fletcher_sums_shift (data : list byte) (c1 c2 : Z) :
  0 <= c2 < 65535 ->
  fst (fletcher_sums data c1 c2) = fst (fletcher_sums data c1 0) /\
  snd (fletcher_sums data c1 c2) = (c2 + snd (fletcher_sums data c1 0)) mod 65535.
Proof.
  revert c1 c2. induction data as [|b data IH]; intros c1 c2 H2.
  - cbn. split; [reflexivity|]. rewrite Z.add_0_r, Z.mod_small; lia.
  - cbn [fletcher_sums]. set (a := (c1 + byte.unsigned b) mod 65535).
    assert (Ha : 0 <= a < 65535) by (apply Z.mod_pos_bound; lia).
    destruct (IH a ((c2 + a) mod 65535) ltac:(apply Z.mod_pos_bound; lia)) as [E1 E2].
    destruct (IH a ((0 + a) mod 65535) ltac:(apply Z.mod_pos_bound; lia)) as [F1 F2].
    rewrite E1, E2, F1, F2. split; [reflexivity|].
    rewrite !Zplus_mod_idemp_l, Zplus_mod_idemp_r. f_equal. lia.
Qed.

(** One block of at most 360 bytes: neither 32-bit accumulator wraps, and
    both stay congruent to the byte-wise sums. *)
Lemma fletcher_block_cong (data : list byte) :
  forall sum1 sum2 : Z,
    let n := Z.of_nat (length data) in
    1 <= sum1 -> 1 <= sum2 ->
    sum1 + 255 * n < 2 ^ 32 -> sum2 + n * (sum1 + 255 * n) < 2 ^ 32 ->
    let r := fletcher_block data sum1 sum2 in
    let m := fletcher_sums data (sum1 mod 65535) (sum2 mod 65535) in
    1 <= fst r <= sum1 + 255 * n /\ 1 <= snd r <= sum2 + n * (sum1 + 255 * n) /\
    fst r mod 65535 = fst m /\ snd r mod 65535 = snd m.
Proof.
  induction data as [|b data IH]; intros s1 s2 n H1 H2 B1 B2.
  - subst n. cbn. repeat split; lia.
  - pose proof (byte.unsigned_range b) as Hb.
    subst n. cbn [length] in *. rewrite Nat2Z.inj_succ in *.
    set (n := Z.of_nat (length data)) in *.
    assert (Hn : 0 <= n) by (subst n; lia).
    cbn [fletcher_block fletcher_sums].
    rewrite (u32_small (s1 + byte.unsigned b)) by lia.
    rewrite (u32_small (s2 + (s1 + byte.unsigned b))) by nia.
    rewrite Zplus_mod_idemp_l.
    rewrite <- (Zplus_mod s2 (s1 + byte.unsigned b)).
    destruct (IH (s1 + byte.unsigned b) (s2 + (s1 + byte.unsigned b))
                ltac:(lia) ltac:(lia) ltac:(fold n; lia) ltac:(fold n; nia))
      as (I1 & I2 & I3 & I4).
    fold n in I1, I2.
    repeat split; try assumption; try lia; nia.
Qed.

Lemma fletcher_loop_cong (fuel : nat) :
  forall (data : list byte) (sum1 sum2 : Z),
    (length data <= fuel)%nat -> 1 <= sum1 <= 131070 -> 1 <= sum2 <= 131070 ->
    let r := fletcher_loop fuel data sum1 sum2 in
    let m := fletcher_sums data (sum1 mod 65535) (sum2 mod 65535) in
    1 <= fst r <= 131070 /\ 1 <= snd r <= 131070 /\
    fst r mod 65535 = fst m /\ snd r mod 65535 = snd m.
Proof.
  induction fuel as [|fuel IH]; intros data s1 s2 Hlen H1 H2.
  - destruct data; [|simpl in Hlen; lia]. cbn. auto.
  - destruct data as [|b data]; [cbn; auto|].
    cbn [fletcher_loop].
    set (d := b :: data) in *. set (tlen := Nat.min 360 (length d)).
    assert (Ht : (1 <= tlen <= 360)%nat) by (subst tlen d; cbn [length]; lia).
    assert (Hfl : length (firstn tlen d) = tlen) by (apply firstn_length_le; subst tlen; lia).
    pose proof (fletcher_block_cong (firstn tlen d) s1 s2) as Hb.
    cbv zeta in Hb. rewrite Hfl in Hb.
    specialize (Hb ltac:(lia) ltac:(lia) ltac:(lia) ltac:(nia)).
    destruct Hb as (B1 & B2 & B3 & B4).
    cbv zeta.
    assert (Hsplit : fletcher_sums d (s1 mod 65535) (s2 mod 65535) =
                     fletcher_sums (skipn tlen d)
                       (fst (fletcher_sums (firstn tlen d) (s1 mod 65535) (s2 mod 65535)))
                       (snd (fletcher_sums (firstn tlen d) (s1 mod 65535) (s2 mod 65535)))).
    { rewrite <- fletcher_sums_app, firstn_skipn. reflexivity. }
    rewrite Hsplit.
    rewrite <- B3, <- B4.
    destruct (fletcher_block (firstn tlen d) s1 s2) as [a c]. cbn [fst snd] in *.
    assert (Hk : (length (skipn tlen d) <= fuel)%nat).
    { rewrite length_skipn. subst d. cbn [length] in *. lia. }
    assert (Ha : 1 <= fold16 a <= 131070).
    { split; [apply fold16_pos; lia|apply fold16_bound; nia]. }
    assert (Hc : 1 <= fold16 c <= 131070).
    { split; [apply fold16_pos; lia|apply fold16_bound; nia]. }
    pose proof (IH (skipn tlen d) (fold16 a) (fold16 c) Hk Ha Hc) as I.
    cbv zeta in I. rewrite !fold16_cong in I. exact I.
Qed.

Lemma ones_rep_unique (x c : Z) :
  1 <= x <= 65535 -> x mod 65535 = c -> x = ones_rep c.
Proof.
  intros Hx <-. unfold ones_rep.
  destruct (Z.eq_dec x 65535) as [->|Hne]; [reflexivity|].
  rewrite Z.mod_small by lia.
  destruct (Z.eqb_spec x 0); [lia|reflexivity].
Qed.

Lemma ones_rep_inj (c c' : Z) :
  0 <= c < 65535 -> 0 <= c' < 65535 -> ones_rep c = ones_rep c' -> c = c'.
Proof.
  unfold ones_rep. intros H H'.
  destruct (Z.eqb_spec c 0), (Z.eqb_spec c' 0); lia.
Qed.

Lemma ones_rep_range (c : Z) : 0 <= c < 65535 -> 1 <= ones_rep c <= 65535.
Proof. unfold ones_rep. destruct (Z.eqb_spec c 0); lia. Qed.

Lemma fletcher32_sums (data : list byte) :
  bb_fletcher32 data =
  65536 * ones_rep (snd (fletcher_sums data 0 0)) + ones_rep (fst (fletcher_sums data 0 0)).
Proof.
  unfold bb_fletcher32.
  pose proof (fletcher_loop_cong (length data) data 65535 65535 (le_n _)
                ltac:(lia) ltac:(lia)) as I.
  cbv zeta in I. change (65535 mod 65535) with 0 in I.
  destruct I as (I1 & I2 & I3 & I4).
  destruct (fletcher_loop (length data) data 65535 65535) as [a c]. cbn [fst snd] in *.
  pose proof (fold16_final a I1) as Hlo. pose proof (fold16_final c I2) as Hhi.
  assert (Hsh : u32 (Z.shiftl (fold16 c) 16) = 65536 * fold16 c).
  { unfold u32. rewrite Z.shiftl_mul_pow2 by lia.
    rewrite Z.mod_small by lia. lia. }
  rewrite Hsh, lor_high_low by lia.
  rewrite (ones_rep_unique (fold16 a) _ Hlo (eq_trans (fold16_cong a) I3)).
  rewrite (ones_rep_unique (fold16 c) _ Hhi (eq_trans (fold16_cong c) I4)).
  reflexivity.
Qed.

(** X2.  [bb_fletcher32], with its blocks of 360 bytes and deferred
    reduction, computes for a buffer of any length the byte-wise Fletcher
    sums modulo 65535: the low half of the result is the first sum, the
    high half the second, a zero residue being reported as 0xFFFF. *)
Theorem fletcher32_is_bytewise_fletcher (data : list byte) :
  let c := fletcher_sums data 0 0 in
  bb_fletcher32 data = 65536 * ones_rep (snd c) + ones_rep (fst c) /\
  0 <= fst c < 65535 /\ 0 <= snd c < 65535.
Proof.
  split; [apply fletcher32_sums|].
  apply fletcher_sums_range; lia.
Qed.

Lemma fletcher_sums_two (x y : byte) (s : list byte) (a c : Z) :
  fletcher_sums (x :: y :: s) a c =
  fletcher_sums s ((a + byte.unsigned x + byte.unsigned y) mod 65535)
    ((c + 2 * a + 2 * byte.unsigned x + byte.unsigned y) mod 65535).
Proof.
  cbn [fletcher_sums]. f_equal.
  - apply Zplus_mod_idemp_l.
  - rewrite <- Zplus_mod.
    rewrite (Z.mod_eq (a + byte.unsigned x) 65535) by lia.
    set (q := (a + byte.unsigned x) / 65535).
    replace (c + (a + byte.unsigned x - 65535 * q) +
             (a + byte.unsigned x - 65535 * q + byte.unsigned y))
      with (c + 2 * a + 2 * byte.unsigned x + byte.unsigned y + (- 2 * q) * 65535) by lia.
    apply Z.mod_add. lia.
Qed.

(** X3.  [bb_fletcher32] tells a buffer from the same buffer with two
    adjacent, different bytes exchanged. *)
Theorem fletcher32_detects_transposition (p s : list byte) (x y : byte) :
  x <> y ->
  bb_fletcher32 (p ++ x :: y :: s) <> bb_fletcher32 (p ++ y :: x :: s).
Proof.
  intros Hxy E. rewrite !fletcher32_sums, !fletcher_sums_app, !fletcher_sums_two in E.
  destruct (fletcher_sums p 0 0) as [a c]. cbn [fst snd] in *.
  pose proof (byte.unsigned_range x) as Hx. pose proof (byte.unsigned_range y) as Hy.
  replace (a + byte.unsigned y + byte.unsigned x)
    with (a + byte.unsigned x + byte.unsigned y) in E by lia.
  set (a2 := (a + byte.unsigned x + byte.unsigned y) mod 65535) in *.
  set (cx := (c + 2 * a + 2 * byte.unsigned x + byte.unsigned y) mod 65535) in *.
  set (cy := (c + 2 * a + 2 * byte.unsigned y + byte.unsigned x) mod 65535) in *.
  assert (Ha2 : 0 <= a2 < 65535) by (apply Z.mod_pos_bound; lia).
  assert (Hcx : 0 <= cx < 65535) by (apply Z.mod_pos_bound; lia).
  assert (Hcy : 0 <= cy < 65535) by (apply Z.mod_pos_bound; lia).
  destruct (fletcher_sums_shift s a2 cx Hcx) as [F1 F2].
  destruct (fletcher_sums_shift s a2 cy Hcy) as [G1 G2].
  rewrite F1, F2, G1, G2 in E.
  set (k := snd (fletcher_sums s a2 0)) in *.
  set (l := fst (fletcher_sums s a2 0)) in *.
  assert (Hl : 1 <= ones_rep l <= 65535).
  { apply ones_rep_range. apply (fletcher_sums_range s a2 0); lia. }
  pose proof (ones_rep_range ((cx + k) mod 65535) ltac:(apply Z.mod_pos_bound; lia)).
  pose proof (ones_rep_range ((cy + k) mod 65535) ltac:(apply Z.mod_pos_bound; lia)).
  assert (E' : (cx + k) mod 65535 = (cy + k) mod 65535).
  { apply ones_rep_inj; try (apply Z.mod_pos_bound; lia). lia. }
  assert (D : (cx - cy) mod 65535 = 0).
  { replace (cx - cy) with ((cx + k) - (cy + k)) by lia.
    rewrite Zminus_mod, E', Z.sub_diag. reflexivity. }
  subst cx cy. rewrite <- Zminus_mod in D.
  match type of D with (?u mod _ = 0) =>
    replace u with (byte.unsigned x - byte.unsigned y) in D by lia end.
  apply Hxy, byte.unsigned_inj.
  apply Z.mod_divide in D; [|lia]. destruct D as [q D].
  assert (q = 0) by lia. lia.
Qed.

Lemma fletcher32_detects_transposition_witness :
  Byte.x41 <> Byte.x42 /\
  bb_fletcher32 ([Byte.x10] ++ Byte.x41 :: Byte.x42 :: [Byte.x07]) <>
  bb_fletcher32 ([Byte.x10] ++ Byte.x42 :: Byte.x41 :: [Byte.x07]).
Proof.
  assert (H : Byte.x41 <> Byte.x42) by discriminate.
  split; [exact H|].
  exact (fletcher32_detects_transposition [Byte.x10] [Byte.x07] Byte.x41 Byte.x42 H).
Defined.

End FletcherReference.

(** ** Frame codec: corruption, truncation, bounds *)

Section WireMore.

Variable bld : build.

(** Either real checksum tells a buffer from the same buffer with one byte
    replaced by a different one. *)
Lemma checksum_detects_byte (p s : list byte) (b b' : byte) :
  fletcher_backend bld \/ crc32c_backend bld -> b <> b' ->
  checksum bld (p ++ b :: s) <> checksum bld (p ++ b' :: s).
Proof.
  intros [Hf|Hc] Hne; unfold checksum.
  - unfold fletcher_backend in Hf. rewrite Hf.
    apply fletcher32_detects_sum. rewrite !byte_sum_app.
    cbn [byte_sum fold_right]. fold (byte_sum s).
    pose proof (byte.unsigned_range b). pose proof (byte.unsigned_range b').
    replace (_ - _) with (byte.unsigned b - byte.unsigned b') by lia.
    intros Hm. apply Z.mod_divide in Hm; [|lia]. destruct Hm as [q Hm].
    assert (q = 0) by lia.
    apply Hne, byte.unsigned_inj. lia.
  - destruct Hc as [Hav Hin]. rewrite Hav.
    apply crc32c_detects_byte; [split; assumption|exact Hne].
Qed.

(** A span that passes the checksum test no longer does once one byte of
    it is replaced. *)
Lemma corrupted_span_rejected (p s : list byte) (b b' : byte) :
  fletcher_backend bld \/ crc32c_backend bld ->
  get_crc (p ++ b :: s) = checksum bld (set_crc (p ++ b :: s) 0) ->
  b <> b' ->
  bb_wire_parse bld (p ++ b' :: s) = None.
Proof.
  intros Hbk Hcrc Hne.
  rewrite parse_unfold.
  destruct (Z.of_nat (length (p ++ b' :: s)) <? sizeof_hdr); [reflexivity|].
  destruct (negb (magic (hdr_of_bytes (p ++ b' :: s)) =? BB_MAGIC)); [reflexivity|].
  assert (Hx : get_crc (p ++ b' :: s) <> checksum bld (set_crc (p ++ b' :: s) 0)).
  { destruct (Nat.lt_ge_cases (length p) 14) as [H14|H14];
      [|destruct (Nat.lt_ge_cases (length p) 18) as [H18|H18]].
    - rewrite get_crc_before, set_crc_before in * by exact H14.
      rewrite Hcrc. apply checksum_detects_byte; assumption.
    - rewrite get_crc_inside, set_crc_inside in * by (split; assumption).
      rewrite <- Hcrc. intros Eq. apply le_combine_inj in Eq.
      + apply app_inv_head in Eq. injection Eq as Eq. congruence.
      + rewrite !length_app. reflexivity.
    - rewrite get_crc_after, set_crc_after in * by exact H18.
      rewrite Hcrc. apply checksum_detects_byte; assumption. }
  apply Z.eqb_neq in Hx. rewrite Hx. reflexivity.
Qed.

(** X4.  In the two builds that compute a checksum, namely Fletcher-32
    when [bb_crc32c_hw_available] answers false, and CRC32C when it
    answers true and the unit was compiled with [__SSE4_2__], a frame
    written by [bb_wire_pack] is rejected by [bb_wire_parse] once any one
    byte of it, in the header, the checksum field or the payload, holds a
    different value.  The remaining build (an x86-64 CPU with SSE4.2,
    compiled without [__SSE4_2__]) is excluded by the hypothesis: there
    [bb_crc32c_hw] returns 0 for every buffer and a changed byte can be
    accepted. *)
Theorem corrupted_frame_rejected (cap f s a : Z) (payload : list byte) (n : Z)
    (p t : list byte) (b b' : byte) :
  fletcher_backend bld \/ crc32c_backend bld ->
  snd (bb_wire_pack bld cap f s a payload n) = p ++ b :: t ->
  b' <> b ->
  bb_wire_parse bld (p ++ b' :: t) = None.
Proof.
  intros Hbk E Hne. rewrite pack_unfold in E.
  destruct (cap <? sizeof_hdr + n); cbn [snd] in E; [destruct p; discriminate|].
  apply (corrupted_span_rejected p t b b' Hbk); [|congruence].
  rewrite <- E.
  rewrite seal_eq, set_crc_hdr_bytes, with_crc_twice.
  rewrite get_crc_hdr_bytes; [reflexivity|]. apply checksum_range.
Qed.

(** X5.  A proper prefix of a frame written by [bb_wire_pack] (a short
    read) is rejected by [bb_wire_parse], whatever the checksum build. *)
Theorem truncated_frame_rejected (cap f s a : Z) (payload : list byte) (n : Z)
    (m : nat) :
  0 <= f < 2 ^ 8 -> 0 <= s < 2 ^ 32 -> 0 <= a < 2 ^ 32 ->
  0 <= n < 2 ^ 16 -> n <= Z.of_nat (length payload) ->
  let frame := snd (bb_wire_pack bld cap f s a payload n) in
  (m < length frame)%nat ->
  bb_wire_parse bld (firstn m frame) = None.
Proof.
  intros Hf Hs Ha Hn Hp frame Hm. subst frame. rewrite pack_unfold in *.
  destruct (cap <? sizeof_hdr + n); cbn [snd] in *; [simpl in Hm; lia|].
  set (pl := firstn (Z.to_nat n) payload) in *.
  assert (Hpl : Z.of_nat (length pl) = n).
  { subst pl. rewrite firstn_length_le; lia. }
  pose proof (seal_length bld (pack_hdr f s a n) pl) as Hlen.
  rewrite seal_eq in *.
  set (h := with_crc (pack_hdr f s a n) _) in *.
  assert (Hwf : hdr_wf h).
  { apply with_crc_wf; [|apply checksum_range].
    unfold hdr_wf, pack_hdr, BB_MAGIC. cbn. lia. }
  rewrite parse_unfold.
  assert (Hl : length (firstn m (hdr_bytes h ++ pl)) = m).
  { apply firstn_length_le. lia. }
  rewrite Hl. unfold sizeof_hdr.
  destruct (Z.ltb_spec (Z.of_nat m) 18) as [|H18]; [reflexivity|].
  assert (E : firstn m (hdr_bytes h ++ pl) = hdr_bytes h ++ firstn (m - 18) pl).
  { rewrite firstn_app, hdr_bytes_length.
    rewrite (firstn_all2 (n := m) (hdr_bytes h)) by (rewrite hdr_bytes_length; lia).
    reflexivity. }
  rewrite E, hdr_of_hdr_bytes by exact Hwf.
  change (len h) with n.
  destruct (negb (magic h =? BB_MAGIC)); [reflexivity|].
  destruct (negb (_ =? _)); [reflexivity|].
  destruct (Z.ltb_spec (Z.of_nat m) (18 + n)); [reflexivity|lia].
Qed.

(** X6.  What [bb_wire_parse] hands out on success stays inside the span it
    was given: the payload pointer is the span from offset 18 on, the
    [len] field does not exceed the bytes there, the magic is [BB_MAGIC]
    and every header field is within its C type. *)
Theorem parse_within_span (buf : list byte) (h : bb_hdr_t) (pl : list byte) :
  bb_wire_parse bld buf = Some (h, pl) ->
  buf = firstn 18 buf ++ pl /\
  Z.of_nat (length buf) = 18 + Z.of_nat (length pl) /\
  0 <= len h <= Z.of_nat (length pl) /\
  magic h = BB_MAGIC /\ 0 <= flags h < 2 ^ 8 /\ 0 <= hdrlen h < 2 ^ 8 /\
  0 <= seq h < 2 ^ 32 /\ 0 <= ack h < 2 ^ 32 /\ 0 <= crc32c h < 2 ^ 32.
Proof.
  intros H.
  assert (Hacc : bb_wire_parse bld buf <> None) by congruence.
  apply parse_accepts_iff in Hacc as (H18 & Hmag & _ & Hlen).
  apply parse_some in H as [-> ->]. unfold sizeof_hdr in *.
  assert (L : Z.of_nat (length buf) = 18 + Z.of_nat (length (skipn 18 buf))).
  { rewrite length_skipn. lia. }
  split; [symmetry; apply firstn_skipn|]. split; [exact L|].
  cbn [len flags hdrlen seq ack crc32c hdr_of_bytes] in *.
  pose proof (le_combine_firstn_range 2 (skipn 12 buf)).
  pose proof (le_combine_firstn_range 1 (skipn 2 buf)).
  pose proof (le_combine_firstn_range 1 (skipn 3 buf)).
  pose proof (le_combine_firstn_range 4 (skipn 4 buf)).
  pose proof (le_combine_firstn_range 4 (skipn 8 buf)).
  pose proof (le_combine_firstn_range 4 (skipn 14 buf)).
  repeat split; try assumption; try lia.
Qed.

End WireMore.

Lemma truncated_frame_rejected_witness :
  bb_wire_parse sse42
    (firstn 20 (snd (bb_wire_pack sse42 64 2 7 9 [Byte.x41; Byte.x42; Byte.x43] 3))) = None.
Proof.
  apply (truncated_frame_rejected sse42 64 2 7 9 [Byte.x41; Byte.x42; Byte.x43] 3 20);
    simpl; lia.
Defined.

Lemma parse_within_span_witness :
  let buf := snd (bb_wire_pack portable 64 2 7 9 [Byte.x41; Byte.x42; Byte.x43] 3) in
  let h := hdr_of_bytes buf in
  let pl := [Byte.x41; Byte.x42; Byte.x43] in
  buf = firstn 18 buf ++ pl /\
  Z.of_nat (length buf) = 18 + Z.of_nat (length pl) /\
  0 <= len h <= Z.of_nat (length pl) /\
  magic h = BB_MAGIC /\ 0 <= flags h < 2 ^ 8 /\ 0 <= hdrlen h < 2 ^ 8 /\
  0 <= seq h < 2 ^ 32 /\ 0 <= ack h < 2 ^ 32 /\ 0 <= crc32c h < 2 ^ 32.
Proof.
  intros buf h pl. apply (parse_within_span portable buf h pl). reflexivity.
Defined.

Lemma corrupted_frame_rejected_witness :
  let frame := snd (bb_wire_pack portable 64 2 7 9 [Byte.x41; Byte.x42] 2) in
  let frame' := snd (bb_wire_pack sse42 64 2 7 9 [Byte.x41; Byte.x42] 2) in
  bb_wire_parse portable (firstn 4 frame ++ Byte.xff :: skipn 5 frame) = None /\
  bb_wire_parse sse42 (firstn 18 frame' ++ Byte.x40 :: skipn 19 frame') = None.
Proof.
  intros frame frame'. split.
  - apply (corrupted_frame_rejected portable 64 2 7 9 [Byte.x41; Byte.x42] 2
             (firstn 4 frame) (skipn 5 frame) Byte.x07 Byte.xff).
    + left. reflexivity.
    + vm_compute. reflexivity.
    + discriminate.
  - apply (corrupted_frame_rejected sse42 64 2 7 9 [Byte.x41; Byte.x42] 2
             (firstn 18 frame') (skipn 19 frame') Byte.x41 Byte.x40).
    + right. split; reflexivity.
    + vm_compute. reflexivity.
    + discriminate.
Defined.
(** ** Channel emulator: generator, queue discipline, return value *)

Section ChannelMore.
Import Channel.

(** *** The generator never reaches the all-zero state *)

Lemma lxor_shiftl_nonzero (x k : Z) :
  0 < k < 64 -> Z.gcd (2 ^ 64) (2 ^ k - 1) = 1 ->
  0 < x < 2 ^ 64 -> 0 < Z.lxor x (u64 (Z.shiftl x k)) < 2 ^ 64.
Proof.
  intros Hk Hodd Hx.
  pose proof (u64_range (Z.shiftl x k)) as Hu.
  pose proof (lxor_range 64 x (u64 (Z.shiftl x k)) ltac:(lia) ltac:(lia) Hu) as Hr.
  assert (Hne : Z.lxor x (u64 (Z.shiftl x k)) <> 0); [|lia].
  intros E. apply Z.lxor_eq in E.
  unfold u64 in E. rewrite Z.shiftl_mul_pow2 in E by lia.
  assert (Hp : 1 < 2 ^ k) by (apply Z.pow_gt_1; lia).
  assert (Hd : (2 ^ 64 | (2 ^ k - 1) * x)).
  { exists ((x * 2 ^ k) / 2 ^ 64).
    pose proof (Z.div_mod (x * 2 ^ k) (2 ^ 64) ltac:(lia)). lia. }
  apply Z.gauss in Hd; [|exact Hodd].
  destruct Hd as [q Hq]. assert (q = 0) by lia. lia.
Qed.

Lemma lxor_shiftr_nonzero (x k : Z) :
  0 < k -> 0 < x < 2 ^ 64 -> 0 < Z.lxor x (Z.shiftr x k) < 2 ^ 64.
Proof.
  intros Hk Hx.
  assert (Hp : 1 < 2 ^ k) by (apply Z.pow_gt_1; lia).
  assert (Hs : 0 <= Z.shiftr x k < x).
  { rewrite Z.shiftr_div_pow2 by lia. split; [apply Z.div_pos; lia|].
    apply Z.div_lt; lia. }
  pose proof (lxor_range 64 x (Z.shiftr x k) ltac:(lia) ltac:(lia) ltac:(lia)) as Hr.
  assert (Hne : Z.lxor x (Z.shiftr x k) <> 0); [|lia].
  intros E. apply Z.lxor_eq in E. lia.
Qed.

Lemma xorshift64_nonzero (s : Z) : 0 < s < 2 ^ 64 -> 0 < xorshift64 s < 2 ^ 64.
Proof.
  intros Hs. unfold xorshift64.
  apply lxor_shiftl_nonzero; [lia|reflexivity|].
  apply lxor_shiftr_nonzero; [lia|].
  apply lxor_shiftl_nonzero; [lia|reflexivity|exact Hs].
Qed.

(** A generator state that is a non-zero 64-bit value. *)
Definition live (r : Z) : Prop := 0 < r < 2 ^ 64.

Lemma frand01_live (r : Z) : live r -> live (snd (frand01 r)).
Proof. apply xorshift64_nonzero. Qed.

Lemma decide_live (pct : float) (r : Z) : live r -> live (snd (decide pct r)).
Proof.
  intros H. unfold decide. pose proof (frand01_live r H) as H0.
  destruct (frand01 r) as [u r1]. exact H0.
Qed.

Lemma jittered_delay_live (c : bb_channel_cfg_t) (r : Z) :
  live r -> live (snd (jittered_delay_ns c r)).
Proof.
  intros H. unfold jittered_delay_ns. pose proof (frand01_live r H) as H0.
  destruct (frand01 r) as [u r1]. exact H0.
Qed.

Lemma maybe_reorder_live (c : bb_channel_cfg_t) (queue : list bb_frame_t) (r : Z) :
  live r -> live (snd (maybe_reorder c queue r)).
Proof.
  intros H. unfold maybe_reorder. destruct queue as [|a [|b rest]]; try exact H.
  pose proof (decide_live (reorder_pct c) r H) as H0.
  destruct (decide (reorder_pct c) r) as [[|] r1]; exact H0.
Qed.

(** *** What the two loops leave alone *)

(** An invariant of the loop body holds where the loop leaves. *)
Lemma rounds_inv {St : Type} (P : St -> Prop) (body : St -> St + St) :
  (forall st, P st -> P (leave (body st))) ->
  forall (fuel : positive) (st : St), P st -> P (leave (rounds fuel body st)).
Proof.
  intros Hb. induction fuel as [p IH|p IH|]; intros st HP; cbn [rounds].
  - specialize (Hb st HP). destruct (body st) as [d|st1]; [exact Hb|].
    cbn [leave] in Hb. pose proof (IH st1 Hb) as H1.
    destruct (rounds p body st1) as [d|st2]; [exact H1|]. apply IH, H1.
  - pose proof (IH st HP) as H1. destruct (rounds p body st) as [d|st1]; [exact H1|].
    apply (IH st1), H1.
  - apply Hb, HP.
Qed.

Definition drained_ch (d : drained) : bb_channel_t :=
  match d with Broke _ ch _ => ch | Failed ch _ => ch end.
Definition drained_world (d : drained) : sock_world :=
  match d with Broke _ _ w => w | Failed _ w => w end.

(** The bytes of a list of frames as the source counts them. *)
Definition sum_n (fs : list bb_frame_t) : Z :=
  fold_right (fun f acc => n f + acc) 0 fs.

(** A frame was ready at one of the clock readings [from, to). *)
Definition ready_within (e : sock_env) (from to : nat) (f : bb_frame_t) : Prop :=
  exists j : nat, (from <= j < to)%nat /\ ready_ts f <= clock e j.

Lemma ready_within_mono (e : sock_env) (a b a' b' : nat) (f : bb_frame_t) :
  (a' <= a)%nat -> (b <= b')%nat -> ready_within e a b f -> ready_within e a' b' f.
Proof. intros Ha Hb (j & Hj & Hr). exists j. split; [lia|exact Hr]. Qed.

Lemma wait_head_keeps (e : sock_env) (ch : bb_channel_t) (w : sock_world) :
  let r := wait_head e ch w in
  q (fst r) = q ch /\ cfg (fst r) = cfg ch /\ rng (fst r) = rng ch /\
  token_ns_per_byte (fst r) = token_ns_per_byte ch /\
  next_tx_ts (fst r) = next_tx_ts ch /\
  sent (snd r) = sent w /\ calls (snd r) = calls w /\ (reads w <= reads (snd r))%nat.
Proof.
  unfold wait_head. destruct (q ch) as [|f rest] eqn:Eq.
  - cbn. repeat split; auto; lia.
  - assert (Hbody : forall st : Z * Z * sock_world,
              (sent (snd st) = sent w /\ calls (snd st) = calls w /\
               (reads w <= reads (snd st))%nat) ->
              (fun st => sent (snd st) = sent w /\ calls (snd st) = calls w /\
                         (reads w <= reads (snd st))%nat)
                (leave (wait_body e (ready_ts f) st))).
    { intros [[t wt] w0] (H1 & H2 & H3). unfold wait_body, read_clock. cbn [fst snd] in *.
      repeat match goal with |- context [if ?c then _ else _] => destruct c end;
        cbn; repeat split; try assumption; lia. }
    pose proof (rounds_inv _ _ Hbody (Z.to_pos (ms2ns 150%float + 1)) (now ch, 0, w)
                  ltac:(cbn; repeat split; lia)) as Hinv.
    cbv beta in Hinv.
    destruct (leave _) as [[t wt] w1]. cbn [fst snd] in *.
    cbn [q cfg rng token_ns_per_byte next_tx_ts]. tauto.
Qed.

(** The drain loop transmits from the head of the queue, in order, only
    frames that were ready at a clock reading it took, and stops with -1
    exactly when [sendto] fails for a reason other than a full socket. *)
Definition drain_post (e : sock_env) (q0 : list bb_frame_t) (c0 : bb_channel_cfg_t)
    (r0 : Z) (w : sock_world) (total : Z) (d : drained) : Prop :=
  exists popped : list bb_frame_t,
    q0 = popped ++ q (drained_ch d) /\
    sent (drained_world d) = sent w ++ map buf popped /\
    cfg (drained_ch d) = c0 /\ rng (drained_ch d) = r0 /\
    (reads w <= reads (drained_world d))%nat /\
    (calls w <= calls (drained_world d))%nat /\
    Forall (ready_within e (reads w) (reads (drained_world d))) popped /\
    match d with
    | Broke t _ _ =>
        t = total + sum_n popped /\
        forall k, (calls w <= k < calls (drained_world d))%nat -> sendto e k <> SocketError
    | Failed _ _ =>
        exists k, (calls w <= k < calls (drained_world d))%nat /\ sendto e k = SocketError
    end.

Lemma drain_post_stop (e : sock_env) (ch : bb_channel_t) (w w1 : sock_world)
    (total : Z) (ch1 : bb_channel_t) :
  q ch1 = q ch -> cfg ch1 = cfg ch -> rng ch1 = rng ch ->
  sent w1 = sent w -> calls w1 = calls w -> (reads w <= reads w1)%nat ->
  drain_post e (q ch) (cfg ch) (rng ch) w total (Broke total ch1 w1).
Proof.
  intros Hq Hc Hr Hs Hk Hrd. exists []. cbn [drained_ch drained_world app map sum_n fold_right].
  rewrite Hq, Hs, Hk, app_nil_r, Z.add_0_r.
  repeat split; auto; try lia.
Qed.

Lemma drain_spec (e : sock_env) (fuel : nat) :
  forall (ch : bb_channel_t) (w : sock_world) (total : Z),
    drain_post e (q ch) (cfg ch) (rng ch) w total (drain e fuel ch w total).
Proof.
  induction fuel as [|fuel IH]; intros ch w total.
  - cbn [drain]. apply drain_post_stop; auto.
  - cbn [drain]. destruct (q ch) as [|f rest] eqn:Eq.
    { rewrite <- Eq. apply drain_post_stop; auto. }
    unfold read_clock. cbn [token_ns_per_byte next_tx_ts].
    set (w1 := {| reads := S (reads w); calls := calls w; sent := sent w |}).
    set (t := clock e (reads w)).
    destruct (Z.gtb_spec (ready_ts f) t) as [Hnr|Hr].
    { rewrite <- Eq. apply drain_post_stop; cbn; auto. }
    destruct (negb (token_ns_per_byte ch =? 0) && (t <? next_tx_ts ch)).
    { rewrite <- Eq. apply drain_post_stop; cbn; auto. }
    assert (Hcommon :
      forall ch1 : bb_channel_t,
        q ch1 = f :: rest -> cfg ch1 = cfg ch -> rng ch1 = rng ch ->
        drain_post e (f :: rest) (cfg ch) (rng ch) w total
          (let '(r, w2) := call_sendto e w1 (buf f) in
           match r with
           | WouldBlock => Broke total ch1 w2
           | SocketError => Failed ch1 w2
           | Sent _ =>
               drain e fuel
                 {| cfg := cfg ch1; now := now ch1;
                    token_ns_per_byte := token_ns_per_byte ch1;
                    next_tx_ts := next_tx_ts ch1; q := rest; rng := rng ch1 |}
                 w2 (total + n f)
           end)).
    { intros ch1 Hq Hc Hg. unfold call_sendto. cbn [reads calls sent w1].
      destruct (sendto e (calls w)) as [sv| |] eqn:Es.
      - set (ch2 := {| cfg := cfg ch1; now := now ch1;
                       token_ns_per_byte := token_ns_per_byte ch1;
                       next_tx_ts := next_tx_ts ch1; q := rest; rng := rng ch1 |}).
        set (w2 := {| reads := S (reads w); calls := S (calls w);
                      sent := sent w ++ [buf f] |}).
        destruct (IH ch2 w2 (total + n f)) as (popped & P1 & P2 & P3 & P4 & P5 & P6 & P7 & P8).
        set (d := drain e fuel ch2 w2 (total + n f)) in *.
        exists (f :: popped). cbn [q ch2 reads calls sent w2 cfg rng] in *.
        split; [cbn [app]; f_equal; exact P1|].
        split; [rewrite P2; cbn [map]; rewrite <- app_assoc; reflexivity|].
        split; [congruence|]. split; [congruence|].
        split; [lia|]. split; [lia|].
        split.
        { constructor.
          - exists (reads w). split; [lia|fold t; lia].
          - eapply Forall_impl; [|exact P7]. intros f0. apply ready_within_mono; lia. }
        destruct d as [tt ch3 w3|ch3 w3]; cbn [drained_world drained_ch] in *.
        + destruct P8 as [-> P8]. split; [cbn [sum_n fold_right]; fold (sum_n popped); lia|].
          intros k Hk. destruct (Nat.eq_dec k (calls w)) as [->|Hne];
            [rewrite Es; discriminate|apply P8; lia].
        + destruct P8 as (k & Hk & Ek). exists k. split; [lia|exact Ek].
      - exists []. cbn [drained_ch drained_world app map sum_n fold_right reads calls sent].
        rewrite Hq, Z.add_0_r, app_nil_r.
        repeat split; try lia; auto; try congruence.
        intros k Hk. assert (k = calls w) by lia. subst k. rewrite Es. discriminate.
      - exists []. cbn [drained_ch drained_world app map sum_n fold_right reads calls sent].
        rewrite Hq, app_nil_r.
        repeat split; try lia; auto; try congruence.
        exists (calls w). split; [lia|exact Es]. }
    destruct (token_ns_per_byte ch =? 0); apply Hcommon; cbn; auto.
Qed.

(** The head swap of [maybe_reorder]. *)
Definition swap_head (queue : list bb_frame_t) : list bb_frame_t :=
  match queue with
  | a :: b :: rest => b :: a :: rest
  | _ => queue
  end.

Lemma maybe_reorder_queue (c : bb_channel_cfg_t) (queue : list bb_frame_t) (r : Z) :
  fst (maybe_reorder c queue r) = queue \/ fst (maybe_reorder c queue r) = swap_head queue.
Proof.
  unfold maybe_reorder. destruct queue as [|a [|b rest]]; auto.
  destruct (decide (reorder_pct c) r) as [[|] r1]; cbn; auto.
Qed.

(** The copies of [b] a call appends to the queue: none, one or two. *)
Definition copies_of (b : list byte) (new : list bb_frame_t) : Prop :=
  (length new <= 2)%nat /\
  Forall (fun f => buf f = b /\ n f = Z.of_nat (length b)) new.

(** Everything the structure of [bb_channel_send] gives about one call. *)
Definition send_post (e : sock_env) (w : sock_world) (ch : bb_channel_t)
    (b : list byte) (r : Z) (ch' : bb_channel_t) (w' : sock_world) : Prop :=
  exists new popped : list bb_frame_t,
    copies_of b new /\
    (popped ++ q ch' = q ch ++ new \/ popped ++ q ch' = swap_head (q ch ++ new)) /\
    sent w' = sent w ++ map buf popped /\
    Forall (ready_within e (reads w) (reads w')) popped /\
    cfg ch' = cfg ch /\ (live (rng ch) -> live (rng ch')) /\
    (calls w <= calls w')%nat /\
    ((r = -1 /\ exists k, (calls w <= k < calls w')%nat /\ sendto e k = SocketError) \/
     (r = (if sum_n popped >? 0 then sum_n popped else Z.of_nat (length b)) /\
      forall k, (calls w <= k < calls w')%nat -> sendto e k <> SocketError)).

Lemma channel_send_structure (e : sock_env) (w : sock_world) (ch : bb_channel_t)
    (b : list byte) :
  send_post e w ch b (fst (fst (bb_channel_send e w ch b)))
    (snd (fst (bb_channel_send e w ch b))) (snd (bb_channel_send e w ch b)).
Proof.
  unfold bb_channel_send, read_clock.
  pose proof (decide_live (loss_pct (cfg ch)) (rng ch)) as L1.
  destruct (decide (loss_pct (cfg ch)) (rng ch)) as [lost rng1]. cbn [snd] in L1.
  destruct lost.
  { exists [], []. cbn [fst snd q cfg rng sent calls reads app map].
    split; [split; [cbn; lia|constructor]|].
    split; [left; rewrite app_nil_r; reflexivity|].
    split; [rewrite app_nil_r; reflexivity|].
    split; [constructor|]. split; [reflexivity|]. split; [exact L1|]. split; [lia|].
    right. split; [reflexivity|]. intros k Hk. lia. }
  pose proof (jittered_delay_live (cfg ch) rng1) as L2.
  destruct (jittered_delay_ns (cfg ch) rng1) as [delay rng2]. cbn [snd] in L2.
  pose proof (decide_live (dup_pct (cfg ch)) rng2) as L3.
  destruct (decide (dup_pct (cfg ch)) rng2) as [dup rng3]. cbn [snd] in L3.
  set (len := Z.of_nat (length b)).
  set (t := clock e (reads w)).
  set (f1 := {| n := len; buf := firstn (Z.to_nat len) b; ready_ts := u64 (t + delay) |}).
  set (f2 := {| n := len; buf := firstn (Z.to_nat len) b;
                ready_ts := u64 (u64 (t + delay) + ms2ns 1) |}).
  set (new := if dup then [f1; f2] else [f1]).
  assert (Hq0 : (if dup
                 then enqueue_out (enqueue_out (q ch) b len (u64 (t + delay))) b len
                        (u64 (u64 (t + delay) + ms2ns 1))
                 else enqueue_out (q ch) b len (u64 (t + delay))) = q ch ++ new).
  { subst new. unfold enqueue_out. destruct dup; [rewrite <- app_assoc|]; reflexivity. }
  rewrite Hq0.
  assert (Hnew : copies_of b new).
  { assert (Hb : firstn (Z.to_nat len) b = b).
    { subst len. rewrite Nat2Z.id. apply firstn_all. }
    subst new f1 f2. unfold copies_of. rewrite Hb.
    destruct dup; cbn [length]; (split; [lia|]); repeat constructor. }
  pose proof (maybe_reorder_queue (cfg ch) (q ch ++ new) rng3) as Hre.
  pose proof (maybe_reorder_live (cfg ch) (q ch ++ new) rng3) as L4.
  destruct (maybe_reorder (cfg ch) (q ch ++ new) rng3) as [queue rng4]. cbn [fst snd] in *.
  set (w1 := {| reads := S (reads w); calls := calls w; sent := sent w |}).
  set (ch1 := {| cfg := cfg ch; now := t; token_ns_per_byte := token_ns_per_byte ch;
                 next_tx_ts := next_tx_ts ch; q := queue; rng := rng4 |}).
  pose proof (wait_head_keeps e ch1 w1) as Hw. cbv zeta in Hw.
  destruct (wait_head e ch1 w1) as [ch2 w2]. cbn [fst snd] in Hw.
  destruct Hw as (W1 & W2 & W3 & W4 & W5 & W6 & W7 & W8).
  cbn [q cfg rng ch1 w1 sent calls reads] in *.
  destruct (drain_spec e (length (q ch2)) ch2 w2 0)
    as (popped & P1 & P2 & P3 & P4 & P5 & P6 & P7 & P8).
  exists new, popped.
  destruct (drain e (length (q ch2)) ch2 w2 0) as [tot ch3 w3|ch3 w3];
    cbn [drained_ch drained_world fst snd] in *.
  - split; [exact Hnew|].
    split; [rewrite <- P1, W1; destruct Hre as [->| ->]; auto|].
    split; [rewrite P2, W6; reflexivity|].
    split; [eapply Forall_impl; [|exact P7]; intros f0; apply ready_within_mono; lia|].
    split; [congruence|]. split; [intros Hl; rewrite P4, W3; auto|].
    split; [lia|]. right. destruct P8 as [-> P8]. rewrite Z.add_0_l.
    split; [reflexivity|]. intros k Hk. apply P8. lia.
  - split; [exact Hnew|].
    split; [rewrite <- P1, W1; destruct Hre as [->| ->]; auto|].
    split; [rewrite P2, W6; reflexivity|].
    split; [eapply Forall_impl; [|exact P7]; intros f0; apply ready_within_mono; lia|].
    split; [congruence|]. split; [intros Hl; rewrite P4, W3; auto|].
    split; [lia|]. left. split; [reflexivity|].
    destruct P8 as (k & Hk & Ek). exists k. split; [lia|exact Ek].
Qed.

(** X7.  [bb_channel_send] neither alters nor invents nor silently
    discards a queued payload.  The queue it works on is the old queue
    followed by no copy of the submitted buffer (the loss decision), one,
    or two (duplication), with at most its first two frames exchanged;
    the datagrams the call puts on the wire are the buffers of a prefix
    of that queue, in order, and the rest of it is the queue afterwards.
    This holds on every path, the [-1] return included. *)
Theorem channel_send_queue_discipline (e : sock_env) (w : sock_world)
    (ch : bb_channel_t) (b : list byte) :
  let '(_, ch', w') := bb_channel_send e w ch b in
  exists new popped : list bb_frame_t,
    copies_of b new /\
    (popped ++ q ch' = q ch ++ new \/ popped ++ q ch' = swap_head (q ch ++ new)) /\
    sent w' = sent w ++ map buf popped.
Proof.
  pose proof (channel_send_structure e w ch b) as H.
  destruct (bb_channel_send e w ch b) as [[r ch'] w']. cbn [fst snd] in H.
  destruct H as (new & popped & H1 & H2 & H3 & _).
  exists new, popped. auto.
Qed.



Lemma send_all_live (e : sock_env) (bufs : list (list byte)) :
  forall (w : sock_world) (ch : bb_channel_t),
    live (rng ch) -> live (rng (snd (fst (send_all e w ch bufs)))).
Proof.
  induction bufs as [|b rest IH]; intros w ch Hl; [exact Hl|].
  cbn [send_all].
  pose proof (channel_send_structure e w ch b) as H.
  destruct (bb_channel_send e w ch b) as [[r ch1] w1]. cbn [fst snd] in H.
  destruct H as (new & popped & _ & _ & _ & _ & _ & Hlive & _).
  specialize (IH w1 ch1 (Hlive Hl)).
  destruct (send_all e w1 ch1 rest) as [[rs ch2] w2]. exact IH.
Qed.

(** X10.  The generator of a channel never reaches the all-zero state, in
    which xorshift would stay for ever: whatever 64-bit seed the channel
    is created with (0 selects the default seed), after any sequence of
    [bb_channel_send] calls its state is a non-zero 64-bit value. *)
Theorem channel_generator_never_zero (e : sock_env) (w : sock_world)
    (c : bb_channel_cfg_t) (bufs : list (list byte)) :
  0 <= seed c < 2 ^ 64 ->
  let '(_, ch', _) := send_all e w (bb_channel_create c) bufs in
  0 < rng ch' < 2 ^ 64.
Proof.
  intros Hs.
  assert (Hl : live (rng (bb_channel_create c))).
  { unfold live, bb_channel_create. cbn [rng].
    destruct (Z.eqb_spec (seed c) 0); lia. }
  pose proof (send_all_live e bufs w (bb_channel_create c) Hl) as H.
  destruct (send_all e w (bb_channel_create c) bufs) as [[rs ch'] w']. exact H.
Qed.

Lemma channel_generator_never_zero_witness :
  let '(_, ch', _) := send_all fast_clock sock_world0 (bb_channel_create timing_cfg) five_sends in
  0 < rng ch' < 2 ^ 64.
Proof.
  apply (channel_generator_never_zero fast_clock sock_world0 timing_cfg five_sends).
  cbn. lia.
Defined.

End ChannelMore.
(** ** Channel emulator: a probability of zero is never drawn *)

Section Lossless.
Import Channel.

(** A double that is neither a negative number nor minus infinity. *)
Definition not_negative (x : spec_float) : Prop :=
  match x with
  | S754_finite true _ _ | S754_infinity true => False
  | _ => True
  end.

Lemma round_aux_not_negative (m e : Z) (l : location) :
  not_negative (binary_round_aux prec emax false m e l).
Proof.
  unfold binary_round_aux.
  destruct (shr_fexp prec emax m e l) as [mrs' e'].
  destruct (shr_fexp prec emax _ e' loc_Exact) as [mrs'' e''].
  destruct (shr_m mrs''); [exact I| |exact I].
  destruct (Z.leb _ _); exact I.
Qed.

Lemma of_uint63_not_negative (k : Uint63.int) :
  not_negative (Prim2SF (PrimFloat.of_uint63 k)).
Proof.
  rewrite of_uint63_spec. pose proof (Uint63.to_Z_bounded k) as Hk.
  unfold binary_normalize. destruct (Uint63.to_Z k) as [|p|p]; [exact I| |lia].
  unfold binary_round. destruct (shl_align _ _ _) as [mz ez].
  apply round_aux_not_negative.
Qed.

(** [frand01] never returns a negative number. *)
Lemma frand01_not_negative (r : Z) : not_negative (Prim2SF (fst (frand01 r))).
Proof.
  unfold frand01, double_of_Z. cbn [fst]. rewrite mul_spec.
  pose proof (of_uint63_not_negative (Uint63.of_Z (Z.shiftr (xorshift64 r) 11))) as H.
  remember (Prim2SF (1 / 9007199254740992)) as c eqn:Ec. vm_compute in Ec. subst c.
  destruct (Prim2SF (PrimFloat.of_uint63 _)) as [s|s| |s m e];
    try destruct s; try contradiction; try exact I.
  unfold SF64mul, SFmul. cbn [xorb]. apply round_aux_not_negative.
Qed.

(** [decide(0.0, rng)] is false whatever the generator returns. *)
Lemma decide_zero (r : Z) : decide 0%float r = (false, xorshift64 r).
Proof.
  unfold decide. pose proof (frand01_not_negative r) as H.
  assert (E : snd (frand01 r) = xorshift64 r) by reflexivity.
  destruct (frand01 r) as [u r1]. cbn [fst snd] in *. subst r1. f_equal.
  rewrite ltb_spec.
  remember (Prim2SF (0 / 100)) as z eqn:Ez. vm_compute in Ez. subst z.
  destruct (Prim2SF u) as [s|s| |s m e]; try destruct s; try contradiction; reflexivity.
Qed.

Definition no_impairment (c : bb_channel_cfg_t) : Prop :=
  loss_pct c = 0%float /\ dup_pct c = 0%float /\ reorder_pct c = 0%float.

Lemma perfect_send (e : sock_env) (w : sock_world) (ch : bb_channel_t) (b : list byte) :
  no_impairment (cfg ch) ->
  let res := bb_channel_send e w ch b in
  cfg (snd (fst res)) = cfg ch /\
  sent (snd res) ++ map buf (q (snd (fst res))) = sent w ++ map buf (q ch) ++ [b].
Proof.
  intros (Hl & Hd & Hr). unfold bb_channel_send, read_clock.
  rewrite Hl, decide_zero.
  destruct (jittered_delay_ns (cfg ch) (xorshift64 (rng ch))) as [delay rng2].
  rewrite Hd, decide_zero.
  set (len := Z.of_nat (length b)).
  set (t := clock e (reads w)).
  set (queue := enqueue_out (q ch) b len (u64 (t + delay))).
  assert (Hre : fst (maybe_reorder (cfg ch) queue (xorshift64 rng2)) = queue).
  { unfold maybe_reorder. destruct queue as [|a [|a' rest]]; try reflexivity.
    rewrite Hr, decide_zero. reflexivity. }
  destruct (maybe_reorder (cfg ch) queue (xorshift64 rng2)) as [queue' rng4].
  cbn [fst] in Hre. subst queue'.
  set (w1 := {| reads := S (reads w); calls := calls w; sent := sent w |}).
  set (ch1 := {| cfg := cfg ch; now := t; token_ns_per_byte := token_ns_per_byte ch;
                 next_tx_ts := next_tx_ts ch; q := queue; rng := rng4 |}).
  pose proof (wait_head_keeps e ch1 w1) as Hw. cbv zeta in Hw.
  destruct (wait_head e ch1 w1) as [ch2 w2]. cbn [fst snd] in Hw.
  destruct Hw as (W1 & W2 & W3 & W4 & W5 & W6 & W7 & W8).
  cbn [q cfg rng ch1 w1 sent calls reads] in *.
  destruct (drain_spec e (length (q ch2)) ch2 w2 0)
    as (popped & P1 & P2 & P3 & P4 & P5 & P6 & P7 & P8).
  assert (Hq : map buf queue = map buf (q ch) ++ [b]).
  { subst queue. unfold enqueue_out. rewrite map_app. cbn [map buf].
    subst len. rewrite Nat2Z.id, firstn_all. reflexivity. }
  assert (Hall : sent (drained_world (drain e (length (q ch2)) ch2 w2 0)) ++
                 map buf (q (drained_ch (drain e (length (q ch2)) ch2 w2 0))) =
                 sent w ++ map buf (q ch) ++ [b]).
  { rewrite P2, W6, <- app_assoc, <- map_app, <- P1, W1, Hq. reflexivity. }
  destruct (drain e (length (q ch2)) ch2 w2 0) as [tot ch3 w3|ch3 w3];
    cbn [drained_ch drained_world fst snd] in *; split; congruence.
Qed.

(** X11.  A channel configured with 0 % loss, duplication and reordering
    is a FIFO pipe whatever its delay, jitter, rate limit and seed, and
    whatever the clock and the socket answer: after any sequence of
    [bb_channel_send] calls, the datagrams put on the wire followed by the
    buffers still queued are the datagrams and queue from before followed
    by the submitted buffers, each once and in order. *)
Theorem unimpaired_channel_is_fifo (e : sock_env) (bufs : list (list byte)) :
  forall (w : sock_world) (ch : bb_channel_t),
    loss_pct (cfg ch) = 0%float -> dup_pct (cfg ch) = 0%float ->
    reorder_pct (cfg ch) = 0%float ->
    let '(_, ch', w') := send_all e w ch bufs in
    sent w' ++ map buf (q ch') = sent w ++ map buf (q ch) ++ bufs.
Proof.
  induction bufs as [|b rest IH]; intros w ch Hl Hd Hr.
  - cbn [send_all]. rewrite app_nil_r. reflexivity.
  - cbn [send_all].
    destruct (perfect_send e w ch b (conj Hl (conj Hd Hr))) as [Hc Hs].
    destruct (bb_channel_send e w ch b) as [[r ch1] w1]. cbn [fst snd] in *.
    rewrite <- Hc in Hl, Hd, Hr.
    specialize (IH w1 ch1 Hl Hd Hr).
    destruct (send_all e w1 ch1 rest) as [[rs ch2] w2].
    rewrite IH, app_assoc, Hs, <- !app_assoc. reflexivity.
Qed.

Definition delay_only_cfg : bb_channel_cfg_t :=
  {| loss_pct := 0%float; dup_pct := 0%float; reorder_pct := 0%float;
     delay_mean_ms := 20%float; delay_jitter_ms := 5%float;
     rate_mbps := 1%float; seed := 42 |}.

Lemma unimpaired_channel_is_fifo_witness :
  let '(_, ch', w') :=
    send_all fast_clock sock_world0 (bb_channel_create delay_only_cfg) five_sends in
  sent w' ++ map buf (q ch') =
  sent sock_world0 ++ map buf (q (bb_channel_create delay_only_cfg)) ++ five_sends.
Proof.
  apply (unimpaired_channel_is_fifo fast_clock five_sends sock_world0
           (bb_channel_create delay_only_cfg)); reflexivity.
Defined.

End Lossless.
(** ** Go-Back-N: segmentation, the receiver, acknowledgements *)

Lemma firstn_plus {A : Type} (a b : nat) (l : list A) :
  firstn (a + b) l = firstn a l ++ firstn b (skipn a l).
Proof.
  revert l. induction a as [|a IH]; intros l; [reflexivity|].
  destruct l as [|x l]; [cbn; now rewrite firstn_nil|].
  cbn [Nat.add firstn skipn app]. now rewrite IH.
Qed.

(** The first [k] pieces of [mss] bytes of a buffer. *)
Fixpoint chunks (mss : nat) (data : list byte) (k : nat) : list (list byte) :=
  match k with
  | O => []
  | S k' => firstn mss data :: chunks mss (skipn mss data) k'
  end.

Lemma concat_chunks (mss : nat) (k : nat) :
  forall data : list byte, concat (chunks mss data k) = firstn (k * mss) data.
Proof.
  induction k as [|k IH]; intros data; [reflexivity|].
  cbn [chunks concat Nat.mul]. rewrite IH, <- firstn_plus. reflexivity.
Qed.

Lemma parsed_seq_range (bld : build) (buf : list byte) (h : bb_hdr_t) (pl : list byte) :
  bb_wire_parse bld buf = Some (h, pl) -> 0 <= seq h < 2 ^ 32.
Proof.
  intros H. apply parse_some in H as [-> _]. cbn [seq hdr_of_bytes].
  apply (le_combine_firstn_range 4).
Qed.

Lemma parsed_len_bound (bld : build) (buf : list byte) (h : bb_hdr_t) (pl : list byte) :
  bb_wire_parse bld buf = Some (h, pl) ->
  0 <= len h <= Z.of_nat (length pl) /\ 18 <= Z.of_nat (length buf).
Proof.
  intros H.
  assert (Hacc : bb_wire_parse bld buf <> None) by congruence.
  apply parse_accepts_iff in Hacc as (H18 & _ & _ & Hlen).
  apply parse_some in H as [-> ->]. unfold sizeof_hdr in *.
  pose proof (le_combine_firstn_range 2 (skipn 12 buf)).
  cbn [len hdr_of_bytes] in *. rewrite length_skipn. lia.
Qed.



(** A packed frame parses back ([bb_wire_pack] then [bb_wire_parse]). *)
Lemma pack_parses (bld : build) (cap f s a : Z) (p : list byte) :
  0 <= f < 2 ^ 8 -> 0 <= s < 2 ^ 32 -> 0 <= a < 2 ^ 32 ->
  sizeof_hdr + Z.of_nat (length p) <= cap -> Z.of_nat (length p) < 2 ^ 16 ->
  let frame := snd (bb_wire_pack bld cap f s a p (Z.of_nat (length p))) in
  Z.of_nat (length frame) = 18 + Z.of_nat (length p) /\
  exists h : bb_hdr_t,
    bb_wire_parse bld frame = Some (h, p) /\
    flags h = f /\ seq h = s /\ ack h = a /\ len h = Z.of_nat (length p).
Proof.
  intros Hf Hs Ha Hcap Hn frame. subst frame. rewrite pack_unfold.
  destruct (Z.ltb_spec cap (sizeof_hdr + Z.of_nat (length p))); [lia|].
  cbn [snd]. rewrite Nat2Z.id, firstn_all.
  split; [apply seal_length|].
  eexists. split.
  - apply parse_seal; [|reflexivity|cbn; lia].
    unfold hdr_wf, pack_hdr, BB_MAGIC. cbn. lia.
  - cbn. auto.
Qed.

Module GbnMore.
Import Gbn GbnFacts.

(** DATA frames for a list of payloads, numbered from [sq] by
    [bb_next_seq], all carrying the acknowledgement number [ackn]. *)
Fixpoint data_frames (bld : build) (sq ackn : Z) (payloads : list (list byte))
  : list (list byte) :=
  match payloads with
  | [] => []
  | p :: rest =>
      snd (bb_wire_pack bld 1500 BB_FLAG_DATA sq ackn p (Z.of_nat (length p)))
        :: data_frames bld (bb_next_seq sq) ackn rest
  end.

Section Steps.

Variable bld : build.
Variable e : env.

(** The channel accepts every frame. *)
Definition channel_up : Prop := forall k : nat, 0 <= send_ret e k.

Lemma start_timer_wire (w : world) (s : gbn_t) :
  wire (snd (start_timer e w s)) = wire w /\ sends (snd (start_timer e w s)) = sends w.
Proof. unfold start_timer. cbn. auto. Qed.

Lemma send_frame_ok (w : world) (s : gbn_t) (sq : Z) (p : list byte) (n0 : Z) :
  channel_up -> 0 <= n0 <= 1482 ->
  let r := send_frame bld e w s sq p n0 in
  fst (fst r) = 0 /\ timer_only s (snd (fst r)) /\
  wire (snd r) = wire w ++ [snd (bb_wire_pack bld 1500 BB_FLAG_DATA sq (rcv_nxt s) p n0)].
Proof.
  intros Hup Hn. unfold send_frame.
  assert (E16 : u16 n0 = n0) by (apply Z.mod_small; lia). rewrite E16.
  rewrite pack_unfold. unfold sizeof_hdr.
  destruct (Z.ltb_spec 1500 (18 + n0)); [lia|].
  destruct (Z.eqb_spec (18 + n0) 0); [lia|].
  unfold channel_send. destruct (Z.ltb_spec (send_ret e (sends w)) 0) as [Hneg|_].
  { specialize (Hup (sends w)). lia. }
  destruct (timer_running s).
  - cbn. split; [reflexivity|]. split; [apply timer_only_refl|reflexivity].
  - match goal with |- context [start_timer e ?w1 s] =>
      pose proof (start_timer_spec e w1 s) as [T _];
      pose proof (start_timer_wire w1 s) as [Hwire _];
      destruct (start_timer e w1 s) as [s1 w2] end.
    cbn [fst snd wire] in *. split; [reflexivity|]. split; [exact T|exact Hwire].
Qed.

Lemma pack_of_prefix (sq ackn : Z) (p : list byte) (n0 : Z) :
  0 <= n0 <= Z.of_nat (length p) ->
  snd (bb_wire_pack bld 1500 BB_FLAG_DATA sq ackn p n0) =
  snd (bb_wire_pack bld 1500 BB_FLAG_DATA sq ackn (firstn (Z.to_nat n0) p)
         (Z.of_nat (length (firstn (Z.to_nat n0) p)))).
Proof.
  intros Hn. rewrite firstn_length_le by lia. rewrite Z2Nat.id by lia.
  rewrite !pack_unfold. destruct (1500 <? sizeof_hdr + n0); [reflexivity|].
  cbn [snd]. rewrite firstn_firstn, Nat.min_id. reflexivity.
Qed.

(** The [while (off < len)] loop of [bb_proto_send] on a channel that
    accepts every frame. *)
Lemma send_loop_frames (fuel : nat) :
  forall (w : world) (s : gbn_t) (data : list byte) (len off : Z),
    channel_up -> 1 <= mss (cfg s) <= 1482 ->
    0 <= off <= len -> len <= Z.of_nat (length data) -> len - off <= Z.of_nat fuel ->
    let res := send_loop bld e fuel w s data len off in
    let s' := snd (fst res) in
    fst (fst res) = 0 /\
    exists k : nat,
      wire (snd res) =
        wire w ++ data_frames bld (snd_nxt s) (rcv_nxt s)
                    (chunks (Z.to_nat (mss (cfg s)))
                            (skipn (Z.to_nat off) (firstn (Z.to_nat len) data)) k) /\
      snd_nxt s' = Nat.iter k bb_next_seq (snd_nxt s) /\
      snd_una s' = snd_una s /\ rcv_nxt s' = rcv_nxt s /\ cfg s' = cfg s /\
      outbuf s' = outbuf s /\
      Z.of_nat k * mss (cfg s) < (len - off) + mss (cfg s) /\
      (len - off <= Z.of_nat k * mss (cfg s) \/
       wnd (cfg s) <= u32 (snd_nxt s' - snd_una s')).
Proof.
  induction fuel as [|fuel IH]; intros w s data len off Hup Hmss Hoff Hlen Hfuel.
  - cbn [send_loop fst snd]. split; [reflexivity|]. exists 0%nat.
    cbn [chunks data_frames Nat.iter]. rewrite app_nil_r.
    repeat split; try reflexivity; lia.
  - cbn [send_loop].
    destruct (Z.ltb_spec off len) as [Hlt|Hge].
    2:{ cbn [fst snd]. split; [reflexivity|]. exists 0%nat.
        cbn [chunks data_frames Nat.iter]. rewrite app_nil_r.
        repeat split; try reflexivity; lia. }
    destruct (Z.geb_spec (u32 (snd_nxt s - snd_una s)) (wnd (cfg s))) as [Hfull|Hroom].
    { cbn [fst snd]. split; [reflexivity|]. exists 0%nat.
      cbn [chunks data_frames Nat.iter]. rewrite app_nil_r.
      repeat split; try reflexivity; lia. }
    set (chunk := if len - off >? mss (cfg s) then mss (cfg s) else len - off).
    assert (Hchunk : 1 <= chunk <= 1482 /\ chunk <= len - off /\ chunk <= mss (cfg s) /\
                     (chunk = mss (cfg s) \/ chunk = len - off)).
    { subst chunk. destruct (Z.gtb_spec (len - off) (mss (cfg s))); lia. }
    pose proof (send_frame_ok w s (snd_nxt s) (skipn (Z.to_nat off) data) chunk Hup
                  ltac:(lia)) as (R1 & R2 & R3).
    destruct (send_frame bld e w s (snd_nxt s) (skipn (Z.to_nat off) data) chunk)
      as [[r s1] w1].
    cbn [fst snd] in R1, R2, R3. subst r. cbn [Z.ltb Z.compare].
    destruct R2 as (E1 & E2 & E3 & E4 & E5 & _).
    set (s2 := set_snd_nxt s1 (bb_next_seq (snd_nxt s1))).
    assert (Hs2 : cfg s2 = cfg s /\ snd_una s2 = snd_una s /\ rcv_nxt s2 = rcv_nxt s /\
                  outbuf s2 = outbuf s /\ snd_nxt s2 = bb_next_seq (snd_nxt s)).
    { subst s2. cbn. rewrite E3. auto. }
    destruct Hs2 as (C1 & C2 & C3 & C4 & C5).
    pose proof (IH w1 s2 data len (off + chunk) Hup ltac:(rewrite C1; lia) ltac:(lia) Hlen
                  ltac:(lia)) as (I1 & k & I2 & I3 & I4 & I5 & I6 & I7 & I8 & I9).
    destruct (send_loop bld e fuel w1 s2 data len (off + chunk)) as [[r s3] w3].
    cbn [fst snd] in *. split; [exact I1|]. exists (S k).
    rewrite C1, C2, C3, C4, C5 in *.
    set (F := firstn (Z.to_nat len) data) in *.
    set (X := skipn (Z.to_nat off) F).
    assert (HF : length F = Z.to_nat len) by (subst F; apply firstn_length_le; lia).
    assert (HX : length X = Z.to_nat (len - off)).
    { subst X. rewrite length_skipn, HF. lia. }
    assert (Hrest : skipn (Z.to_nat (mss (cfg s))) X = skipn (Z.to_nat (off + chunk)) F).
    { destruct Hchunk as (Hc1 & Hc2 & Hc3 & [Hc|Hc]).
      - subst X. rewrite skipn_skipn, Hc. f_equal. lia.
      - rewrite (skipn_all2 (n := Z.to_nat (mss (cfg s))) X) by lia.
        rewrite (skipn_all2 (n := Z.to_nat (off + chunk)) F) by lia. reflexivity. }
    assert (Hfirst : firstn (Z.to_nat (mss (cfg s))) X =
                     firstn (Z.to_nat chunk) (skipn (Z.to_nat off) data)).
    { subst X F. rewrite skipn_firstn_comm, firstn_firstn. f_equal. lia. }
    split.
    { rewrite I2, R3, <- app_assoc. f_equal. cbn [chunks data_frames app].
      rewrite Hrest, Hfirst. f_equal.
      apply pack_of_prefix. rewrite length_skipn. lia. }
    split; [rewrite I3, Nat.iter_succ_r; reflexivity|].
    repeat split; try assumption; try lia.
    destruct Hchunk as (Hc1 & Hc2 & Hc3 & [Hc|Hc]); [nia|].
    assert (k = 0%nat) by nia. subst k. lia.
Qed.

End Steps.

(** [bb_proto_send] on a channel that accepts every frame. *)
Lemma send_segments (bld : build) (e : env) (w : world) (s : gbn_t) (data : list byte) :
  (forall k : nat, 0 <= send_ret e k) -> 1 <= mss (cfg s) <= 1482 ->
  let len := Z.min (Z.of_nat (length data)) outcap in
  let cut := firstn (Z.to_nat len) data in
  let res := bb_proto_send bld e w s data in
  let s' := snd (fst res) in
  fst (fst res) = 0 /\
  exists k : nat,
    let payloads := chunks (Z.to_nat (mss (cfg s))) cut k in
    wire (snd res) = wire w ++ data_frames bld (snd_nxt s) (rcv_nxt s) payloads /\
    concat payloads = firstn (k * Z.to_nat (mss (cfg s))) cut /\
    snd_nxt s' = Nat.iter k bb_next_seq (snd_nxt s) /\
    snd_una s' = snd_una s /\ rcv_nxt s' = rcv_nxt s /\ outbuf s' = cut /\
    Z.of_nat k * mss (cfg s) < len + mss (cfg s) /\
    (len <= Z.of_nat k * mss (cfg s) \/ wnd (cfg s) <= u32 (snd_nxt s' - snd_una s')).
Proof.
  intros Hup Hmss len cut. unfold bb_proto_send.
  assert (Elen : (if Z.of_nat (length data) >? outcap then outcap
                  else Z.of_nat (length data)) = len).
  { subst len. destruct (Z.gtb_spec (Z.of_nat (length data)) outcap); lia. }
  rewrite Elen. fold cut.
  assert (Hlen : 0 <= len <= Z.of_nat (length data)) by (subst len; unfold outcap; lia).
  pose proof (send_loop_frames bld e (Z.to_nat len) w (set_outbuf s cut) data len 0 Hup
                ltac:(cbn; lia) ltac:(lia) ltac:(lia) ltac:(lia))
    as (I1 & k & I2 & I3 & I4 & I5 & I6 & I7 & I8 & I9).
  destruct (send_loop bld e (Z.to_nat len) w (set_outbuf s cut) data len 0) as [[r s'] w'].
  cbn [fst snd cfg snd_nxt snd_una rcv_nxt outbuf set_outbuf] in *.
  split; [exact I1|]. exists k. cbv zeta.
  change (Z.to_nat 0) with 0%nat in I2. rewrite skipn_O in I2. fold cut in I2.
  split; [exact I2|]. split; [apply concat_chunks|].
  rewrite Z.sub_0_r in *. auto 10.
Qed.

(** X12.  Segmentation by [bb_proto_send] (Go-Back-N).  With a segment
    size between 1 and 1482 bytes and a channel that accepts every frame,
    the call returns 0 after handing the channel [k] DATA frames and
    nothing else: their payloads are the first [k] pieces of [mss] bytes
    of the buffer (cut to 64 KiB), so together a prefix of it, their
    sequence numbers run from [snd_nxt] in steps of [bb_next_seq], and
    each carries [rcv_nxt] as acknowledgement.  The call stops only when
    the buffer is used up or the window is full, and in the second case
    the rest of the buffer is not sent. *)
Theorem gbn_send_segments (bld : build) (e : env) (w : world) (s : gbn_t)
    (data : list byte) :
  (forall k : nat, 0 <= send_ret e k) -> 1 <= mss (cfg s) <= 1482 ->
  let len := Z.min (Z.of_nat (length data)) outcap in
  let cut := firstn (Z.to_nat len) data in
  let '(r, s', w') := bb_proto_send bld e w s data in
  r = 0 /\
  exists k : nat,
    let payloads := chunks (Z.to_nat (mss (cfg s))) cut k in
    wire w' = wire w ++ data_frames bld (snd_nxt s) (rcv_nxt s) payloads /\
    concat payloads = firstn (k * Z.to_nat (mss (cfg s))) cut /\
    snd_nxt s' = Nat.iter k bb_next_seq (snd_nxt s) /\
    snd_una s' = snd_una s /\ rcv_nxt s' = rcv_nxt s /\ outbuf s' = cut /\
    Z.of_nat k * mss (cfg s) < len + mss (cfg s) /\
    (len <= Z.of_nat k * mss (cfg s) \/ wnd (cfg s) <= u32 (snd_nxt s' - snd_una s')).
Proof.
  intros Hup Hmss len cut.
  pose proof (send_segments bld e w s data Hup Hmss) as H. cbv zeta in H.
  destruct (bb_proto_send bld e w s data) as [[r s'] w']. exact H.
Qed.

Definition up : env := {| now_ns := fun k => Z.of_nat k; send_ret := fun _ => 1 |}.

Lemma gbn_send_segments_witness :
  let s := bb_proto_gbn_create {| init_seq := 7; wnd := 2; mss := 2; rto_ms := 50 |} in
  let data := [Byte.x41; Byte.x42; Byte.x43; Byte.x44; Byte.x45] in
  let len := Z.min (Z.of_nat (length data)) outcap in
  let cut := firstn (Z.to_nat len) data in
  let '(r, s', w') := bb_proto_send portable up world0 s data in
  r = 0 /\
  exists k : nat,
    let payloads := chunks (Z.to_nat (mss (cfg s))) cut k in
    wire w' = wire world0 ++ data_frames portable (snd_nxt s) (rcv_nxt s) payloads /\
    concat payloads = firstn (k * Z.to_nat (mss (cfg s))) cut /\
    snd_nxt s' = Nat.iter k bb_next_seq (snd_nxt s) /\
    snd_una s' = snd_una s /\ rcv_nxt s' = rcv_nxt s /\ outbuf s' = cut /\
    Z.of_nat k * mss (cfg s) < len + mss (cfg s) /\
    (len <= Z.of_nat k * mss (cfg s) \/ wnd (cfg s) <= u32 (snd_nxt s' - snd_una s')).
Proof.
  intros s data.
  apply (gbn_send_segments portable up world0 s data).
  - intros k. cbn. lia.
  - cbn. lia.
Defined.

(** X13.  A segment that does not fit the 1500-byte frame buffer fails the
    call: with [mss] above 1482, room in the window and a buffer of more
    than 1482 and fewer than 65536 bytes, [bb_proto_send] returns -1,
    hands nothing to the channel and leaves [snd_nxt] where it was; the
    retransmission snapshot has been replaced all the same. *)
Theorem gbn_send_oversized_segment_fails (bld : build) (e : env) (w : world) (s : gbn_t)
    (data : list byte) :
  1482 < mss (cfg s) -> 1482 < Z.of_nat (length data) < 65536 ->
  u32 (snd_nxt s - snd_una s) < wnd (cfg s) ->
  let '(r, s', w') := bb_proto_send bld e w s data in
  r = -1 /\ w' = w /\ snd_nxt s' = snd_nxt s /\ snd_una s' = snd_una s /\
  timer_running s' = timer_running s /\ outbuf s' = data.
Proof.
  intros Hmss Hlen Hroom. unfold bb_proto_send, outcap.
  destruct (Z.gtb_spec (Z.of_nat (length data)) (64 * 1024)); [lia|].
  rewrite Nat2Z.id, firstn_all.
  destruct (length data) as [|n0] eqn:El; [cbn in Hlen; lia|].
  cbn [send_loop]. rewrite <- El.
  destruct (Z.ltb_spec 0 (Z.of_nat (length data))); [|lia].
  cbn [snd_nxt snd_una cfg set_outbuf].
  destruct (Z.geb_spec (u32 (snd_nxt s - snd_una s)) (wnd (cfg s))); [lia|].
  rewrite Z.sub_0_r.
  set (chunk := if Z.of_nat (length data) >? mss (cfg s) then mss (cfg s)
                else Z.of_nat (length data)).
  assert (Hchunk : 1482 < chunk < 65536).
  { subst chunk. destruct (Z.gtb_spec (Z.of_nat (length data)) (mss (cfg s))); lia. }
  unfold send_frame. cbn [rcv_nxt set_outbuf].
  assert (E16 : u16 chunk = chunk) by (apply Z.mod_small; lia). rewrite E16.
  rewrite pack_unfold. unfold sizeof_hdr.
  destruct (Z.ltb_spec 1500 (18 + chunk)); [|lia].
  cbn. auto 10.
Qed.

Lemma gbn_send_oversized_segment_fails_witness :
  let s := bb_proto_gbn_create {| init_seq := 0; wnd := 4; mss := 2000; rto_ms := 50 |} in
  let data := repeat Byte.x00 1500 in
  let '(r, s', w') := bb_proto_send portable up world0 s data in
  r = -1 /\ w' = world0 /\ snd_nxt s' = snd_nxt s /\ snd_una s' = snd_una s /\
  timer_running s' = timer_running s /\ outbuf s' = data.
Proof.
  intros s data.
  apply (gbn_send_oversized_segment_fails portable up world0 s data).
  - cbn. lia.
  - subst data. rewrite repeat_length. lia.
  - cbn. lia.
Defined.

Section Receiver.

Variable bld : build.
Variable e : env.

Lemma send_ack_wire (w : world) (ackn : Z) :
  wire (send_ack bld e w ackn) =
  wire w ++ [snd (bb_wire_pack bld 64 BB_FLAG_ACK 0 ackn [] 0)].
Proof.
  unfold send_ack. destruct (bb_wire_pack bld 64 BB_FLAG_ACK 0 ackn [] 0) as [m abuf].
  reflexivity.
Qed.

(** A cumulative ACK leaves [snd_nxt] and the receive side alone and never
    raises the number of outstanding segments. *)
Lemma ack_step_shrinks (w : world) (s : gbn_t) (h : bb_hdr_t) :
  0 <= ack h < 2 ^ 32 -> wnd (cfg s) < 2 ^ 31 -> window_ok s ->
  let s' := fst (ack_step e w s h) in
  snd_nxt s' = snd_nxt s /\ rcv_nxt s' = rcv_nxt s /\ have_in s' = have_in s /\
  u32 (snd_nxt s' - snd_una s') <= u32 (snd_nxt s - snd_una s).
Proof.
  intros Ha Hw31 (Hu & Hn & Hw & Hd). unfold ack_step.
  destruct (Z.geb_spec (seq_cmp (ack h) (snd_una s)) 0) as [H1|H1];
    [|cbn; repeat split; lia].
  destruct (Z.leb_spec (seq_cmp (ack h) (snd_nxt s)) 0) as [H2|H2];
    [|cbn; repeat split; lia].
  cbn [andb].
  pose proof (ack_in_window (snd_una s) (snd_nxt s) (ack h) Hu Hn Ha
                ltac:(lia) ltac:(lia) H2) as E.
  pose proof (u32_range (ack h - snd_una s)).
  destruct (seq_cmp _ _ =? 0); cbn; repeat split; lia.
Qed.

Lemma rto_check_keeps (w : world) (s : gbn_t) :
  let s' := fst (rto_check bld e w s) in
  cfg s' = cfg s /\ snd_una s' = snd_una s /\ snd_nxt s' = snd_nxt s /\
  rcv_nxt s' = rcv_nxt s /\ have_in s' = have_in s.
Proof.
  pose proof (rto_check_spec bld e w s) as [(E1 & E2 & E3 & E4 & _ & _ & E7) _].
  cbv zeta. auto.
Qed.

Lemma window_ok_keeps (s s' : gbn_t) :
  cfg s' = cfg s -> snd_una s' = snd_una s -> snd_nxt s' = snd_nxt s ->
  window_ok s -> window_ok s'.
Proof. unfold window_ok. intros -> -> ->. tauto. Qed.

End Receiver.

(** A DATA frame at the receiver. *)
Lemma recv_data (bld : build) (e : env) (w : world) (s : gbn_t)
    (cap : Z) (d : list byte) (h : bb_hdr_t) (pl : list byte) :
  have_in s = false -> 0 <= rcv_nxt s < 2 ^ 32 ->
  (length d <= 2048)%nat -> bb_wire_parse bld d = Some (h, pl) ->
  Z.land (flags h) BB_FLAG_DATA <> 0 ->
  let res := bb_proto_recv bld e w s cap (RxData d) in
  let L := fst (fst (fst res)) in
  let out := snd (fst (fst res)) in
  let s' := snd (fst res) in
  (if seq h =? rcv_nxt s
   then L = Z.min (len h) cap /\ out = firstn (Z.to_nat L) pl /\
        rcv_nxt s' = bb_next_seq (rcv_nxt s)
   else L = 0 /\ out = [] /\ rcv_nxt s' = rcv_nxt s) /\
  (exists before : list (list byte),
     wire (snd res) =
       before ++ [snd (bb_wire_pack bld 64 BB_FLAG_ACK 0 (rcv_nxt s') [] 0)]) /\
  have_in s' = false.
Proof.
  intros Hin Hr Hd Hp Hflag. unfold bb_proto_recv. rewrite Hin.
  pose proof (rto_check_keeps bld e w s) as (_ & _ & _ & K1 & J1).
  destruct (rto_check bld e w s) as [s1 w1]. cbn [fst] in K1, J1.
  destruct (parsed_len_bound _ _ _ _ Hp) as [Hl H18].
  assert (Ed : firstn 2048 d = d) by (apply firstn_all2; exact Hd).
  cbn [rx_rn rx_ibuf]. rewrite Ed.
  destruct (Z.leb_spec (Z.of_nat (length d)) 0); [lia|].
  rewrite Hp.
  assert (K2 : rcv_nxt (fst (ack_step e w1 s1 h)) = rcv_nxt s1 /\
               have_in (fst (ack_step e w1 s1 h)) = have_in s1).
  { unfold ack_step. destruct (_ && _); [|auto].
    destruct (_ =? 0); auto. }
  destruct (ack_step e w1 s1 h) as [s2 w2]. cbn [fst] in K2. destruct K2 as [K2 J2].
  destruct (Z.eqb_spec (Z.land (flags h) BB_FLAG_DATA) 0); [contradiction|].
  pose proof (parsed_seq_range _ _ _ _ Hp) as Hs.
  rewrite K2, K1.
  pose proof (seq_cmp_zero_iff (seq h) (rcv_nxt s) Hs Hr) as Hz.
  destruct (Z.eqb_spec (seq_cmp (seq h) (rcv_nxt s)) 0) as [E0|E0]; cbn [negb].
  - apply Hz in E0. destruct (Z.eqb_spec (seq h) (rcv_nxt s)); [|contradiction].
    cbn [fst snd rcv_nxt have_in set_rcv_nxt]. rewrite ?K2, ?K1.
    split; [|split; [eexists; apply send_ack_wire|congruence]].
    split; [destruct (Z.gtb_spec (len h) cap); lia|]. split; reflexivity.
  - destruct (Z.eqb_spec (seq h) (rcv_nxt s)) as [Eq|_]; [apply Hz in Eq; contradiction|].
    cbn [fst snd]. rewrite ?K2, ?K1.
    split; [auto|]. split; [eexists; apply send_ack_wire|congruence].
Qed.

(** X14.  The Go-Back-N receiver delivers in order only.  A datagram that
    parses as a DATA frame is delivered, up to [cap] bytes of it, exactly
    when its sequence number is [rcv_nxt], which then advances by one;
    any other DATA frame is discarded and delivers nothing.  Either way
    the last frame handed to the channel is an ACK carrying the
    [rcv_nxt] the call ends with. *)
Theorem gbn_recv_delivers_in_order_only (bld : build) (e : env) (w : world) (s : gbn_t)
    (cap : Z) (d : list byte) (h : bb_hdr_t) (pl : list byte) :
  have_in s = false -> 0 <= rcv_nxt s < 2 ^ 32 ->
  (length d <= 2048)%nat -> bb_wire_parse bld d = Some (h, pl) ->
  Z.land (flags h) BB_FLAG_DATA <> 0 ->
  let '(L, out, s', w') := bb_proto_recv bld e w s cap (RxData d) in
  (if seq h =? rcv_nxt s
   then L = Z.min (len h) cap /\ out = firstn (Z.to_nat L) pl /\
        rcv_nxt s' = bb_next_seq (rcv_nxt s)
   else L = 0 /\ out = [] /\ rcv_nxt s' = rcv_nxt s) /\
  exists before : list (list byte),
    wire w' = before ++ [snd (bb_wire_pack bld 64 BB_FLAG_ACK 0 (rcv_nxt s') [] 0)].
Proof.
  intros Hin Hr Hd Hp Hflag.
  pose proof (recv_data bld e w s cap d h pl Hin Hr Hd Hp Hflag) as H. cbv zeta in H.
  destruct (bb_proto_recv bld e w s cap (RxData d)) as [[[L out] s'] w'].
  cbn [fst snd] in H. tauto.
Qed.

Definition abc_frame : list byte :=
  snd (bb_wire_pack portable 1500 BB_FLAG_DATA 7 7 [Byte.x41; Byte.x42; Byte.x43] 3).

Lemma gbn_recv_delivers_in_order_only_witness :
  let s := bb_proto_gbn_create {| init_seq := 7; wnd := 2; mss := 2; rto_ms := 50 |} in
  let h := hdr_of_bytes abc_frame in
  let pl := [Byte.x41; Byte.x42; Byte.x43] in
  let '(L, out, s', w') := bb_proto_recv portable up world0 s 2 (RxData abc_frame) in
  (if seq h =? rcv_nxt s
   then L = Z.min (len h) 2 /\ out = firstn (Z.to_nat L) pl /\
        rcv_nxt s' = bb_next_seq (rcv_nxt s)
   else L = 0 /\ out = [] /\ rcv_nxt s' = rcv_nxt s) /\
  exists before : list (list byte),
    wire w' = before ++ [snd (bb_wire_pack portable 64 BB_FLAG_ACK 0 (rcv_nxt s') [] 0)].
Proof.
  intros s h pl.
  apply (gbn_recv_delivers_in_order_only portable up world0 s 2 abc_frame h pl).
  - reflexivity.
  - cbn. lia.
  - vm_compute. lia.
  - reflexivity.
  - vm_compute. discriminate.
Defined.

(** X15.  A call of [bb_proto_recv] (Go-Back-N) sends no new data and
    takes no acknowledgement back: from a state within its window, with a
    window below 2^31, [snd_nxt] is unchanged, the number of outstanding
    segments does not grow, and [rcv_nxt] advances by at most one. *)
Theorem gbn_recv_only_acknowledges (bld : build) (e : env) (w : world) (s : gbn_t)
    (cap : Z) (got : chan_rx) :
  0 <= snd_una s < 2 ^ 32 -> 0 <= snd_nxt s < 2 ^ 32 ->
  u32 (snd_nxt s - snd_una s) <= wnd (cfg s) -> 0 <= wnd (cfg s) < 2 ^ 31 ->
  let s' := snd (fst (bb_proto_recv bld e w s cap got)) in
  snd_nxt s' = snd_nxt s /\
  u32 (snd_nxt s' - snd_una s') <= u32 (snd_nxt s - snd_una s) /\
  (rcv_nxt s' = rcv_nxt s \/ rcv_nxt s' = bb_next_seq (rcv_nxt s)).
Proof.
  intros Hu Hn Hd Hw.
  assert (Hok : window_ok s) by (unfold window_ok; repeat split; lia).
  unfold bb_proto_recv.
  destruct (have_in s); [cbn; repeat split; auto; lia|].
  pose proof (rto_check_keeps bld e w s) as (A1 & A2 & A3 & A4 & _).
  destruct (rto_check bld e w s) as [s1 w1]. cbn [fst] in *.
  assert (Hok1 : window_ok s1) by (eapply window_ok_keeps; eassumption).
  destruct (rx_rn got <=? 0).
  { destruct (rx_rn got =? 0).
    - pose proof (rto_check_keeps bld e w1 s1) as (B1 & B2 & B3 & B4 & _).
      destruct (rto_check bld e w1 s1) as [s2 w2]. cbn [fst snd] in *.
      rewrite B2, B3, B4, A2, A3, A4. repeat split; auto; lia.
    - cbn [fst snd]. rewrite A2, A3, A4. repeat split; auto; lia. }
  destruct (bb_wire_parse bld (rx_ibuf got)) as [[h pl]|] eqn:Hp;
    [|cbn [fst snd]; rewrite A2, A3, A4; repeat split; auto; lia].
  pose proof (ack_step_shrinks e w1 s1 h (parsed_ack_range _ _ _ _ Hp)
                ltac:(rewrite A1; lia) Hok1) as (C1 & C2 & _ & C4).
  destruct (ack_step e w1 s1 h) as [s2 w2]. cbn [fst] in *.
  rewrite A2, A3 in C4. rewrite A3 in C1. rewrite A4 in C2.
  destruct (Z.land (flags h) BB_FLAG_DATA =? 0); [cbn [fst snd]; auto|].
  destruct (negb (seq_cmp (seq h) (rcv_nxt s2) =? 0)); cbn [fst snd]; [auto|].
  cbn [snd_nxt snd_una rcv_nxt set_rcv_nxt]. rewrite C2. auto.
Qed.

Lemma gbn_recv_only_acknowledges_witness :
  let s := bb_proto_gbn_create {| init_seq := 7; wnd := 2; mss := 2; rto_ms := 50 |} in
  let s' := snd (fst (bb_proto_recv portable up world0 s 2 (RxData abc_frame))) in
  snd_nxt s' = snd_nxt s /\
  u32 (snd_nxt s' - snd_una s') <= u32 (snd_nxt s - snd_una s) /\
  (rcv_nxt s' = rcv_nxt s \/ rcv_nxt s' = bb_next_seq (rcv_nxt s)).
Proof.
  intros s.
  apply (gbn_recv_only_acknowledges portable up world0 s 2 (RxData abc_frame));
    cbn; lia.
Defined.

(** X16.  [bb_proto_recv] (Go-Back-N) never writes past the caller's
    buffer: for a capacity [cap >= 0] the value returned is at most [cap],
    and when it is not negative it is exactly the number of bytes copied
    to [out]; on an error return nothing is copied. *)
Theorem gbn_recv_within_cap (bld : build) (e : env) (w : world) (s : gbn_t)
    (cap : Z) (got : chan_rx) :
  0 <= cap ->
  let '(L, out, _, _) := bb_proto_recv bld e w s cap got in
  L <= cap /\ (0 <= L -> Z.of_nat (length out) = L) /\ (L < 0 -> out = []).
Proof.
  intros Hcap. unfold bb_proto_recv.
  destruct (have_in s).
  { unfold inlen. set (n0 := if _ >? cap then cap else _).
    assert (0 <= n0 <= cap /\ n0 <= Z.of_nat (length (inbuf s))).
    { subst n0. destruct (Z.gtb_spec (Z.of_nat (length (inbuf s))) cap); lia. }
    split; [lia|]. split; [|lia]. intros _. rewrite firstn_length_le; lia. }
  destruct (rto_check bld e w s) as [s1 w1].
  destruct (Z.leb_spec (rx_rn got) 0).
  { destruct (if rx_rn got =? 0 then rto_check bld e w1 s1 else (s1, w1)) as [s2 w2].
    split; [lia|]. split; [intros; cbn; lia|reflexivity]. }
  destruct (bb_wire_parse bld (rx_ibuf got)) as [[h pl]|] eqn:Hp;
    [|cbn; repeat split; auto; lia].
  destruct (parsed_len_bound _ _ _ _ Hp) as [Hl _].
  destruct (ack_step e w1 s1 h) as [s2 w2].
  destruct (Z.land (flags h) BB_FLAG_DATA =? 0); [cbn; repeat split; auto; lia|].
  destruct (negb (seq_cmp (seq h) (rcv_nxt s2) =? 0)); [cbn; repeat split; auto; lia|].
  set (L := if len h >? cap then cap else len h).
  assert (0 <= L <= cap /\ L <= len h).
  { subst L. destruct (Z.gtb_spec (len h) cap); lia. }
  split; [lia|]. split; [|lia]. intros _. rewrite firstn_length_le; lia.
Qed.

Lemma gbn_recv_within_cap_witness :
  let s := bb_proto_gbn_create {| init_seq := 7; wnd := 2; mss := 2; rto_ms := 50 |} in
  let '(L, out, _, _) := bb_proto_recv portable up world0 s 2 (RxData abc_frame) in
  L <= 2 /\ (0 <= L -> Z.of_nat (length out) = L) /\ (L < 0 -> out = []).
Proof.
  intros s. apply (gbn_recv_within_cap portable up world0 s 2 (RxData abc_frame)). lia.
Defined.




End GbnMore.
(** ** Go-Back-N: retransmission and the closing acknowledgement *)

Module GbnResend.
Import Gbn GbnFacts GbnMore.

Section Steps.

Variable bld : build.
Variable e : env.

Hypothesis Hup : channel_up e.




End Steps.



(** X25.  The acknowledgement of everything sent closes the window.  In a
    state with fewer than 2^31 segments outstanding, an ACK frame as
    [send_ack] packs it, carrying the sender's [snd_nxt], makes
    [bb_proto_recv] return 0 with nothing delivered, [snd_una] equal to
    [snd_nxt] and the retransmission timer stopped; the receive side is
    not touched. *)
Theorem gbn_full_ack_closes_window (bld : build) (e : env) (w : world) (s : gbn_t)
    (cap : Z) :
  have_in s = false ->
  0 <= snd_una s < 2 ^ 32 -> 0 <= snd_nxt s < 2 ^ 32 ->
  u32 (snd_nxt s - snd_una s) < 2 ^ 31 ->
  let a := snd (bb_wire_pack bld 64 BB_FLAG_ACK 0 (snd_nxt s) [] 0) in
  let '(L, out, s', _) := bb_proto_recv bld e w s cap (RxData a) in
  L = 0 /\ out = [] /\ snd_una s' = snd_nxt s /\ snd_nxt s' = snd_nxt s /\
  timer_running s' = false /\ rcv_nxt s' = rcv_nxt s.
Proof.
  intros Hin Hu Hn Hd a.
  destruct (pack_parses bld 64 BB_FLAG_ACK 0 (snd_nxt s) []
              ltac:(unfold BB_FLAG_ACK; lia) ltac:(lia) Hn
              ltac:(unfold sizeof_hdr; cbn; lia) ltac:(cbn; lia))
    as (Hlen & h & Hp & Hf & _ & Ha & _).
  cbn [length Z.of_nat] in Hlen, Hp. fold a in Hlen, Hp.
  unfold bb_proto_recv. rewrite Hin.
  pose proof (rto_check_keeps bld e w s) as (K0 & K1 & K2 & K3 & _).
  destruct (rto_check bld e w s) as [s1 w1]. cbn [fst] in K0, K1, K2, K3.
  assert (Ed : firstn 2048 a = a) by (apply firstn_all2; lia).
  cbn [rx_rn rx_ibuf]. rewrite Ed.
  destruct (Z.leb_spec (Z.of_nat (length a)) 0); [lia|].
  rewrite Hp. unfold ack_step. rewrite Ha, K1, K2.
  rewrite (seq_cmp_outstanding (snd_una s) (snd_nxt s) Hd).
  pose proof (u32_range (snd_nxt s - snd_una s)).
  destruct (Z.geb_spec (u32 (snd_nxt s - snd_una s)) 0); [|lia].
  assert (E0 : seq_cmp (snd_nxt s) (snd_nxt s) = 0).
  { unfold seq_cmp. rewrite Z.sub_diag. reflexivity. }
  rewrite E0. cbn [Z.leb Z.compare andb snd_una snd_nxt set_snd_una].
  rewrite K2, E0. cbn [Z.eqb].
  rewrite Hf. change (Z.land BB_FLAG_ACK BB_FLAG_DATA =? 0) with true. cbv iota.
  cbn. auto 10.
Qed.

Lemma gbn_full_ack_closes_window_witness :
  let s0 := bb_proto_gbn_create {| init_seq := 7; wnd := 4; mss := 2; rto_ms := 50 |} in
  let s := snd (fst (bb_proto_send portable up world0 s0 [Byte.x41; Byte.x42; Byte.x43])) in
  let a := snd (bb_wire_pack portable 64 BB_FLAG_ACK 0 (snd_nxt s) [] 0) in
  let '(L, out, s', _) := bb_proto_recv portable up world0 s 16 (RxData a) in
  L = 0 /\ out = [] /\ snd_una s' = snd_nxt s /\ snd_nxt s' = snd_nxt s /\
  timer_running s' = false /\ rcv_nxt s' = rcv_nxt s.
Proof.
  intros s0 s.
  apply (gbn_full_ack_closes_window portable up world0 s 16);
    try reflexivity; vm_compute; split; discriminate || reflexivity.
Defined.

End GbnResend.
(** ** include/bb_timer.h: arming, expiry, time left *)

Module TimerMore.
Import Timer.

(** X17.  A timer armed for [ms] milliseconds at clock reading [t0] (the
    deadline [t0 + ms * 10^6] fitting 64 bits) reports expired at exactly
    the readings from the deadline on; there the time left is 0, before it
    the time left is the whole milliseconds up to the deadline and never
    more than [ms] while the clock has not gone back; once disarmed the
    timer is never expired, has no time left, and the clock is not read. *)
Theorem timer_expires_at_deadline (e : env) (w w2 : world) (ms : Z) :
  let t0 := now_ns e (clock_reads w) in
  let t2 := now_ns e (clock_reads w2) in
  0 <= ms -> 0 <= t0 -> t0 + ms * 1000000 < 2 ^ 64 ->
  let t := fst (bb_timer_arm e w ms) in
  (fst (bb_timer_expired e w2 t) = true <-> t0 + ms * 1000000 <= t2) /\
  (fst (bb_timer_expired e w2 t) = true -> fst (bb_timer_remaining_ms e w2 t) = 0) /\
  (fst (bb_timer_expired e w2 t) = false ->
   fst (bb_timer_remaining_ms e w2 t) = (t0 + ms * 1000000 - t2) / 1000000) /\
  (t0 <= t2 -> 0 <= fst (bb_timer_remaining_ms e w2 t) <= ms) /\
  bb_timer_expired e w2 (bb_timer_disarm t) = (false, w2) /\
  bb_timer_remaining_ms e w2 (bb_timer_disarm t) = (0, w2).
Proof.
  intros t0 t2 Hms Ht0 Hfit t.
  assert (Ed : deadline_ns t = t0 + ms * 1000000).
  { subst t. unfold bb_timer_arm, bb_now_ns, u64. cbn [fst deadline_ns]. fold t0.
    rewrite (Z.mod_small (ms * 1000000)) by lia. apply Z.mod_small. lia. }
  assert (Ea : armed t = true) by reflexivity.
  unfold bb_timer_expired, bb_timer_remaining_ms, bb_timer_disarm, bb_now_ns.
  rewrite Ea, Ed. cbn [fst armed]. fold t2.
  destruct (Z.leb_spec (t0 + ms * 1000000) t2) as [Hle|Hgt].
  - split; [split; [intros _; exact Hle|reflexivity]|].
    split; [reflexivity|]. split; [discriminate|]. split; [lia|].
    split; reflexivity.
  - assert (Hq : 0 <= (t0 + ms * 1000000 - t2) / 1000000) by (apply Z.div_pos; lia).
    split; [split; [discriminate|lia]|].
    split; [discriminate|]. split; [reflexivity|].
    split; [|split; reflexivity].
    intros Hmono. split; [exact Hq|]. apply Z.div_le_upper_bound; lia.
Qed.

Lemma timer_expires_at_deadline_witness :
  let e := second_per_read in
  let w := world0 in
  let w2 := {| clock_reads := 1; sends := 0; wire := [] |} in
  let t := fst (bb_timer_arm e w 120) in
  (fst (bb_timer_expired e w2 t) = true <-> 0 + 120 * 1000000 <= 1000000000) /\
  (fst (bb_timer_expired e w2 t) = true -> fst (bb_timer_remaining_ms e w2 t) = 0) /\
  (fst (bb_timer_expired e w2 t) = false ->
   fst (bb_timer_remaining_ms e w2 t) = (0 + 120 * 1000000 - 1000000000) / 1000000) /\
  (0 <= 1000000000 -> 0 <= fst (bb_timer_remaining_ms e w2 t) <= 120) /\
  bb_timer_expired e w2 (bb_timer_disarm t) = (false, w2) /\
  bb_timer_remaining_ms e w2 (bb_timer_disarm t) = (0, w2).
Proof.
  intros e w w2.
  apply (timer_expires_at_deadline e w w2 120); cbn; lia.
Defined.

End TimerMore.

(** ** Selective Repeat: return value, receiver, slot tables *)

Module SrMore.
Import Sr Timer SrFacts.

Lemma nth_store {A : Type} (l : list A) :
  forall (i j : nat) (x d : A),
    nth j (store l i x) d =
    if (i =? j)%nat && (i <? length l)%nat then x else nth j l d.
Proof.
  induction l as [|h t IH]; intros i j x d.
  - destruct i; cbn [store length]; rewrite andb_false_r; reflexivity.
  - destruct i as [|i], j as [|j]; try reflexivity.
    cbn [store nth]. rewrite IH. reflexivity.
Qed.

Lemma store_length {A : Type} (l : list A) :
  forall (i : nat) (x : A), length (store l i x) = length l.
Proof.
  induction l as [|h t IH]; intros i x; [destruct i; reflexivity|].
  destruct i; cbn [store length]; [reflexivity|]. now rewrite IH.
Qed.

(** *** What a call of [bb_proto_send] returns *)

Lemma window_drained (s : sr_t) :
  window_ok s -> ~ seq_cmp (snd_una s) (snd_nxt s) < 0 -> snd_una s = snd_nxt s.
Proof.
  intros (Hu & Hn & Hw & Hd) Hge. unfold BB_MAX_WND in Hw.
  rewrite seq_cmp_u32 in Hge.
  pose proof (u32_range (snd_nxt s - snd_una s)).
  destruct (u32_diff_cases (snd_nxt s) (snd_una s) Hn Hu) as [[? E1]|[? E1]];
  destruct (u32_diff_cases (snd_una s) (snd_nxt s) Hu Hn) as [[? E2]|[? E2]];
    rewrite E1 in *; rewrite E2 in *; try lia.
  - rewrite s32_big in Hge; lia.
  - rewrite s32_big in Hge; lia.
Qed.

Lemma send_from_returned (bld : build) (e : env) (rxs : list chan_rx) :
  forall (w : world) (s : sr_t) (data : list byte) (off : Z)
         (r : Z) (s' : sr_t) (w' : world),
    window_ok s ->
    send_from bld e rxs w s data off = Returned r s' w' ->
    (r = 0 \/ r = -1) /\ (r = 0 -> snd_una s' = snd_nxt s') /\ window_ok s'.
Proof.
  induction rxs as [|got rest IH]; intros w s data off r s' w' Hok Hret; cbn [send_from] in Hret.
  - destruct (off <? _); [discriminate|].
    destruct (Z.ltb_spec (seq_cmp (snd_una s) (snd_nxt s)) 0) as [|Hge]; [discriminate|].
    injection Hret as <- <- <-. split; [auto|]. split; [|exact Hok].
    intros _. apply window_drained; [exact Hok|lia].
  - destruct (off <? _).
    + pose proof (send_round_ok bld e w s data off got Hok) as H1.
      unfold send_round in *.
      destruct (retransmit_expired bld e w (poll_acks bld s got)) as [s1 w1].
      destruct (_ >=? wnd (cfg s1)).
      { cbn [round_state] in H1. eapply IH; eassumption. }
      destruct (send_frame bld e w1 s1 _ _ _) as [r1 w2].
      destruct (r1 <? 0).
      { injection Hret as <- <- <-. cbn [round_state] in H1.
        split; [auto|]. split; [discriminate|exact H1]. }
      destruct (bb_timer_arm e w2 _) as [t w3]. cbn [round_state] in H1.
      eapply IH; eassumption.
    + destruct (Z.ltb_spec (seq_cmp (snd_una s) (snd_nxt s)) 0) as [Hlt|Hge].
      * pose proof (drain_round_ok bld e w s got Hok) as H1.
        destruct (drain_round bld e w s got) as [s1 w1]. cbn [fst] in H1.
        eapply IH; eassumption.
      * injection Hret as <- <- <-. split; [auto|]. split; [|exact Hok].
        intros _. apply window_drained; [exact Hok|lia].
Qed.

(** X18.  [bb_proto_send] (Selective Repeat) returns 0 or -1, and 0 only
    with nothing left in flight: whatever the channel answers round by
    round, a call that returns 0 from a reachable state ends with
    [snd_una = snd_nxt], every segment it or an earlier call sent having
    been acknowledged. *)
Theorem sr_send_returns_zero_when_acknowledged (bld : build) (e : env)
    (c : bb_proto_cfg_t) (rxs : list chan_rx) (w : world) (s : sr_t)
    (data : list byte) (r : Z) (s' : sr_t) (w' : world) :
  cfg_wf c -> reachable bld e c s w ->
  bb_proto_send bld e rxs w s data = Returned r s' w' ->
  (r = 0 \/ r = -1) /\ (r = 0 -> snd_una s' = snd_nxt s').
Proof.
  intros Hwf Hr Hret.
  pose proof (sr_reachable_window_ok bld e c s w Hwf Hr) as Hok.
  destruct (send_from_returned bld e rxs w s data 0 r s' w' Hok Hret) as (H1 & H2 & _).
  auto.
Qed.

Lemma sr_send_returns_zero_when_acknowledged_witness :
  let s := bb_proto_sr_create scenario_cfg in
  let rxs := [RxTimeout; RxData (snd (bb_wire_pack portable 64 BB_FLAG_ACK 0 2 [] 0))] in
  exists (s' : sr_t) (w' : world),
    bb_proto_send portable second_per_read rxs world0 s abc = Returned 0 s' w' /\
    (0 = 0 \/ 0 = -1) /\ (0 = 0 -> snd_una s' = snd_nxt s').
Proof.
  intros s rxs. eexists. eexists. split.
  - vm_compute. reflexivity.
  - eapply (sr_send_returns_zero_when_acknowledged portable second_per_read scenario_cfg
              rxs world0 s abc).
    + exact scenario_cfg_wf.
    + apply reach_create.
    + vm_compute. reflexivity.
Defined.

(** *** The receiver *)

Section Receiver.

Variable bld : build.
Variable e : env.

Lemma consume_loop_rx (fuel : nat) :
  forall (s : sr_t) (a : Z),
    rx (consume_loop fuel s a) = rx s /\ rcv_nxt (consume_loop fuel s a) = rcv_nxt s.
Proof.
  induction fuel as [|fuel IH]; intros s a; cbn [consume_loop]; [auto|].
  destruct (_ <? 0); [|auto].
  match goal with |- context [consume_loop fuel ?s1 a] =>
    destruct (IH s1 a) as [-> ->] end.
  destruct (tx_inuse _); auto.
Qed.

Lemma consume_ack_rx (s : sr_t) (h : bb_hdr_t) :
  rx (consume_ack_any s h) = rx s /\ rcv_nxt (consume_ack_any s h) = rcv_nxt s /\
  cfg (consume_ack_any s h) = cfg s.
Proof.
  split; [|split; [|apply cfg_consume_ack]];
    unfold consume_ack_any; destruct (_ && _); try reflexivity; apply consume_loop_rx.
Qed.

Lemma sr_send_ack_wire (w : world) (s : sr_t) :
  wire (send_ack bld e w s) =
  wire w ++ [snd (bb_wire_pack bld 64 BB_FLAG_ACK 0 (rcv_nxt s) [] 0)].
Proof.
  unfold send_ack. destruct (bb_wire_pack bld 64 BB_FLAG_ACK 0 (rcv_nxt s) [] 0).
  reflexivity.
Qed.

End Receiver.

(** A sequence number outside the receive window
    [rcv_nxt, rcv_nxt + wnd), as [bb_proto_recv] tests it. *)
Definition outside_window (s : sr_t) (sq : Z) : Prop :=
  seq_cmp sq (u32 (rcv_nxt s + wnd (cfg s))) >= 0 \/ seq_cmp sq (rcv_nxt s) < 0.

(** X19.  The Selective-Repeat receiver answers every datagram that
    parses as a DATA frame with exactly one ACK, carrying the [rcv_nxt]
    the call ends with, and a frame without the DATA flag with nothing.
    A DATA frame outside the receive window changes neither the receive
    table nor [rcv_nxt], and nothing is delivered unless the frame's
    sequence number is [rcv_nxt]. *)
Theorem sr_recv_acknowledges_data (bld : build) (e : env) (w : world) (s : sr_t)
    (cap : Z) (d : list byte) (h : bb_hdr_t) (pl : list byte) :
  (length d <= 2048)%nat -> bb_wire_parse bld d = Some (h, pl) ->
  let '(L, out, s', w') := bb_proto_recv bld e w s cap (RxData d) in
  (if Z.land (flags h) BB_FLAG_DATA =? 0 then w' = w
   else wire w' = wire w ++ [snd (bb_wire_pack bld 64 BB_FLAG_ACK 0 (rcv_nxt s') [] 0)]) /\
  (outside_window s (seq h) -> rx s' = rx s /\ rcv_nxt s' = rcv_nxt s) /\
  (seq h <> rcv_nxt s \/ Z.land (flags h) BB_FLAG_DATA = 0 \/ outside_window s (seq h) ->
   L = 0 /\ out = [] /\ rcv_nxt s' = rcv_nxt s).
Proof.
  intros Hd Hp. unfold bb_proto_recv, outside_window.
  destruct (parsed_len_bound _ _ _ _ Hp) as [Hl H18].
  assert (Ed : firstn 2048 d = d) by (apply firstn_all2; exact Hd).
  cbn [rx_rn rx_ibuf]. rewrite Ed.
  destruct (Z.leb_spec (Z.of_nat (length d)) 0); [lia|].
  rewrite Hp.
  destruct (consume_ack_rx s h) as (K1 & K2 & K3).
  set (s1 := consume_ack_any s h) in *.
  destruct (Z.eqb_spec (Z.land (flags h) BB_FLAG_DATA) 0) as [Hf|Hf].
  { split; [reflexivity|]. split; auto. }
  rewrite ?K2, ?K3.
  destruct (Z.geb_spec (seq_cmp (seq h) (u32 (rcv_nxt s + wnd (cfg s)))) 0) as [Ha|Ha].
  { split; [rewrite sr_send_ack_wire; reflexivity|]. split; auto. }
  destruct (Z.ltb_spec (seq_cmp (seq h) (rcv_nxt s)) 0) as [Hb|Hb].
  { split; [rewrite sr_send_ack_wire; reflexivity|]. split; auto. }
  set (i := wrap_idx (seq h) (wnd (cfg s))).
  set (s2 := if rx_present (rx_at s1 i) then s1 else _).
  assert (K4 : rcv_nxt s2 = rcv_nxt s).
  { subst s2. destruct (rx_present _); [exact K2|cbn; exact K2]. }
  rewrite K4.
  destruct (Z.eqb_spec (seq h) (rcv_nxt s)) as [Eq|Ne].
  - split; [rewrite sr_send_ack_wire; reflexivity|].
    split; [intros [?|?]; lia|]. intros [?|[?|[?|?]]]; try contradiction; lia.
  - split; [rewrite sr_send_ack_wire; reflexivity|].
    split; [intros [?|?]; lia|]. intros _. auto.
Qed.

Lemma sr_recv_acknowledges_data_witness :
  let s := bb_proto_sr_create scenario_cfg in
  let d := snd (bb_wire_pack portable 1600 BB_FLAG_DATA 9 1 abc 3) in
  let '(L, out, s', w') := bb_proto_recv portable second_per_read world0 s 16 (RxData d) in
  (if Z.land (flags (hdr_of_bytes d)) BB_FLAG_DATA =? 0 then w' = world0
   else wire w' =
        wire world0 ++ [snd (bb_wire_pack portable 64 BB_FLAG_ACK 0 (rcv_nxt s') [] 0)]) /\
  (outside_window s (seq (hdr_of_bytes d)) -> rx s' = rx s /\ rcv_nxt s' = rcv_nxt s) /\
  (seq (hdr_of_bytes d) <> rcv_nxt s \/ Z.land (flags (hdr_of_bytes d)) BB_FLAG_DATA = 0 \/
   outside_window s (seq (hdr_of_bytes d)) ->
   L = 0 /\ out = [] /\ rcv_nxt s' = rcv_nxt s).
Proof.
  intros s d.
  apply (sr_recv_acknowledges_data portable second_per_read world0 s 16 d
           (hdr_of_bytes d) abc).
  - vm_compute. lia.
  - reflexivity.
Defined.

(** *** The slot tables *)

Lemma tx_at_set_tx (s : sr_t) (i j : Z) (x : tx_slot) :
  0 <= i -> 0 <= j ->
  tx_at (set_tx s i x) j =
  if (i =? j) && (i <? Z.of_nat (length (tx s))) then x else tx_at s j.
Proof.
  intros Hi Hj. unfold tx_at, set_tx. cbn [tx]. rewrite nth_store.
  destruct (Z.eqb_spec i j), (Nat.eqb_spec (Z.to_nat i) (Z.to_nat j)); try lia;
    destruct (Z.ltb_spec i (Z.of_nat (length (tx s)))),
             (Nat.ltb_spec (Z.to_nat i) (length (tx s))); try lia; reflexivity.
Qed.

Lemma rx_at_set_rx (s : sr_t) (i j : Z) (x : rx_slot) :
  0 <= i -> 0 <= j ->
  rx_at (set_rx s i x) j =
  if (i =? j) && (i <? Z.of_nat (length (rx s))) then x else rx_at s j.
Proof.
  intros Hi Hj. unfold rx_at, set_rx. cbn [rx]. rewrite nth_store.
  destruct (Z.eqb_spec i j), (Nat.eqb_spec (Z.to_nat i) (Z.to_nat j)); try lia;
    destruct (Z.ltb_spec i (Z.of_nat (length (rx s)))),
             (Nat.ltb_spec (Z.to_nat i) (length (rx s))); try lia; reflexivity.
Qed.

Lemma wrap_idx_range (x W : Z) : 0 <= W -> 0 <= wrap_idx x W /\ (wrap_idx x W < W \/ W = 0).
Proof.
  intros HW. unfold wrap_idx. destruct (Z.eqb_spec W 0); [lia|].
  pose proof (Z.mod_pos_bound x W ltac:(lia)). lia.
Qed.

Section Residues.

Variable W : Z.
Hypothesis W_pos : 0 < W.
Hypothesis W_divides : (W | 2 ^ 32).

Lemma mod_u32 (x : Z) : u32 x mod W = x mod W.
Proof. unfold u32. apply Z.mod_mod_divide, W_divides. Qed.

Lemma mod_eq_diff (a b : Z) : a mod W = b mod W -> (a - b) mod W = 0.
Proof. intros E. rewrite Zminus_mod, E, Z.sub_diag. apply Z.mod_0_l. lia. Qed.

(** Releasing the oldest outstanding segment. *)
Lemma track_pred (una d i : Z) :
  0 < d <= W ->
  ((exists k, 0 <= k < d - 1 /\ (u32 (una + 1) + k) mod W = i) <->
   (i <> una mod W /\ exists k, 0 <= k < d /\ (una + k) mod W = i)).
Proof.
  intros Hd.
  assert (Es : forall k, (u32 (una + 1) + k) mod W = (una + (k + 1)) mod W).
  { intros k. rewrite <- Zplus_mod_idemp_l, mod_u32, Zplus_mod_idemp_l. f_equal. lia. }
  split.
  - intros (k & Hk & E). rewrite Es in E. split.
    + intros Ei. rewrite Ei in E. apply mod_eq_diff in E.
      replace (una + (k + 1) - una) with (k + 1) in E by lia.
      rewrite Z.mod_small in E; lia.
    + exists (k + 1). split; [lia|exact E].
  - intros (Hne & k & Hk & E).
    assert (k <> 0) by (intros ->; rewrite Z.add_0_r in E; congruence).
    exists (k - 1). split; [lia|]. rewrite Es. rewrite <- E. f_equal. lia.
Qed.

(** Sending the next segment. *)
Lemma track_succ (una nxt i : Z) :
  0 <= nxt < 2 ^ 32 ->
  nxt mod W = (una + u32 (nxt - una)) mod W /\
  ((exists k, 0 <= k < u32 (nxt - una) + 1 /\ (una + k) mod W = i) <->
   (i = nxt mod W \/ exists k, 0 <= k < u32 (nxt - una) /\ (una + k) mod W = i)).
Proof.
  intros Hn.
  assert (En : nxt mod W = (una + u32 (nxt - una)) mod W).
  { assert (E1 : (una + u32 (nxt - una)) mod 2 ^ 32 = nxt).
    { unfold u32. rewrite Zplus_mod_idemp_r.
      replace (una + (nxt - una)) with nxt by lia. apply Z.mod_small. lia. }
    rewrite <- (mod_u32 (una + u32 (nxt - una))).
    change (u32 (una + u32 (nxt - una))) with ((una + u32 (nxt - una)) mod 2 ^ 32).
    rewrite E1. reflexivity. }
  split; [exact En|]. pose proof (u32_range (nxt - una)) as Hd. split.
  - intros (k & Hk & E).
    destruct (Z.eq_dec k (u32 (nxt - una))) as [->|Hne]; [left; congruence|].
    right. exists k. split; [lia|exact E].
  - intros [Ei|(k & Hk & E)].
    + exists (u32 (nxt - una)). split; [lia|congruence].
    + exists k. split; [lia|exact E].
Qed.

End Residues.

(** The in-use flags of the sender's table mark exactly the slots of the
    outstanding sequence numbers [snd_una, snd_nxt). *)
Definition slots_track (s : sr_t) : Prop :=
  forall i : Z, 0 <= i < wnd (cfg s) ->
    (tx_inuse (tx_at s i) = true <->
     exists k : Z, 0 <= k < u32 (snd_nxt s - snd_una s) /\
                   (snd_una s + k) mod wnd (cfg s) = i).

Definition slots_inv (s : sr_t) : Prop :=
  length (tx s) = 256%nat /\ 0 < wnd (cfg s) /\ (wnd (cfg s) | 2 ^ 32) /\
  window_ok s /\ slots_track s.

(** Two states with the same in-use flags. *)
Definition same_flags (s s' : sr_t) : Prop :=
  length (tx s') = length (tx s) /\
  forall j : Z, 0 <= j -> tx_inuse (tx_at s' j) = tx_inuse (tx_at s j).

Lemma same_flags_refl (s : sr_t) : same_flags s s.
Proof. unfold same_flags. auto. Qed.

Lemma same_flags_trans (a b c : sr_t) : same_flags a b -> same_flags b c -> same_flags a c.
Proof.
  unfold same_flags. intros [L1 F1] [L2 F2]. split; [congruence|].
  intros j Hj. rewrite F2, F1; auto.
Qed.

Lemma slots_inv_same (s s' : sr_t) :
  same_window s s' -> same_flags s s' -> slots_inv s -> slots_inv s'.
Proof.
  intros Hw [L F] (I1 & I2 & I3 & I4 & I5).
  pose proof (window_ok_same _ _ Hw I4) as Hok.
  destruct Hw as (E1 & E2 & E3).
  unfold slots_inv. rewrite L, E1.
  split; [exact I1|]. split; [exact I2|]. split; [exact I3|]. split; [exact Hok|].
  intros i Hi. rewrite E1 in *. rewrite E2, E3, F by lia. apply I5, Hi.
Qed.

Lemma slots_inv_create (c : bb_proto_cfg_t) :
  cfg_wf c -> (wnd (cfg (bb_proto_sr_create c)) | 2 ^ 32) ->
  slots_inv (bb_proto_sr_create c).
Proof.
  intros Hwf Hdiv. pose proof (sr_window_ok_create c Hwf) as Hok.
  split; [apply repeat_length|]. split.
  { destruct Hwf as (_ & Hw & _). unfold bb_proto_sr_create, BB_MAX_WND. cbn.
    destruct (Z.eqb_spec (wnd c) 0); [cbn; lia|].
    destruct (Z.gtb_spec (wnd c) 256); lia. }
  split; [exact Hdiv|]. split; [exact Hok|].
  intros i Hi. unfold tx_at. cbn [tx bb_proto_sr_create snd_una snd_nxt].
  rewrite nth_repeat, Z.sub_diag. cbn [tx_inuse tx_empty]. change (u32 0) with 0.
  split; [discriminate|]. intros (k & Hk & _). lia.
Qed.

Lemma consume_loop_slots (fuel : nat) :
  forall (s : sr_t) (a : Z),
    0 <= a < 2 ^ 32 -> slots_inv s ->
    u32 (a - snd_una s) <= u32 (snd_nxt s - snd_una s) ->
    slots_inv (consume_loop fuel s a).
Proof.
  induction fuel as [|fuel IH]; intros s a Ha Hinv Hle; cbn [consume_loop]; [exact Hinv|].
  destruct (Z.ltb_spec (seq_cmp (snd_una s) a) 0) as [Hlt|_]; [|exact Hinv].
  destruct Hinv as (I1 & I2 & I3 & Hok & I5).
  pose proof (consume_loop_ok 1 s a Ha Hok Hle) as Hok2. cbn [consume_loop] in Hok2.
  destruct (Z.ltb_spec (seq_cmp (snd_una s) a) 0) as [_|?]; [|lia].
  destruct Hok as (Hu & Hn & Hw & Hd).
  assert (Hx : 0 < u32 (a - snd_una s)).
  { pose proof (u32_range (a - snd_una s)).
    destruct (Z.eq_dec (u32 (a - snd_una s)) 0) as [E|]; [|lia].
    assert (a = snd_una s).
    { destruct (u32_diff_cases a (snd_una s) Ha Hu) as [[? E1]|[? E1]]; rewrite E1 in E; lia. }
    subst a. unfold seq_cmp in Hlt. rewrite Z.sub_diag in Hlt. cbn in Hlt. lia. }
  set (i := wrap_idx (snd_una s) (wnd (cfg s))) in *.
  assert (Ei : i = snd_una s mod wnd (cfg s)).
  { subst i. unfold wrap_idx. destruct (Z.eqb_spec (wnd (cfg s)) 0); [lia|reflexivity]. }
  assert (Hi : 0 <= i < wnd (cfg s)) by (rewrite Ei; apply Z.mod_pos_bound; lia).
  set (s1 := if tx_inuse (tx_at s i) then _ else s) in *.
  assert (Hs1 : cfg s1 = cfg s /\ snd_una s1 = snd_una s /\ snd_nxt s1 = snd_nxt s /\
                length (tx s1) = 256%nat /\
                forall j, 0 <= j < wnd (cfg s) ->
                  tx_inuse (tx_at s1 j) = if i =? j then false else tx_inuse (tx_at s j)).
  { subst s1. destruct (tx_inuse (tx_at s i)) eqn:Eu.
    - cbn [cfg snd_una snd_nxt set_tx tx]. rewrite store_length.
      repeat split; try assumption. intros j Hj.
      rewrite tx_at_set_tx by lia. rewrite I1. unfold BB_MAX_WND in Hw.
      destruct (Z.eqb_spec i j); [|reflexivity].
      destruct (Z.ltb_spec i (Z.of_nat 256)); [reflexivity|lia].
    - repeat split; try assumption. intros j Hj.
      destruct (Z.eqb_spec i j) as [<-|]; [exact Eu|reflexivity]. }
  destruct Hs1 as (C1 & C2 & C3 & C4 & C5). rewrite C2 in *.
  apply IH; [exact Ha| |].
  - split; [exact C4|]. cbn [cfg set_snd_una]. rewrite C1.
    split; [exact I2|]. split; [exact I3|]. split; [exact Hok2|].
    intros j Hj. cbn [tx_at set_snd_una snd_una snd_nxt cfg] in *.
    change (tx_at (set_snd_una s1 (u32 (snd_una s + 1))) j) with (tx_at s1 j).
    rewrite C3, C5 by (rewrite <- C1; exact Hj).
    rewrite C1 in *.
    rewrite outstanding_pred by lia.
    rewrite (track_pred (wnd (cfg s)) I2 I3 (snd_una s) (u32 (snd_nxt s - snd_una s)) j
               ltac:(lia)).
    rewrite <- Ei.
    destruct (Z.eqb_spec i j) as [Eij|Nij].
    + split; [discriminate|]. intros [Hne _]. congruence.
    + rewrite (I5 j Hj). split; [intros H; split; [congruence|exact H]|tauto].
  - cbn [snd_una snd_nxt set_snd_una]. rewrite C3.
    rewrite !outstanding_pred by lia. lia.
Qed.

Lemma consume_ack_slots (s : sr_t) (h : bb_hdr_t) :
  0 <= ack h < 2 ^ 32 -> slots_inv s -> slots_inv (consume_ack_any s h).
Proof.
  intros Ha Hinv. unfold consume_ack_any.
  destruct (Z.geb_spec (seq_cmp (ack h) (snd_una s)) 0) as [H1|H1]; [|exact Hinv].
  destruct (Z.leb_spec (seq_cmp (ack h) (snd_nxt s)) 0) as [H2|H2]; [|exact Hinv].
  cbn [andb]. apply consume_loop_slots; [exact Ha|exact Hinv|].
  destruct Hinv as (_ & _ & _ & (Hu & Hn & Hw & Hd) & _). unfold BB_MAX_WND in Hw.
  pose proof (ack_in_window (snd_una s) (snd_nxt s) (ack h) Hu Hn Ha
                ltac:(lia) ltac:(lia) H2) as E.
  pose proof (u32_range (snd_nxt s - ack h)). lia.
Qed.

Section Steps.

Variable bld : build.
Variable e : env.

Lemma poll_acks_slots (s : sr_t) (got : chan_rx) :
  slots_inv s -> slots_inv (poll_acks bld s got).
Proof.
  intros Hinv. unfold poll_acks. destruct (_ >? 0); [|exact Hinv].
  destruct (bb_wire_parse bld (rx_ibuf got)) as [[h pl]|] eqn:Hp; [|exact Hinv].
  apply consume_ack_slots; [|exact Hinv]. eapply parsed_ack_range, Hp.
Qed.

Lemma retransmit_scan_flags (fuel : nat) :
  forall (w : world) (s : sr_t) (qq : Z),
    0 <= wnd (cfg s) ->
    same_flags s (fst (retransmit_scan bld e fuel w s qq)) /\
    rx (fst (retransmit_scan bld e fuel w s qq)) = rx s /\
    rcv_nxt (fst (retransmit_scan bld e fuel w s qq)) = rcv_nxt s.
Proof.
  induction fuel as [|fuel IH]; intros w s qq HW; cbn [retransmit_scan];
    [split; [apply same_flags_refl|auto]|].
  destruct (_ >? 0); [|split; [apply same_flags_refl|auto]].
  match goal with |- context [let '(s0, w0) := ?X in _] =>
    assert (H : same_flags s (fst X) /\ rx (fst X) = rx s /\ rcv_nxt (fst X) = rcv_nxt s /\
                cfg (fst X) = cfg s);
      [|destruct X as [s1 w1]] end.
  { destruct (tx_inuse _) eqn:Eu; [|split; [apply same_flags_refl|auto]].
    destruct (bb_timer_expired e w _) as [x w1].
    destruct x; [|split; [apply same_flags_refl|auto]].
    destruct (send_frame bld e w1 s qq _ _) as [r w2].
    destruct (bb_timer_arm e w2 _) as [t w3]. cbn [fst].
    split; [|cbn; auto]. split; [cbn [tx set_tx]; apply store_length|].
    intros j Hj. destruct (wrap_idx_range qq (wnd (cfg s)) HW) as [Hi _].
    rewrite tx_at_set_tx by lia.
    destruct (Z.eqb_spec (wrap_idx qq (wnd (cfg s))) j) as [<-|]; [|reflexivity].
    destruct (_ <? _); [cbn; symmetry; exact Eu|reflexivity]. }
  cbn [fst] in H. destruct H as (F1 & R1 & N1 & C1).
  destruct (IH w1 s1 (u32 (qq + 1)) ltac:(rewrite C1; exact HW)) as (F2 & R2 & N2).
  split; [eapply same_flags_trans; eassumption|]. split; congruence.
Qed.

Lemma retransmit_expired_slots (w : world) (s : sr_t) :
  slots_inv s -> slots_inv (fst (retransmit_expired bld e w s)).
Proof.
  intros Hinv.
  assert (HW : 0 <= wnd (cfg s)) by (destruct Hinv as (_ & ? & _); lia).
  eapply slots_inv_same; [apply retransmit_expired_same| |exact Hinv].
  apply retransmit_scan_flags, HW.
Qed.

Lemma send_round_slots (w : world) (s : sr_t) (data : list byte) (off : Z) (got : chan_rx) :
  slots_inv s -> slots_inv (round_state (send_round bld e w s data off got)).
Proof.
  intros Hinv. pose proof (send_round_ok bld e w s data off got) as Hok'.
  unfold send_round in *.
  pose proof (retransmit_expired_slots w (poll_acks bld s got) (poll_acks_slots s got Hinv))
    as H1.
  destruct (retransmit_expired bld e w (poll_acks bld s got)) as [s1 w1]. cbn [fst] in H1.
  destruct (Z.geb_spec (u32 (snd_nxt s1 - snd_una s1)) (wnd (cfg s1))) as [Hfull|Hroom];
    [exact H1|].
  destruct (send_frame bld e w1 s1 _ _ _) as [r w2].
  destruct (r <? 0); [exact H1|].
  destruct (bb_timer_arm e w2 _) as [t w3]. cbn [round_state] in *.
  destruct H1 as (I1 & I2 & I3 & Hok & I5).
  specialize (Hok' (proj1 (proj2 (proj2 (proj2 Hinv))))).
  destruct Hok as (Hu & Hn & Hw & Hd). unfold BB_MAX_WND in Hw.
  set (i := wrap_idx (snd_nxt s1) (wnd (cfg s1))) in *.
  assert (Ei : i = snd_nxt s1 mod wnd (cfg s1)).
  { subst i. unfold wrap_idx. destruct (Z.eqb_spec (wnd (cfg s1)) 0); [lia|reflexivity]. }
  assert (Hi : 0 <= i < wnd (cfg s1)) by (rewrite Ei; apply Z.mod_pos_bound; lia).
  split; [cbn [tx set_snd_nxt set_tx]; rewrite store_length; exact I1|].
  cbn [cfg set_snd_nxt set_tx]. split; [exact I2|]. split; [exact I3|]. split; [exact Hok'|].
  intros j Hj. cbn [cfg snd_una snd_nxt set_snd_nxt set_tx] in *.
  match goal with |- context [tx_at (set_snd_nxt ?s2 _) j] =>
    change (tx_at (set_snd_nxt s2 (u32 (snd_nxt s1 + 1))) j) with (tx_at s2 j) end.
  rewrite tx_at_set_tx by lia. rewrite I1.
  rewrite outstanding_succ by lia.
  destruct (track_succ (wnd (cfg s1)) I3 (snd_una s1) (snd_nxt s1) j Hn) as [_ Hts].
  rewrite Hts, <- Ei.
  destruct (Z.eqb_spec i j) as [Eij|Nij].
  - destruct (Z.ltb_spec i (Z.of_nat 256)); [|lia]. cbn [andb tx_inuse].
    split; [intros _; left; congruence|reflexivity].
  - cbn [andb]. rewrite (I5 j Hj). split; [auto|]. intros [?|?]; [congruence|assumption].
Qed.

Lemma drain_round_slots (w : world) (s : sr_t) (got : chan_rx) :
  slots_inv s -> slots_inv (fst (drain_round bld e w s got)).
Proof.
  intros Hinv. unfold drain_round. apply retransmit_expired_slots, poll_acks_slots, Hinv.
Qed.

Lemma drain_buffered_tx (fuel : nat) :
  forall s : sr_t, tx (drain_buffered fuel s) = tx s.
Proof.
  induction fuel as [|fuel IH]; intros s; cbn [drain_buffered]; [reflexivity|].
  destruct (rx_present _); [|reflexivity]. rewrite IH. reflexivity.
Qed.

Lemma recv_slots (w : world) (s : sr_t) (cap : Z) (got : chan_rx) :
  slots_inv s -> slots_inv (snd (fst (bb_proto_recv bld e w s cap got))).
Proof.
  intros Hinv. unfold bb_proto_recv.
  destruct (rx_rn got <=? 0); [exact Hinv|].
  destruct (bb_wire_parse bld (rx_ibuf got)) as [[h pl]|] eqn:Hp; [|exact Hinv].
  pose proof (consume_ack_slots s h (parsed_ack_range _ _ _ _ Hp) Hinv) as H1.
  set (s1 := consume_ack_any s h) in *.
  destruct (Z.land (flags h) BB_FLAG_DATA =? 0); [exact H1|].
  destruct (_ >=? 0); [exact H1|]. destruct (_ <? 0); [exact H1|].
  set (s2 := if rx_present _ then s1 else _).
  assert (H2 : same_window s1 s2 /\ tx s2 = tx s1).
  { subst s2. destruct (rx_present _); [split; [apply same_window_refl|reflexivity]|].
    unfold same_window. cbn. tauto. }
  destruct H2 as [H2 T2].
  assert (Hinv2 : slots_inv s2).
  { eapply slots_inv_same; [exact H2| |exact H1].
    unfold same_flags, tx_at. rewrite T2. auto. }
  destruct (seq h =? rcv_nxt s2); [|exact Hinv2].
  cbn [fst snd]. eapply slots_inv_same; [| |exact Hinv2].
  - eapply same_window_trans; [|apply drain_buffered_same].
    unfold same_window. cbn. tauto.
  - unfold same_flags, tx_at. rewrite drain_buffered_tx. cbn [tx set_rcv_nxt set_rx]. auto.
Qed.

Lemma reachable_slots_inv (c : bb_proto_cfg_t) (s : sr_t) (w : world) :
  cfg_wf c -> (wnd (cfg (bb_proto_sr_create c)) | 2 ^ 32) ->
  reachable bld e c s w -> slots_inv s.
Proof.
  intros Hwf Hdiv Hr.
  induction Hr as [w|s w data off got _ IH _|s w got _ IH _|s w cap got _ IH _].
  - apply slots_inv_create; assumption.
  - apply send_round_slots, IH.
  - apply drain_round_slots, IH.
  - apply recv_slots, IH.
Qed.

End Steps.

(** X20.  The sender's slot table of Selective Repeat follows the window.
    When the effective window (the configured one, 32 for 0, at most 256)
    is a power of two, in every reachable state, also in the middle of a
    [bb_proto_send], the slot [i] is marked in use exactly when one of the
    outstanding sequence numbers [snd_una, snd_nxt) has [i] as its slot
    [wrap_idx]. *)
Theorem sr_slots_follow_window (bld : build) (e : env) (c : bb_proto_cfg_t)
    (s : sr_t) (w : world) (i : Z) :
  cfg_wf c -> (exists j : Z, 0 <= j <= 8 /\ wnd (cfg (bb_proto_sr_create c)) = 2 ^ j) ->
  reachable bld e c s w -> 0 <= i < wnd (cfg s) ->
  (tx_inuse (tx_at s i) = true <->
   exists k : Z, 0 <= k < u32 (snd_nxt s - snd_una s) /\
                 wrap_idx (u32 (snd_una s + k)) (wnd (cfg s)) = i).
Proof.
  intros Hwf (j & Hj & Epow) Hr Hi.
  assert (Hdiv : (wnd (cfg (bb_proto_sr_create c)) | 2 ^ 32)).
  { rewrite Epow. exists (2 ^ (32 - j)). rewrite <- Z.pow_add_r by lia. f_equal. lia. }
  destruct (reachable_slots_inv bld e c s w Hwf Hdiv Hr) as (_ & I2 & I3 & _ & I5).
  rewrite (I5 i Hi).
  assert (Ew : forall k, wrap_idx (u32 (snd_una s + k)) (wnd (cfg s)) =
                         (snd_una s + k) mod wnd (cfg s)).
  { intros k. unfold wrap_idx. destruct (Z.eqb_spec (wnd (cfg s)) 0); [lia|].
    apply mod_u32; assumption. }
  split; intros (k & Hk & E); exists k; (split; [exact Hk|]); rewrite Ew in *; exact E.
Qed.

Lemma sr_slots_follow_window_witness :
  let s0 := bb_proto_sr_create scenario_cfg in
  let s := round_state (send_round portable second_per_read world0 s0 abc 0 RxTimeout) in
  tx_inuse (tx_at s 1) = true <->
  exists k : Z, 0 <= k < u32 (snd_nxt s - snd_una s) /\
                wrap_idx (u32 (snd_una s + k)) (wnd (cfg s)) = 1.
Proof.
  intros s0 s.
  apply (sr_slots_follow_window portable second_per_read scenario_cfg s
           (round_world (send_round portable second_per_read world0 s0 abc 0 RxTimeout)) 1).
  - exact scenario_cfg_wf.
  - exists 5. split; [lia|reflexivity].
  - apply reach_send_round; [apply reach_create|cbn; lia].
  - cbn. lia.
Defined.

(** *** The receive table holds whole payloads *)

Definition rx_inv (s : sr_t) : Prop :=
  length (rx s) = 256%nat /\ 0 <= wnd (cfg s) <= 256 /\
  forall j : Z, 0 <= j -> rx_present (rx_at s j) = true ->
    Z.of_nat (length (rx_buf (rx_at s j))) = rx_len (rx_at s j).

Lemma rx_inv_same (s s' : sr_t) :
  rx s' = rx s -> cfg s' = cfg s -> rx_inv s -> rx_inv s'.
Proof. unfold rx_inv, rx_at. intros -> ->. tauto. Qed.

Lemma rx_inv_set_rx (s : sr_t) (i : Z) (x : rx_slot) :
  0 <= i ->
  (rx_present x = true -> Z.of_nat (length (rx_buf x)) = rx_len x) ->
  rx_inv s -> rx_inv (set_rx s i x).
Proof.
  intros Hi Hx (L & W & P). split; [cbn [rx set_rx]; rewrite store_length; exact L|].
  split; [exact W|]. intros j Hj. rewrite rx_at_set_rx by lia.
  destruct (_ && _); [exact Hx|apply P, Hj].
Qed.

Lemma drain_buffered_rx_inv (fuel : nat) :
  forall s : sr_t, rx_inv s -> rx_inv (drain_buffered fuel s).
Proof.
  induction fuel as [|fuel IH]; intros s Hinv; cbn [drain_buffered]; [exact Hinv|].
  destruct (rx_present _); [|exact Hinv]. apply IH.
  eapply rx_inv_same; [| |apply (rx_inv_set_rx s (wrap_idx (rcv_nxt s) (wnd (cfg s))))].
  - reflexivity.
  - reflexivity.
  - apply wrap_idx_range. destruct Hinv as (_ & ? & _). lia.
  - discriminate.
  - exact Hinv.
Qed.

Section RxSteps.

Variable bld : build.
Variable e : env.

Lemma rx_inv_create (c : bb_proto_cfg_t) : cfg_wf c -> rx_inv (bb_proto_sr_create c).
Proof.
  intros Hwf. pose proof (sr_window_ok_create c Hwf) as (_ & _ & Hw & _).
  unfold BB_MAX_WND in Hw.
  split; [apply repeat_length|]. split; [exact Hw|].
  intros j Hj. unfold rx_at. cbn [rx bb_proto_sr_create]. rewrite nth_repeat. discriminate.
Qed.

Lemma poll_acks_rx (s : sr_t) (got : chan_rx) :
  rx (poll_acks bld s got) = rx s /\ cfg (poll_acks bld s got) = cfg s.
Proof.
  unfold poll_acks. destruct (_ >? 0); [|auto].
  destruct (bb_wire_parse bld (rx_ibuf got)) as [[h pl]|]; [|auto].
  destruct (consume_ack_rx s h) as (? & _ & ?). auto.
Qed.

Lemma retransmit_expired_rx (w : world) (s : sr_t) :
  0 <= wnd (cfg s) ->
  rx (fst (retransmit_expired bld e w s)) = rx s /\
  cfg (fst (retransmit_expired bld e w s)) = cfg s.
Proof.
  intros HW. split.
  - apply (retransmit_scan_flags bld e), HW.
  - apply retransmit_expired_same.
Qed.

Lemma send_round_rx_inv (w : world) (s : sr_t) (data : list byte) (off : Z) (got : chan_rx) :
  rx_inv s -> rx_inv (round_state (send_round bld e w s data off got)).
Proof.
  intros Hinv. unfold send_round.
  destruct (poll_acks_rx s got) as [R1 C1].
  assert (HW : 0 <= wnd (cfg (poll_acks bld s got))).
  { rewrite C1. destruct Hinv as (_ & ? & _). lia. }
  destruct (retransmit_expired_rx w (poll_acks bld s got) HW) as [R2 C2].
  destruct (retransmit_expired bld e w (poll_acks bld s got)) as [s1 w1]. cbn [fst] in *.
  assert (H1 : rx_inv s1) by (eapply rx_inv_same; [| |exact Hinv]; congruence).
  destruct (_ >=? wnd (cfg s1)); [exact H1|].
  destruct (send_frame bld e w1 s1 _ _ _) as [r w2].
  destruct (r <? 0); [exact H1|].
  destruct (bb_timer_arm e w2 _) as [t w3]. cbn [round_state].
  eapply rx_inv_same; [| |exact H1]; reflexivity.
Qed.

Lemma drain_round_rx_inv (w : world) (s : sr_t) (got : chan_rx) :
  rx_inv s -> rx_inv (fst (drain_round bld e w s got)).
Proof.
  intros Hinv. unfold drain_round.
  destruct (poll_acks_rx s got) as [R1 C1].
  assert (HW : 0 <= wnd (cfg (poll_acks bld s got))).
  { rewrite C1. destruct Hinv as (_ & ? & _). lia. }
  destruct (retransmit_expired_rx w (poll_acks bld s got) HW) as [R2 C2].
  eapply rx_inv_same; [| |exact Hinv]; congruence.
Qed.

(** What [bb_proto_recv] returns and copies, and the table it leaves. *)
Lemma recv_rx_inv (w : world) (s : sr_t) (cap : Z) (got : chan_rx) :
  0 <= cap -> rx_inv s ->
  let res := bb_proto_recv bld e w s cap got in
  rx_inv (snd (fst res)) /\
  fst (fst (fst res)) <= cap /\
  (0 <= fst (fst (fst res)) ->
   Z.of_nat (length (snd (fst (fst res)))) = fst (fst (fst res))) /\
  (fst (fst (fst res)) < 0 -> snd (fst (fst res)) = []).
Proof.
  intros Hcap Hinv. unfold bb_proto_recv.
  destruct (Z.leb_spec (rx_rn got) 0).
  { cbn [fst snd]. split; [exact Hinv|]. split; [lia|]. split; [intros; cbn; lia|auto]. }
  destruct (bb_wire_parse bld (rx_ibuf got)) as [[h pl]|] eqn:Hp;
    [|cbn [fst snd]; split; [exact Hinv|]; split; [lia|]; split; [reflexivity|auto]].
  destruct (parsed_len_bound _ _ _ _ Hp) as [Hl _].
  destruct (consume_ack_rx s h) as (K1 & K2 & K3).
  set (s1 := consume_ack_any s h) in *.
  assert (H1 : rx_inv s1) by (eapply rx_inv_same; [exact K1|exact K3|exact Hinv]).
  destruct (Z.land (flags h) BB_FLAG_DATA =? 0);
    [cbn [fst snd]; split; [exact H1|]; split; [lia|]; split; [reflexivity|auto]|].
  destruct (_ >=? 0);
    [cbn [fst snd]; split; [exact H1|]; split; [lia|]; split; [reflexivity|auto]|].
  destruct (_ <? 0);
    [cbn [fst snd]; split; [exact H1|]; split; [lia|]; split; [reflexivity|auto]|].
  set (i := wrap_idx (seq h) (wnd (cfg s))).
  assert (Hi : 0 <= i < 256).
  { destruct Hinv as (_ & HW & _).
    destruct (wrap_idx_range (seq h) (wnd (cfg s)) ltac:(lia)) as [? [?|E0]]; [lia|].
    subst i. unfold wrap_idx. rewrite E0. cbn. lia. }
  set (new := {| rx_buf := firstn (Z.to_nat (len h)) pl; rx_len := len h;
                 rx_present := true |}).
  assert (Hnew : Z.of_nat (length (rx_buf new)) = rx_len new).
  { cbn [rx_buf rx_len new]. rewrite firstn_length_le; lia. }
  set (s2 := if rx_present (rx_at s1 i) then s1 else set_rx s1 i new).
  assert (H2 : rx_inv s2 /\ cfg s2 = cfg s /\
               Z.of_nat (length (rx_buf (rx_at s2 i))) = rx_len (rx_at s2 i)).
  { subst s2. destruct (rx_present (rx_at s1 i)) eqn:Ep.
    - split; [exact H1|]. split; [exact K3|]. destruct H1 as (_ & _ & P). apply P; [lia|exact Ep].
    - split; [apply rx_inv_set_rx; [lia|intros _; exact Hnew|exact H1]|].
      split; [exact K3|]. rewrite rx_at_set_rx by lia.
      destruct H1 as (L1 & _). rewrite L1, Z.eqb_refl.
      destruct (Z.ltb_spec i (Z.of_nat 256)); [exact Hnew|lia]. }
  destruct H2 as (H2 & C2 & Hlen).
  destruct (seq h =? rcv_nxt s2);
    [|cbn [fst snd]; split; [exact H2|]; split; [lia|]; split; [reflexivity|auto]].
  cbn [fst snd].
  set (n0 := if rx_len (rx_at s2 i) >? cap then cap else rx_len (rx_at s2 i)).
  assert (Hn0 : 0 <= n0 <= cap /\ n0 <= rx_len (rx_at s2 i)).
  { subst n0. destruct (Z.gtb_spec (rx_len (rx_at s2 i)) cap); lia. }
  split.
  { apply drain_buffered_rx_inv.
    eapply rx_inv_same; [| |apply (rx_inv_set_rx s2 i); [lia| |exact H2]];
      [reflexivity|reflexivity|discriminate]. }
  split; [lia|]. split; [|lia]. intros _. rewrite firstn_length_le; lia.
Qed.

Lemma reachable_rx_inv (c : bb_proto_cfg_t) (s : sr_t) (w : world) :
  cfg_wf c -> reachable bld e c s w -> rx_inv s.
Proof.
  intros Hwf Hr.
  induction Hr as [w|s w data off got _ IH _|s w got _ IH _|s w cap got _ IH Hcap].
  - apply rx_inv_create, Hwf.
  - apply send_round_rx_inv, IH.
  - apply drain_round_rx_inv, IH.
  - apply (recv_rx_inv w s cap got Hcap IH).
Qed.

End RxSteps.

(** X21.  [bb_proto_recv] (Selective Repeat) never writes past the
    caller's buffer and never reads past a stored payload: in every
    reachable state and for every capacity [cap >= 0], the value returned
    is at most [cap]; when it is not negative it is exactly the number of
    bytes copied to [out], also when the bytes come from a slot filled by
    an earlier copy of the segment; on an error return nothing is
    copied. *)
Theorem sr_recv_within_cap (bld : build) (e : env) (c : bb_proto_cfg_t)
    (s : sr_t) (w : world) (cap : Z) (got : chan_rx) :
  cfg_wf c -> reachable bld e c s w -> 0 <= cap ->
  let '(L, out, _, _) := bb_proto_recv bld e w s cap got in
  L <= cap /\ (0 <= L -> Z.of_nat (length out) = L) /\ (L < 0 -> out = []).
Proof.
  intros Hwf Hr Hcap.
  pose proof (recv_rx_inv bld e w s cap got Hcap (reachable_rx_inv bld e c s w Hwf Hr))
    as (_ & H).
  destruct (bb_proto_recv bld e w s cap got) as [[[L out] s'] w']. exact H.
Qed.

Lemma sr_recv_within_cap_witness :
  let s := bb_proto_sr_create scenario_cfg in
  let d := snd (bb_wire_pack portable 1600 BB_FLAG_DATA 1 1 abc 3) in
  let '(L, out, _, _) := bb_proto_recv portable second_per_read world0 s 2 (RxData d) in
  L <= 2 /\ (0 <= L -> Z.of_nat (length out) = L) /\ (L < 0 -> out = []).
Proof.
  intros s d.
  apply (sr_recv_within_cap portable second_per_read scenario_cfg s world0 2 (RxData d)).
  - exact scenario_cfg_wf.
  - apply reach_create.
  - lia.
Defined.

(** *** In-order arrival *)

(** DATA frames as the Selective-Repeat sender packs them (a 1600-byte
    frame buffer), numbered from [sq]. *)
Fixpoint sr_data_frames (bld : build) (sq ackn : Z) (payloads : list (list byte))
  : list (list byte) :=
  match payloads with
  | [] => []
  | p :: rest =>
      snd (bb_wire_pack bld 1600 BB_FLAG_DATA sq ackn p (Z.of_nat (length p)))
        :: sr_data_frames bld (u32 (sq + 1)) ackn rest
  end.










End SrMore.
(** ** Selective Repeat: segmentation and delivery within one window *)

Module SrSend.
Import Sr Timer SrFacts SrMore.

(** No retransmission timer of the table can fire: every armed one has
    its deadline beyond every reading of the clock. *)
Definition quiet (e : env) (s : sr_t) : Prop :=
  forall n : nat, armed (tx_timer (nth n (tx s) tx_empty)) = true ->
    forall k : nat, now_ns e k < deadline_ns (tx_timer (nth n (tx s) tx_empty)).

(** The clock never gets as far as the deadline of a timer armed for
    [ms] milliseconds at any of its readings. *)
Definition within_rto (e : env) (ms : Z) : Prop :=
  forall i k : nat, now_ns e k < u64 (now_ns e i + u64 (ms * 1000000)).

(** The poll of [bb_channel_recv] brings nothing. *)
Definition nothing (rx : chan_rx) : Prop := rx_rn rx <= 0.

Lemma quiet_create (e : env) (c : bb_proto_cfg_t) : quiet e (bb_proto_sr_create c).
Proof.
  intros n Ha. exfalso. revert Ha. unfold bb_proto_sr_create. cbn [tx].
  destruct (nth_in_or_default n (repeat tx_empty (Z.to_nat BB_MAX_WND)) tx_empty) as [Hin| ->].
  - apply repeat_spec in Hin. rewrite Hin. discriminate.
  - discriminate.
Qed.

Section Steps.

Variable bld : build.
Variable e : env.

Hypothesis Hup : forall k : nat, 0 <= send_ret e k.

Lemma sr_send_frame_ok (w : world) (s : sr_t) (sq : Z) (p : list byte) (n0 : Z) :
  0 <= n0 <= 1582 ->
  let r := send_frame bld e w s sq p n0 in
  fst r = 0 /\
  wire (snd r) = wire w ++ [snd (bb_wire_pack bld 1600 BB_FLAG_DATA sq (rcv_nxt s) p n0)].
Proof.
  intros Hn. unfold send_frame.
  assert (E16 : u16 n0 = n0) by (apply Z.mod_small; lia). rewrite E16.
  rewrite pack_unfold. unfold sizeof_hdr.
  destruct (Z.ltb_spec 1600 (18 + n0)); [lia|].
  destruct (Z.eqb_spec (18 + n0) 0); [lia|].
  unfold channel_send. destruct (Z.ltb_spec (send_ret e (sends w)) 0) as [Hneg|_].
  { specialize (Hup (sends w)). lia. }
  cbn. auto.
Qed.

Lemma sr_pack_of_prefix (sq ackn : Z) (p : list byte) (n0 : Z) :
  0 <= n0 <= Z.of_nat (length p) ->
  snd (bb_wire_pack bld 1600 BB_FLAG_DATA sq ackn p n0) =
  snd (bb_wire_pack bld 1600 BB_FLAG_DATA sq ackn (firstn (Z.to_nat n0) p)
         (Z.of_nat (length (firstn (Z.to_nat n0) p)))).
Proof.
  intros Hn. rewrite firstn_length_le by lia. rewrite Z2Nat.id by lia.
  rewrite !pack_unfold. destruct (1600 <? sizeof_hdr + n0); [reflexivity|].
  cbn [snd]. rewrite firstn_firstn, Nat.min_id. reflexivity.
Qed.

(** With no timer due, the retransmission scan sends nothing and leaves
    the engine as it is. *)
Lemma scan_quiet (fuel : nat) :
  forall (w : world) (s : sr_t) (qq : Z),
    quiet e s ->
    fst (retransmit_scan bld e fuel w s qq) = s /\
    wire (snd (retransmit_scan bld e fuel w s qq)) = wire w.
Proof.
  induction fuel as [|fuel IH]; intros w s qq Hq; cbn [retransmit_scan]; [auto|].
  destruct (_ >? 0); [|auto].
  set (i := wrap_idx qq (wnd (cfg s))).
  assert (Hstep : exists w1,
    (if tx_inuse (tx_at s i)
     then let '(x, w0) := bb_timer_expired e w (tx_timer (tx_at s i)) in
          if x
          then let '(_, w1) := send_frame bld e w0 s qq (tx_buf (tx_at s i))
                                 (tx_len (tx_at s i)) in
               let '(t, w2) := bb_timer_arm e w1 (rto_ms (cfg s)) in
               (set_tx s i {| tx_buf := tx_buf (tx_at s i); tx_len := tx_len (tx_at s i);
                              tx_timer := t; tx_inuse := true |}, w2)
          else (s, w0)
     else (s, w)) = (s, w1) /\ wire w1 = wire w).
  { destruct (tx_inuse (tx_at s i)); [|eauto].
    unfold bb_timer_expired. destruct (armed (tx_timer (tx_at s i))) eqn:Ea; [|eauto].
    unfold bb_now_ns. specialize (Hq (Z.to_nat i) Ea (clock_reads w)).
    fold (tx_at s i) in Hq.
    destruct (Z.leb_spec (deadline_ns (tx_timer (tx_at s i))) (now_ns e (clock_reads w)));
      [lia|]. eexists. split; reflexivity. }
  destruct Hstep as (w1 & -> & Hw1).
  destruct (IH w1 s (u32 (qq + 1)) Hq) as [I1 I2].
  split; [exact I1|congruence].
Qed.

Lemma expired_quiet (w : world) (s : sr_t) :
  quiet e s ->
  fst (retransmit_expired bld e w s) = s /\ wire (snd (retransmit_expired bld e w s)) = wire w.
Proof. apply scan_quiet. Qed.

Lemma poll_nothing (s : sr_t) (rx : chan_rx) : nothing rx -> poll_acks bld s rx = s.
Proof.
  unfold nothing, poll_acks. intros H. destruct (Z.gtb_spec (rx_rn rx) 0); [lia|reflexivity].
Qed.

(** One round of the sending loop when the poll brings nothing, no timer
    is due and the window has room. *)
Lemma send_round_segment (w : world) (s : sr_t) (data : list byte) (off : Z) (rx : chan_rx) :
  quiet e s -> within_rto e (rto_ms (cfg s)) -> nothing rx ->
  1 <= mss (cfg s) <= 1582 ->
  0 <= off < Z.of_nat (length data) ->
  u32 (snd_nxt s - snd_una s) < wnd (cfg s) ->
  let chunk := Z.min (Z.of_nat (length data) - off) (mss (cfg s)) in
  exists (s' : sr_t) (w' : world),
    send_round bld e w s data off rx = Continue s' w' (off + chunk) /\
    wire w' = wire w ++
      [snd (bb_wire_pack bld 1600 BB_FLAG_DATA (snd_nxt s) (rcv_nxt s)
              (skipn (Z.to_nat off) data) chunk)] /\
    snd_nxt s' = u32 (snd_nxt s + 1) /\ snd_una s' = snd_una s /\
    rcv_nxt s' = rcv_nxt s /\ cfg s' = cfg s /\ quiet e s'.
Proof.
  intros Hq Hrto Hrx Hmss Hoff Hroom chunk. unfold send_round.
  rewrite (poll_nothing s rx Hrx).
  destruct (expired_quiet w s Hq) as [E1 E2].
  destruct (retransmit_expired bld e w s) as [s1 w1]. cbn [fst snd] in E1, E2. subst s1.
  destruct (Z.geb_spec (u32 (snd_nxt s - snd_una s)) (wnd (cfg s))); [lia|].
  assert (Ec : (if Z.of_nat (length data) - off >? mss (cfg s) then mss (cfg s)
                else Z.of_nat (length data) - off) = chunk).
  { subst chunk. destruct (Z.gtb_spec (Z.of_nat (length data) - off) (mss (cfg s))); lia. }
  rewrite Ec.
  assert (Hc : 1 <= chunk <= 1582) by (subst chunk; lia).
  destruct (sr_send_frame_ok w1 s (snd_nxt s) (skipn (Z.to_nat off) data) chunk
              ltac:(lia)) as [F1 F2].
  destruct (send_frame bld e w1 s (snd_nxt s) (skipn (Z.to_nat off) data) chunk) as [r w2].
  cbn [fst snd] in F1, F2. subst r. cbn [Z.ltb Z.compare].
  unfold bb_timer_arm, bb_now_ns.
  eexists. eexists. split; [reflexivity|].
  cbn [wire snd_nxt snd_una rcv_nxt cfg set_snd_nxt set_tx].
  split; [congruence|]. repeat (split; [reflexivity|]).
  intros n. unfold quiet in Hq. cbn [tx set_snd_nxt set_tx]. rewrite nth_store.
  destruct ((_ =? n)%nat && _)%bool; [|apply Hq].
  cbn [tx_timer deadline_ns]. intros _ k. apply Hrto.
Qed.

(** The sending loop of [bb_proto_send] over [k] rounds in which the poll
    brings nothing: one segment per round. *)
Lemma send_from_segments (rxs : list chan_rx) :
  forall (w : world) (s : sr_t) (data : list byte) (off : Z),
    quiet e s -> within_rto e (rto_ms (cfg s)) -> Forall nothing rxs ->
    1 <= mss (cfg s) <= 1582 ->
    0 <= snd_una s < 2 ^ 32 -> 0 <= snd_nxt s < 2 ^ 32 ->
    u32 (snd_nxt s - snd_una s) + Z.of_nat (length rxs) <= wnd (cfg s) ->
    wnd (cfg s) < 2 ^ 32 ->
    0 <= off <= Z.of_nat (length data) ->
    off + (Z.of_nat (length rxs) - 1) * mss (cfg s) < Z.of_nat (length data)
      <= off + Z.of_nat (length rxs) * mss (cfg s) ->
    exists (s' : sr_t) (w' : world),
      (forall rest : list chan_rx,
         send_from bld e (rxs ++ rest) w s data off =
         send_from bld e rest w' s' data (Z.of_nat (length data))) /\
      wire w' = wire w ++
        sr_data_frames bld (snd_nxt s) (rcv_nxt s)
          (chunks (Z.to_nat (mss (cfg s))) (skipn (Z.to_nat off) data) (length rxs)) /\
      snd_nxt s' = u32 (snd_nxt s + Z.of_nat (length rxs)) /\
      snd_una s' = snd_una s /\ rcv_nxt s' = rcv_nxt s /\ cfg s' = cfg s.
Proof.
  induction rxs as [|rx rxs IH];
    intros w s data off Hq Hrto Hall Hmss Hu Hn Hroom Hw Hoff Hlen.
  - cbn [length Z.of_nat] in Hlen. assert (off = Z.of_nat (length data)) by lia. subst off.
    exists s, w. cbn [length chunks sr_data_frames app Z.of_nat].
    rewrite app_nil_r, Z.add_0_r, u32_small by lia. auto 10.
  - inversion Hall as [|? ? Hrx Hrest]; subst.
    cbn [length] in *. rewrite Nat2Z.inj_succ in *.
    pose proof (u32_range (snd_nxt s - snd_una s)) as Hd.
    assert (Hlt : off < Z.of_nat (length data)) by nia.
    destruct (send_round_segment w s data off rx Hq Hrto Hrx Hmss ltac:(lia) ltac:(lia))
      as (s1 & w1 & R & W1 & N1 & U1 & V1 & C1 & Q1).
    set (chunk := Z.min (Z.of_nat (length data) - off) (mss (cfg s))) in *.
    assert (Hc : 1 <= chunk <= mss (cfg s) /\ chunk <= Z.of_nat (length data) - off /\
                 (chunk = mss (cfg s) \/ chunk = Z.of_nat (length data) - off))
      by (subst chunk; lia).
    assert (Hd1 : u32 (snd_nxt s1 - snd_una s1) = u32 (snd_nxt s - snd_una s) + 1).
    { rewrite N1, U1. apply outstanding_succ; lia. }
    destruct (IH w1 s1 data (off + chunk) Q1 ltac:(rewrite C1; exact Hrto) Hrest
                ltac:(rewrite C1; lia) ltac:(rewrite U1; lia)
                ltac:(rewrite N1; apply u32_range)
                ltac:(rewrite Hd1, C1; lia) ltac:(rewrite C1; lia) ltac:(lia)
                ltac:(rewrite C1; destruct Hc as (? & ? & [Hc|Hc]); nia))
      as (s2 & w2 & R2 & W2 & N2 & U2 & V2 & C2).
    exists s2, w2. split; [|split; [|split; [|split; [|split]]]]; try congruence.
    + intros rest. cbn [app send_from].
      destruct (Z.ltb_spec off (Z.of_nat (length data))); [|lia].
      rewrite R. apply R2.
    + rewrite W2, W1, <- app_assoc, N1, V1, C1. f_equal.
      cbn [chunks sr_data_frames app].
      set (X := skipn (Z.to_nat off) data).
      assert (HX : Z.of_nat (length X) = Z.of_nat (length data) - off).
      { subst X. rewrite length_skipn. lia. }
      assert (Hfirst : firstn (Z.to_nat (mss (cfg s))) X = firstn (Z.to_nat chunk) X).
      { destruct Hc as (Ha & Hb & [Hc|Hc]); [rewrite Hc; reflexivity|].
        rewrite (firstn_all2 (n := Z.to_nat (mss (cfg s)))) by lia.
        rewrite (firstn_all2 (n := Z.to_nat chunk)) by lia. reflexivity. }
      assert (Hrest' : skipn (Z.to_nat (off + chunk)) data =
                       skipn (Z.to_nat (mss (cfg s))) X).
      { subst X. rewrite skipn_skipn.
        destruct Hc as (Ha & Hb & [Hc|Hc]).
        - f_equal. lia.
        - rewrite !skipn_all2 by lia. reflexivity. }
      rewrite Hfirst, Hrest'. f_equal. apply sr_pack_of_prefix. lia.
    + rewrite N2, N1. unfold u32. rewrite Zplus_mod_idemp_l. f_equal. lia.
Qed.

End Steps.

(** What [bb_proto_send] does with a buffer that fits the window, while
    nothing comes back and no timer fires. *)
Lemma send_window (bld : build) (e : env) (rxs : list chan_rx) (w : world) (s : sr_t)
    (data : list byte) :
  (forall k : nat, 0 <= send_ret e k) ->
  within_rto e (rto_ms (cfg s)) -> quiet e s -> Forall nothing rxs ->
  1 <= mss (cfg s) <= 1582 -> wnd (cfg s) <= 256 ->
  snd_una s = snd_nxt s -> 0 <= snd_nxt s < 2 ^ 32 ->
  1 <= Z.of_nat (length rxs) <= wnd (cfg s) ->
  (Z.of_nat (length rxs) - 1) * mss (cfg s) < Z.of_nat (length data)
    <= Z.of_nat (length rxs) * mss (cfg s) ->
  let payloads := chunks (Z.to_nat (mss (cfg s))) data (length rxs) in
  exists (s' : sr_t) (w' : world),
    bb_proto_send bld e rxs w s data = Looping s' w' (Z.of_nat (length data)) /\
    wire w' = wire w ++ sr_data_frames bld (snd_nxt s) (rcv_nxt s) payloads /\
    concat payloads = data /\
    snd_nxt s' = u32 (snd_nxt s + Z.of_nat (length rxs)) /\
    snd_una s' = snd_una s /\ rcv_nxt s' = rcv_nxt s.
Proof.
  intros Hup Hrto Hq Hall Hmss Hw Hidle Hn Hk Hlen payloads.
  assert (Hd : u32 (snd_nxt s - snd_una s) = 0).
  { rewrite Hidle, Z.sub_diag. reflexivity. }
  destruct (send_from_segments bld e Hup rxs w s data 0 Hq Hrto Hall Hmss
              ltac:(rewrite Hidle; exact Hn) Hn ltac:(lia) ltac:(lia) ltac:(lia)
              ltac:(lia))
    as (s' & w' & R & W & N & U & V & C).
  exists s', w'. change (Z.to_nat 0) with 0%nat in W. rewrite skipn_O in W.
  split; [|split; [exact W|split; [|auto]]].
  - unfold bb_proto_send. rewrite <- (app_nil_r rxs) at 1. rewrite R. cbn [send_from].
    rewrite Z.ltb_irrefl.
    destruct (seq_cmp_offset (snd_una s') (Z.of_nat (length rxs))
                ltac:(rewrite U, Hidle; exact Hn) ltac:(lia)) as [_ Eneg].
    rewrite U, Hidle, <- N in Eneg. rewrite U, Hidle, Eneg.
    destruct (Z.ltb_spec (- Z.of_nat (length rxs)) 0); [reflexivity|lia].
  - subst payloads. rewrite concat_chunks. apply firstn_all2. nia.
Qed.

(** X26.  Segmentation by [bb_proto_send] (Selective Repeat).  An idle
    sender ([snd_una = snd_nxt]) with a segment size between 1 and 1582
    bytes, on a channel that accepts every frame, is given a buffer of
    [k] segments, [k] at most the window.  While the poll for
    acknowledgements brings nothing and no retransmission timer is due,
    the call hands the channel [k] DATA frames in [k] rounds and nothing
    else: their payloads are the pieces of [mss] bytes of the buffer, in
    order and together the whole buffer, numbered from [snd_nxt], each
    carrying [rcv_nxt].  The call has then not returned: it waits for
    the acknowledgements with [snd_nxt] advanced by [k]. *)
Theorem sr_send_segments (bld : build) (e : env) (rxs : list chan_rx) (w : world)
    (s : sr_t) (data : list byte) :
  (forall k : nat, 0 <= send_ret e k) ->
  within_rto e (rto_ms (cfg s)) -> quiet e s -> Forall nothing rxs ->
  1 <= mss (cfg s) <= 1582 -> wnd (cfg s) <= 256 ->
  snd_una s = snd_nxt s -> 0 <= snd_nxt s < 2 ^ 32 ->
  1 <= Z.of_nat (length rxs) <= wnd (cfg s) ->
  (Z.of_nat (length rxs) - 1) * mss (cfg s) < Z.of_nat (length data)
    <= Z.of_nat (length rxs) * mss (cfg s) ->
  let payloads := chunks (Z.to_nat (mss (cfg s))) data (length rxs) in
  match bb_proto_send bld e rxs w s data with
  | Looping s' w' off =>
      off = Z.of_nat (length data) /\
      wire w' = wire w ++ sr_data_frames bld (snd_nxt s) (rcv_nxt s) payloads /\
      concat payloads = data /\
      snd_nxt s' = u32 (snd_nxt s + Z.of_nat (length rxs)) /\
      snd_una s' = snd_una s /\ rcv_nxt s' = rcv_nxt s
  | Returned _ _ _ => False
  end.
Proof.
  intros Hup Hrto Hq Hall Hmss Hw Hidle Hn Hk Hlen payloads.
  destruct (send_window bld e rxs w s data Hup Hrto Hq Hall Hmss Hw Hidle Hn Hk Hlen)
    as (s' & w' & R & H).
  rewrite R. split; [reflexivity|exact H].
Qed.

(** A clock that stands still: no timer armed for a positive time fires. *)
Definition still : env := {| now_ns := fun _ => 1000; send_ret := fun _ => 1 |}.

Definition small_cfg : bb_proto_cfg_t :=
  {| init_seq := 7; wnd := 4; mss := 2; rto_ms := 50 |}.

Definition abcde : list byte := [Byte.x41; Byte.x42; Byte.x43; Byte.x44; Byte.x45].

Lemma still_within_rto : within_rto still 50.
Proof. intros i k. cbn. reflexivity. Qed.

Lemma sr_send_segments_witness :
  let s := bb_proto_sr_create small_cfg in
  let rxs := [RxTimeout; RxError (-1); RxTimeout] in
  let payloads := chunks (Z.to_nat (mss (cfg s))) abcde (length rxs) in
  match bb_proto_send portable still rxs world0 s abcde with
  | Looping s' w' off =>
      off = Z.of_nat (length abcde) /\
      wire w' = wire world0 ++ sr_data_frames portable (snd_nxt s) (rcv_nxt s) payloads /\
      concat payloads = abcde /\
      snd_nxt s' = u32 (snd_nxt s + Z.of_nat (length rxs)) /\
      snd_una s' = snd_una s /\ rcv_nxt s' = rcv_nxt s
  | Returned _ _ _ => False
  end.
Proof.
  intros s rxs.
  apply (sr_send_segments portable still rxs world0 s abcde).
  - intros k. cbn. lia.
  - exact still_within_rto.
  - apply quiet_create.
  - repeat constructor; unfold nothing; cbn; lia.
  - cbn. lia.
  - cbn. lia.
  - reflexivity.
  - cbn. lia.
  - cbn. lia.
  - cbn. lia.
Defined.




(** *** The acknowledgement that ends the call *)

(** [consume_ack_any]'s loop moves [snd_una] up to an acknowledgement
    that lies [d] segments ahead. *)
Lemma consume_loop_reaches (fuel : nat) :
  forall (s : sr_t) (d : nat),
    0 <= snd_una s < 2 ^ 32 -> Z.of_nat d < 2 ^ 31 -> (d <= fuel)%nat ->
    let s' := consume_loop fuel s (u32 (snd_una s + Z.of_nat d)) in
    snd_una s' = u32 (snd_una s + Z.of_nat d) /\ snd_nxt s' = snd_nxt s /\
    rcv_nxt s' = rcv_nxt s /\ cfg s' = cfg s.
Proof.
  induction fuel as [|fuel IH]; intros s d Hu Hd Hf; cbn [consume_loop].
  - assert (d = 0%nat) by lia. subst d. cbn [Z.of_nat].
    rewrite Z.add_0_r, u32_small by lia. auto.
  - destruct d as [|d].
    + cbn [Z.of_nat]. rewrite Z.add_0_r, (u32_small (snd_una s)) by lia.
      assert (E0 : seq_cmp (snd_una s) (snd_una s) = 0).
      { unfold seq_cmp. rewrite Z.sub_diag. reflexivity. }
      rewrite E0. cbn [Z.ltb Z.compare]. auto.
    + destruct (seq_cmp_offset (snd_una s) (Z.of_nat (S d)) Hu ltac:(lia)) as [_ Eneg].
      rewrite Eneg.
      destruct (Z.ltb_spec (- Z.of_nat (S d)) 0); [|lia].
      set (s1 := if tx_inuse (tx_at s (wrap_idx (snd_una s) (wnd (cfg s)))) then _ else s).
      assert (Hs1 : snd_una s1 = snd_una s /\ snd_nxt s1 = snd_nxt s /\
                    rcv_nxt s1 = rcv_nxt s /\ cfg s1 = cfg s).
      { subst s1. destruct (tx_inuse _); cbn; auto. }
      destruct Hs1 as (C1 & C2 & C3 & C4). rewrite C1.
      assert (Ea : u32 (snd_una s + Z.of_nat (S d)) =
                   u32 (snd_una (set_snd_una s1 (u32 (snd_una s + 1))) + Z.of_nat d)).
      { cbn [snd_una set_snd_una]. unfold u32. rewrite Zplus_mod_idemp_l. f_equal. lia. }
      rewrite Ea.
      destruct (IH (set_snd_una s1 (u32 (snd_una s + 1))) d
                  ltac:(cbn [snd_una set_snd_una]; apply u32_range) ltac:(lia) ltac:(lia))
        as (I1 & I2 & I3 & I4).
      cbn [snd_nxt rcv_nxt cfg set_snd_una] in I2, I3, I4.
      split; [exact I1|]. split; [congruence|]. split; congruence.
Qed.

(** X28.  The acknowledgement of everything ends the call.  In the
    setting of the segmentation above (an idle sender, a buffer of [k]
    segments within the window, nothing coming back during the [k]
    rounds, no timer due), the ACK frame that carries the sender's new
    [snd_nxt], as the receiver's [send_ack] packs it, arriving in the
    next round makes [bb_proto_send] return 0 with [snd_una = snd_nxt];
    the [k] DATA frames are all the call has handed to the channel. *)
Theorem sr_send_completes_on_full_ack (bld : build) (e : env) (rxs : list chan_rx)
    (w : world) (s : sr_t) (data : list byte) :
  (forall k : nat, 0 <= send_ret e k) ->
  within_rto e (rto_ms (cfg s)) -> quiet e s -> Forall nothing rxs ->
  1 <= mss (cfg s) <= 1582 -> wnd (cfg s) <= 256 ->
  snd_una s = snd_nxt s -> 0 <= snd_nxt s < 2 ^ 32 ->
  1 <= Z.of_nat (length rxs) <= wnd (cfg s) ->
  (Z.of_nat (length rxs) - 1) * mss (cfg s) < Z.of_nat (length data)
    <= Z.of_nat (length rxs) * mss (cfg s) ->
  let ackn := u32 (snd_nxt s + Z.of_nat (length rxs)) in
  let a := snd (bb_wire_pack bld 64 BB_FLAG_ACK 0 ackn [] 0) in
  match bb_proto_send bld e (rxs ++ [RxData a]) w s data with
  | Returned r s' w' =>
      r = 0 /\ snd_una s' = ackn /\ snd_nxt s' = ackn /\
      wire w' = wire w ++
        sr_data_frames bld (snd_nxt s) (rcv_nxt s)
          (chunks (Z.to_nat (mss (cfg s))) data (length rxs))
  | Looping _ _ _ => False
  end.
Proof.
  intros Hup Hrto Hq Hall Hmss Hw Hidle Hn Hk Hlen ackn a.
  assert (Hd : u32 (snd_nxt s - snd_una s) = 0).
  { rewrite Hidle, Z.sub_diag. reflexivity. }
  destruct (send_from_segments bld e Hup rxs w s data 0 Hq Hrto Hall Hmss
              ltac:(rewrite Hidle; exact Hn) Hn ltac:(lia) ltac:(lia) ltac:(lia)
              ltac:(lia))
    as (s1 & w1 & R & W & N & U & V & C).
  change (Z.to_nat 0) with 0%nat in W. rewrite skipn_O in W.
  unfold bb_proto_send. rewrite R. cbn [send_from]. rewrite Z.ltb_irrefl.
  fold ackn in N.
  assert (Hu1 : 0 <= snd_una s1 < 2 ^ 32) by (rewrite U, Hidle; exact Hn).
  assert (Ea : ackn = u32 (snd_una s1 + Z.of_nat (length rxs))).
  { subst ackn. rewrite U, Hidle. reflexivity. }
  destruct (seq_cmp_offset (snd_una s1) (Z.of_nat (length rxs)) Hu1 ltac:(lia))
    as [Epos Eneg].
  rewrite <- Ea in Epos, Eneg. rewrite N, Eneg.
  destruct (Z.ltb_spec (- Z.of_nat (length rxs)) 0); [|lia].
  destruct (pack_parses bld 64 BB_FLAG_ACK 0 ackn []
              ltac:(unfold BB_FLAG_ACK; lia) ltac:(lia) ltac:(apply u32_range)
              ltac:(unfold sizeof_hdr; cbn; lia) ltac:(cbn; lia))
    as (Hlen18 & h & Hp & _ & _ & Hack & _).
  cbn [length Z.of_nat] in Hlen18, Hp. fold a in Hlen18, Hp.
  assert (Ecut : firstn 2048 a = a) by (apply firstn_all2; lia).
  unfold drain_round, poll_acks. cbn [rx_rn rx_ibuf]. rewrite Ecut.
  destruct (Z.gtb_spec (Z.of_nat (length a)) 0); [|lia].
  rewrite Hp. unfold consume_ack_any. rewrite Hack, N, Epos.
  assert (E0 : seq_cmp ackn ackn = 0).
  { unfold seq_cmp. rewrite Z.sub_diag. reflexivity. }
  rewrite E0.
  destruct (Z.geb_spec (Z.of_nat (length rxs)) 0); [|lia]. cbn [Z.leb Z.compare andb].
  rewrite Nat2Z.id.
  pose proof (consume_loop_reaches (length rxs) s1 (length rxs) Hu1 ltac:(lia) ltac:(lia))
    as Hc. cbv zeta in Hc. rewrite <- Ea in Hc.
  set (s2 := consume_loop (length rxs) s1 ackn) in *.
  destruct Hc as (K1 & K2 & K3 & K4).
  unfold retransmit_expired. rewrite K1, K2, N, E0.
  cbn [Z.to_nat retransmit_scan]. rewrite ?Z.ltb_irrefl.
  rewrite K1, K2, N, E0. cbn [Z.ltb Z.compare].
  split; [reflexivity|]. split; [exact K1|]. split; [congruence|exact W].
Qed.

Lemma sr_send_completes_on_full_ack_witness :
  let s := bb_proto_sr_create small_cfg in
  let rxs := [RxTimeout; RxTimeout; RxTimeout] in
  let ackn := u32 (snd_nxt s + Z.of_nat (length rxs)) in
  let a := snd (bb_wire_pack portable 64 BB_FLAG_ACK 0 ackn [] 0) in
  match bb_proto_send portable still (rxs ++ [RxData a]) world0 s abcde with
  | Returned r s' w' =>
      r = 0 /\ snd_una s' = ackn /\ snd_nxt s' = ackn /\
      wire w' = wire world0 ++
        sr_data_frames portable (snd_nxt s) (rcv_nxt s)
          (chunks (Z.to_nat (mss (cfg s))) abcde (length rxs))
  | Looping _ _ _ => False
  end.
Proof.
  intros s rxs.
  apply (sr_send_completes_on_full_ack portable still rxs world0 s abcde).
  - intros k. cbn. lia.
  - exact still_within_rto.
  - apply quiet_create.
  - repeat constructor; unfold nothing; cbn; lia.
  - cbn. lia.
  - cbn. lia.
  - reflexivity.
  - cbn. lia.
  - cbn. lia.
  - cbn. lia.
Defined.

End SrSend.
